(** * DBSCAN of cluster.js: a shallow embedding and its properties

    The development follows [lib/util.js] (the Euclidean [distance]) and
    [lib/algorithms/dbscan.js] ([neighborhood], [expandCluster], [run]).

    The metadata table that the three functions mutate in place is the
    store of a small state monad; a point object is referred to by its
    position in the table.  Every write also leaves an event in a trace, so
    that statements about the course of a run (what is written when, what
    is computed how often) can be made about the program itself.

    The k-means module that follows DBSCAN in the same file
    ([assignClusters], [updateMeans], [step], [init], [run], [converged])
    is embedded in [KMeans]: its module variables are a record that the
    functions pass on, and a TypeError is [None].  The placement of the
    initial means draws from [Math.random] and is a parameter.

    Both parts walk objects with underscore ([_.reduce], [_.each],
    [_.any]), which takes an object with a numeric [length] for an array;
    [walk] is that walk. *)

From Stdlib Require Import QArith Qround ZArith Lia Sorted.
From stdpp Require Import base list gmap strings pretty.

Set Default Proof Using "Type".

(** * The program and the vocabulary of its properties *)

(** ** Numbers and point objects *)

(** A datum is a JavaScript object with numeric properties, kept in the
    order in which [_.reduce] walks its keys.  Numbers are exact rationals:
    rounding of IEEE doubles is not modelled. *)
Definition object : Type := list (string * Q).

(** [o[key]]: the value of the property, [None] for [undefined]. *)
Fixpoint prop {V : Type} (key : string) (o : list (string * V)) : option V :=
  match o with
  | [] => None
  | (k, v) :: o' => if decide (k = key) then Some v else prop key o'
  end.

Definition keys {V : Type} (o : list (string * V)) : list string :=
  map fst o.

(** What underscore's [each] hands to its callback, one pair of key and
    value per call; [reduce] and [any] walk an object through [each].  An
    object whose [length] is a number passes the test
    [obj.length === +obj.length] and is walked like an array:
    [for (i = 0; i < length; i++)] hands over [obj[i]] and [i], and the
    value is [undefined] ([None]) where the object has no property [i].
    Every other object is walked by its keys.  [length] is the value of
    [obj.length] when it is a number. *)
Definition walk {V : Type} (length : option Q) (o : list (string * V))
  : list (string * option V) :=
  match length with
  | Some len =>
      map (λ i : nat, (pretty i, prop (pretty i) o))
          (seq 0 (Z.to_nat (Qceiling len)))
  | None => map (λ kv, (kv.1, Some kv.2)) o
  end.

(** The walk of a datum: all its values are numbers, so it is walked like
    an array as soon as it has a property [length]. *)
Definition elements (o : object) : list (string * option Q) :=
  walk (prop "length" o) o.

(** The value of [Math.sqrt(q)] for a rational [q], or [NaN]; [NaN] arises
    when a property is [undefined] in the second object. *)
Inductive number : Type :=
| Sqrt (q : Q)
| NaN.

(** The callback of the [_.reduce] in [distance]:
    [dist + Math.pow(obj2[key] - val, 2)], with [None] for [NaN]; the
    difference is [NaN] when [obj2[key]] or [val] is [undefined]. *)
Definition distance_step (obj2 : object) (dist : option Q)
    (kv : string * option Q) : option Q :=
  match dist, prop kv.1 obj2, kv.2 with
  | Some d, Some w, Some val => Some (d + (w - val) * (w - val))%Q
  | _, _, _ => None
  end.

(** [util.distance] *)
Definition distance (obj1 obj2 : object) : number :=
  match fold_left (distance_step obj2) (elements obj1) (Some 0%Q) with
  | Some q => Sqrt q
  | None => NaN
  end.

Definition Qlt_bool (a b : Q) : bool := negb (Qle_bool b a).

(** [dist < eps], for [dist] a result of [distance] (so [0 <= q]):
    [sqrt q < eps] exactly when [0 < eps] and [q < eps * eps]; every
    comparison with [NaN] is false. *)
Definition lt_eps (dist : number) (eps : Q) : bool :=
  match dist with
  | Sqrt q => Qlt_bool 0 eps && Qlt_bool q (eps * eps)
  | NaN => false
  end.

(** ** The metadata table *)

(** The [cluster] property: [false], ['N'] or a number. *)
Inductive label : Type :=
| Unassigned
| Noise
| Cluster (c : nat).

Global Instance label_eq_dec : EqDecision label.
Proof. solve_decision. Defined.

(** [!l] in JavaScript: [false] and [0] are falsy, ['N'] and the other
    numbers are truthy. *)
Definition falsy (l : label) : bool :=
  match l with
  | Unassigned => true
  | Cluster 0 => true
  | _ => false
  end.

(** One metadata object.  [neighbors] is a sparse array of booleans. *)
Record point : Type := Point {
  visited : bool;
  neighbors : gmap nat bool;
  cluster : label;
  obj : object
}.

Definition with_visited (b : bool) (r : point) : point :=
  Point b (neighbors r) (cluster r) (obj r).

Definition with_neighbor (t : nat) (b : bool) (r : point) : point :=
  Point (visited r) (<[t := b]> (neighbors r)) (cluster r) (obj r).

Definition with_cluster (l : label) (r : point) : point :=
  Point (visited r) (neighbors r) l (obj r).

(** What a run does, in order of occurrence (newest first in a trace). *)
Inductive event : Type :=
| EScan (pt i : nat) (was_visited : bool)
    (* the callback of the scan is entered for [pt] at position [i] *)
| EVisit (p : nat)                      (* [p.visited = true] *)
| EDist (p t : nat)                     (* [util.distance(p.obj, t.obj)] *)
| ECache (p t : nat) (b : bool)         (* [p.neighbors[t] = b] *)
| ELabel (p : nat) (old new : label)    (* [p.cluster = new], over [old] *)
| ENewCluster (c : nat)                 (* [cluster++], giving [c] *)
| EExpand (cl : nat) (neigh : list nat) (* a call of [expandCluster] *).

Global Instance event_eq_dec : EqDecision event.
Proof. solve_decision. Defined.

(** The mutable state of a run: the table, the variable [cluster] of [run]
    and the trace. *)
Record state : Type := State {
  metadata : list point;
  cluster_var : nat;
  trace : list event
}.

(** ** The monad of the embedding *)

Inductive outcome (A : Type) : Type :=
| Done (a : A) (s : state)
| Throw      (* TypeError: a property of [undefined] is read or written *)
| Diverge    (* the recursion budget is used up *).
Arguments Done {A} a s.
Arguments Throw {A}.
Arguments Diverge {A}.

Definition M (A : Type) : Type := state → outcome A.

Definition ret {A} (a : A) : M A := λ s, Done a s.

Definition bind {A B} (m : M A) (k : A → M B) : M B :=
  λ s, match m s with
       | Done a s' => k a s'
       | Throw => Throw
       | Diverge => Diverge
       end.

Declare Scope dbscan_scope.
Delimit Scope dbscan_scope with M.
Notation "'let*' x := m 'in' k" := (bind m (λ x, k))
  (at level 10, x name, m at level 100, k at level 200) : dbscan_scope.
Notation "m ;;; k" := (bind m (λ _, k))
  (at level 100, k at level 200, right associativity) : dbscan_scope.
Open Scope dbscan_scope.

Definition emit (e : event) : M unit :=
  λ s, Done tt (State (metadata s) (cluster_var s) (e :: trace s)).

(** Reading through a reference; [metadata[p]] is [undefined] out of range
    and any property access on it throws. *)
Definition deref (p : nat) : M point :=
  λ s, match metadata s !! p with
       | Some r => Done r s
       | None => Throw
       end.

Definition update (p : nat) (f : point → point) : M unit :=
  λ s, match metadata s !! p with
       | Some r => Done tt (State (<[p := f r]> (metadata s))
                                  (cluster_var s) (trace s))
       | None => Throw
       end.

(** [p.visited = true] *)
Definition set_visited (p : nat) : M unit :=
  update p (with_visited true) ;;; emit (EVisit p).

(** [p.neighbors[t] = b] *)
Definition set_neighbor (p t : nat) (b : bool) : M unit :=
  update p (with_neighbor t b) ;;; emit (ECache p t b).

(** [p.cluster = l] *)
Definition set_cluster (p : nat) (l : label) : M unit :=
  let* r := deref p in
  update p (with_cluster l) ;;; emit (ELabel p (cluster r) l).

(** [cluster++] in [run]; the new value is returned. *)
Definition next_cluster : M nat :=
  λ s, Done (S (cluster_var s))
            (State (metadata s) (S (cluster_var s))
                   (ENewCluster (S (cluster_var s)) :: trace s)).

(** The references of all metadata objects, in table order. *)
Definition refs : M (list nat) :=
  λ s, Done (seq 0 (length (metadata s))) s.

(** [_.each(list, f)]: [f] receives the element and its position.  A local
    variable that the callback updates ([neigh] in [neighborhood]) is
    threaded through as [b]. *)
Fixpoint each_from {A B} (l : list A) (k : nat) (f : A → nat → B → M B)
    (b : B) : M B :=
  match l with
  | [] => ret b
  | x :: l' => let* b' := f x k b in each_from l' (S k) f b'
  end.

Definition each {A B} (l : list A) (f : A → nat → B → M B) (b : B) : M B :=
  each_from l 0 f b.

(** [_.uniq]: the first occurrence of every element, in order. *)
Fixpoint uniq (l : list nat) : list nat :=
  match l with
  | [] => []
  | x :: l' => x :: List.filter (λ y, negb (y =? x)) (uniq l')
  end.

(** [_.union(a, b)] *)
Definition union (a b : list nat) : list nat := uniq (a ++ b).

(** [_.where(metadata, {visited: false})]: the objects whose flag is false
    at the time of the call, in table order. *)
Definition where_unvisited : M (list nat) :=
  λ s, Done (List.filter
               (λ p, match metadata s !! p with
                     | Some r => negb (visited r)
                     | None => false
                     end)
               (seq 0 (length (metadata s)))) s.

(** ** The three functions of dbscan.js *)

(** The callback of the [_.each] in [neighborhood].  Its first statement,
    [(tpt.neighbors[i] === false) && return;], is read as
    [if (tpt.neighbors[i] === false) return;]. *)
Definition neighborhood_step (pt i : nat) (eps : Q)
    (tpt ti : nat) (neigh : list nat) : M (list nat) :=
  let* t := deref tpt in
  match neighbors t !! i with
  | Some false => ret neigh
  | Some true => ret (neigh ++ [ti])
  | None =>
      if ti =? i then ret (neigh ++ [ti])
      else
        let* p := deref pt in
        emit (EDist pt tpt) ;;;
        if lt_eps (distance (obj p) (obj t)) eps
        then set_neighbor pt ti true ;;; ret (neigh ++ [ti])
        else set_neighbor pt ti false ;;; ret neigh
  end.

(** [neighborhood(metadata, pt, i, eps)]; [metadata] is the store. *)
Definition neighborhood (pt i : nat) (eps : Q) : M (list nat) :=
  let* tpts := refs in
  each tpts (neighborhood_step pt i eps) [].

(** The callback of the [_.each] in [expandCluster]; [recurse] is the
    recursive call.  ([console.log(npt)] writes to the console only.) *)
Definition expand_step (recurse : list nat → M unit) (cl : nat)
    (neigh : list nat) (minPts : Z) (eps : Q) (ni : nat) : M unit :=
  let* npt := deref ni in
  (if falsy (cluster npt) then set_cluster ni (Cluster cl) else ret tt) ;;;
  if negb (visited npt) then
    set_visited ni ;;;
    let* nptNeigh := neighborhood ni ni eps in
    if (minPts <? Z.of_nat (length nptNeigh))%Z
    then recurse (union neigh nptNeigh)
    else ret tt
  else ret tt.

(** [expandCluster(metadata, cluster, pt, i, neigh, minPts, eps)] with a
    bound on the depth of the recursion. *)
Fixpoint expandCluster_fuel (fuel : nat) (cl pt i : nat) (neigh : list nat)
    (minPts : Z) (eps : Q) : M unit :=
  match fuel with
  | O => λ _, Diverge
  | S fuel' =>
      emit (EExpand cl neigh) ;;;
      each neigh
        (λ ni _ _,
           expand_step
             (λ neigh', expandCluster_fuel fuel' cl pt i neigh' minPts eps)
             cl neigh minPts eps ni)
        tt
  end.

(** Every nested call follows the visit of a point that was not visited
    before, so one more than the size of the table bounds the depth: the
    budget is never used up ([expandCluster_spec] below), and a larger one
    gives the same result ([expandCluster_fuel_mono]). *)
Definition expandCluster (cl pt i : nat) (neigh : list nat)
    (minPts : Z) (eps : Q) : M unit :=
  λ s, expandCluster_fuel (S (length (metadata s))) cl pt i neigh minPts eps s.

(** The callback of the [_.each] in [run]. *)
Definition scan_step (eps : Q) (minPoints : Z) (pt i : nat) : M unit :=
  let* r := deref pt in
  emit (EScan pt i (visited r)) ;;;
  set_visited pt ;;;
  let* neigh := neighborhood pt i eps in
  if (Z.of_nat (length neigh) <? minPoints)%Z
  then set_cluster pt Noise
  else
    let* cl := next_cluster in
    expandCluster cl pt i neigh minPoints eps.

(** The table built by the [_.map] at the start of [run]. *)
Definition fresh (o : object) : point := Point false ∅ Unassigned o.

Definition init (data : list object) : state :=
  State (map fresh data) 0 [].

(** The body of [run] after the table is built. *)
Definition scan (eps : Q) (minPoints : Z) : M (list point) :=
  let* pts := where_unvisited in
  each pts (λ pt i _, scan_step eps minPoints pt i) tt ;;;
  λ s, Done (metadata s) s.

(** [run(data, eps, minPoints)] *)
Definition run (data : list object) (eps : Q) (minPoints : Z)
  : outcome (list point) :=
  scan eps minPoints (init data).

(** ** Observations on outcomes *)

Definition labels (md : list point) : list label := map cluster md.

Definition result_labels {A} (o : outcome A) : option (list label) :=
  match o with
  | Done _ s => Some (labels (metadata s))
  | _ => None
  end.

(** The events of an outcome in order of occurrence. *)
Definition history {A} (o : outcome A) : option (list event) :=
  match o with
  | Done _ s => Some (rev (trace s))
  | _ => None
  end.

(** ** Sample inputs *)

Definition pt1 (x : Z) : object := [("x"%string, inject_Z x)].
Definition pt2 (x y : Z) : object :=
  [("x"%string, inject_Z x); ("y"%string, inject_Z y)].

(** Three points on a line, one unit apart. *)
Definition line3 : list object := [pt1 0; pt1 1; pt1 2].

(** Two pairs of points, ten units apart (scenario 2 of the spec). *)
Definition two_pairs : list object :=
  [pt2 0 0; pt2 0 1; pt2 10 0; pt2 10 1].

(** Four objects with the keys [0] and [length], which underscore walks
    like arrays: the third has no property [1] under its [length] of 2. *)
Definition array_likes : list object :=
  [[("0"%string, 0%Q); ("length"%string, 1%Q)];
   [("0"%string, 7 # 2); ("length"%string, 1%Q)];
   [("0"%string, 2%Q); ("length"%string, 2%Q)];
   [("0"%string, - (1 # 2)); ("length"%string, 1%Q)]].

(** Six objects that do not share one dimension set: the fourth and the
    fifth have no [y]. *)
Definition mixed_shapes : list object :=
  [pt2 3 0; pt2 3 1; pt2 4 0; pt1 0; pt1 0; pt2 0 0].

(** ** Reasoning about computations *)

(** Total correctness: the computation returns, and the result and the
    final state satisfy [Q]. *)
Definition wp {A} (m : M A) (Q : A → state → Prop) (s : state) : Prop :=
  match m s with
  | Done a s' => Q a s'
  | _ => False
  end.

(** ** The writes of a run as a transition system *)

Definition put (p : nat) (r : point) (es : list event) (s : state) : state :=
  State (<[p := r]> (metadata s)) (cluster_var s) (es ++ trace s).

(** [step eps lv s s']: one write.  Level 0 has the write of [neighborhood]
    for a target that is passed together with its own index, level 1 adds
    those of [expandCluster], level 2 those of the scan in [run]. *)
Inductive step (eps : Q) : nat → state → state → Prop :=
| step_compute lv s p t rp rt :
    metadata s !! p = Some rp →
    metadata s !! t = Some rt →
    t ≠ p →
    neighbors rt !! p = None →
    let b := lt_eps (distance (obj rp) (obj rt)) eps in
    step eps lv s (put p (with_neighbor t b rp) [ECache p t b; EDist p t] s)
| step_visit lv s p r :
    1 ≤ lv →
    metadata s !! p = Some r →
    step eps lv s (put p (with_visited true r) [EVisit p] s)
| step_assign lv s p r cl :
    1 ≤ lv →
    metadata s !! p = Some r →
    falsy (cluster r) = true →
    step eps lv s
      (put p (with_cluster (Cluster cl) r) [ELabel p (cluster r) (Cluster cl)] s)
| step_expand lv s cl neigh :
    1 ≤ lv →
    step eps lv s
      (State (metadata s) (cluster_var s) (EExpand cl neigh :: trace s))
| step_scan lv s pt i r :
    2 ≤ lv →
    metadata s !! pt = Some r →
    step eps lv s
      (State (metadata s) (cluster_var s) (EScan pt i (visited r) :: trace s))
| step_noise lv s p r :
    2 ≤ lv →
    metadata s !! p = Some r →
    step eps lv s (put p (with_cluster Noise r) [ELabel p (cluster r) Noise] s)
| step_next lv s :
    2 ≤ lv →
    step eps lv s
      (State (metadata s) (S (cluster_var s))
             (ENewCluster (S (cluster_var s)) :: trace s)).

Definition steps (eps : Q) (lv : nat) : relation state := rtc (step eps lv).

(** ** The neighbor query *)

(** Whether the query for [pt], [i] keeps table position [t], read off the
    table as it is before the call. *)
Definition keeps (md : list point) (pt i : nat) (eps : Q) (t : nat) : bool :=
  match md !! t, md !! pt with
  | Some rt, Some rp =>
      match neighbors rt !! i with
      | Some b => b
      | None => (t =? i) || lt_eps (distance (obj rp) (obj rt)) eps
      end
  | _, _ => false
  end.

(** What a query for [pt], [i] leaves as it is: everything but the cache of
    [pt], and in every cache the entry for [i]. *)
Definition row_frame (pt i : nat) (s s' : state) : Prop :=
  cluster_var s' = cluster_var s ∧
  length (metadata s') = length (metadata s) ∧
  ∀ p r, metadata s !! p = Some r →
    ∃ r', metadata s' !! p = Some r' ∧
          visited r' = visited r ∧ cluster r' = cluster r ∧ obj r' = obj r ∧
          (p ≠ pt → neighbors r' = neighbors r) ∧
          neighbors r' !! i = neighbors r !! i.

(** ** Termination of the expansion *)

(** The number of points that are not visited yet. *)
Definition unvisited (md : list point) : nat :=
  length (List.filter (λ r, negb (visited r)) md).

(** [m'] returns whatever [m] returns. *)
Definition refines {A} (m m' : M A) : Prop :=
  ∀ s a s', m s = Done a s' → m' s = Done a s'.

(** ** The scan *)

(** The state once the callback of the scan has been entered for [pt] at
    position [i] and has set the flag. *)
Definition entered (pt i : nat) (r : point) (s : state) : state :=
  put pt (with_visited true r) [EVisit pt; EScan pt i (visited r)] s.

(** The state after [cluster++]. *)
Definition bumped (s : state) : state :=
  State (metadata s) (S (cluster_var s))
        (ENewCluster (S (cluster_var s)) :: trace s).

(** ** The distance between objects of one shape *)

(** Two objects have the same dimension set: the same keys, each once. *)
Definition same_dims (a b : object) : Prop :=
  NoDup (keys a) ∧ NoDup (keys b) ∧ keys a ≡ₚ keys b.

(** An object that underscore walks by its keys: it has no property
    [length]. *)
Definition plain (o : object) : Prop := prop "length" o = None.

(** Two objects of one shape: the same keys in the same order, each once,
    and none of them [length]. *)
Definition same_shape (a b : object) : Prop :=
  keys a = keys b ∧ NoDup (keys a) ∧ plain a.

Definition get (o : object) (k : string) : Q := default 0%Q (prop k o).

Definition Qsum (l : list Q) : Q := foldr Qplus 0%Q l.

(** ** What the neighbor query returns *)

Definition shares_dimensions (md : list point) : Prop :=
  ∀ p q rp rq, md !! p = Some rp → md !! q = Some rq →
               same_dims (obj rp) (obj rq).

(** The objects of the table have one shape. *)
Definition regular_table (md : list point) : Prop :=
  ∀ p q rp rq, md !! p = Some rp → md !! q = Some rq →
               same_shape (obj rp) (obj rq).

(** Every cached entry is the outcome of the strict test [dist < eps]. *)
Definition cache_agrees (eps : Q) (md : list point) : Prop :=
  ∀ p t rp rt b, md !! p = Some rp → md !! t = Some rt →
                 neighbors rp !! t = Some b →
                 b = lt_eps (distance (obj rp) (obj rt)) eps.

(** [distance(md[i].obj, md[j].obj) < eps] *)
Definition near (md : list point) (eps : Q) (i j : nat) : bool :=
  match md !! i, md !! j with
  | Some ri, Some rj => lt_eps (distance (obj ri) (obj rj)) eps
  | _, _ => false
  end.

(** The points within [eps] of point [i], and [i] itself, in table order. *)
Definition within (md : list point) (eps : Q) (i : nat) : list nat :=
  List.filter (λ j, (j =? i) || near md eps i j) (seq 0 (length md)).

(** The part of the state that a query for [pt] does not write. *)
Definition untouched (pt : nat) (s s' : state) : Prop :=
  length (metadata s') = length (metadata s) ∧
  ∀ p r, metadata s !! p = Some r →
    ∃ r', metadata s' !! p = Some r' ∧
          visited r' = visited r ∧ cluster r' = cluster r ∧ obj r' = obj r ∧
          (p ≠ pt → neighbors r' = neighbors r).

(** ** The two density tests *)

(** The state once a round of the expansion has labelled [ni] (if its
    label was falsy) and set its flag. *)
Definition stamped (cl : nat) (r : point) : point :=
  if falsy (cluster r) then with_cluster (Cluster cl) r else r.

Definition claimed (cl ni : nat) (r : point) (s : state) : state :=
  if falsy (cluster r)
  then put ni (with_cluster (Cluster cl) r)
           [ELabel ni (cluster r) (Cluster cl)] s
  else s.

Definition reached (cl ni : nat) (r : point) (s : state) : state :=
  put ni (with_visited true (stamped cl r)) [EVisit ni] (claimed cl ni r s).

(** ** Reading a trace *)

(** The label of [p] after the events of [tr] (newest first): the latest
    value written, [false] if none was. *)
Fixpoint label_now (tr : list event) (p : nat) : label :=
  match tr with
  | [] => Unassigned
  | ELabel q _ new :: tr' => if decide (q = p) then new else label_now tr' p
  | _ :: tr' => label_now tr' p
  end.

(** The entry for [t] in the cache of [p] after the events of [tr]. *)
Fixpoint cached_now (tr : list event) (p t : nat) : option bool :=
  match tr with
  | [] => None
  | ECache q u b :: tr' =>
      if decide (q = p ∧ u = t) then Some b else cached_now tr' p t
  | _ :: tr' => cached_now tr' p t
  end.

(** Every write of a label records the label it replaces, and noise is
    replaced by noise only. *)
Fixpoint well_labelled (tr : list event) : Prop :=
  match tr with
  | [] => True
  | e :: tr' =>
      match e with
      | ELabel q old new => old = label_now tr' q ∧ (old = Noise → new = Noise)
      | _ => True
      end ∧ well_labelled tr'
  end.

(** [distance(data[p], data[t]) < eps] *)
Definition test (data : list object) (eps : Q) (p t : nat) : bool :=
  match data !! p, data !! t with
  | Some a, Some b => lt_eps (distance a b) eps
  | _, _ => false
  end.

(** Every computation of a distance for [p] and [t] happens while the
    cache of [t] has no entry for [p], and is followed at once by the write
    of the outcome into the cache of [p]; nothing else writes a cache. *)
Fixpoint well_cached (data : list object) (eps : Q) (tr : list event) : Prop :=
  match tr with
  | [] => True
  | ECache p t b :: tr1 =>
      match tr1 with
      | EDist p' t' :: tr2 =>
          p' = p ∧ t' = t ∧ p ≠ t ∧ b = test data eps p t ∧
          cached_now tr2 t p = None ∧ well_cached data eps tr2
      | _ => False
      end
  | EDist _ _ :: _ => False
  | _ :: tr1 => well_cached data eps tr1
  end.

(** The trace tells the labels and the caches of the table. *)
Definition trace_tells (data : list object) (s : state) : Prop :=
  map obj (metadata s) = data ∧
  ∀ p r, metadata s !! p = Some r →
         cluster r = label_now (trace s) p ∧
         ∀ t, neighbors r !! t = cached_now (trace s) p t.

Definition traced (data : list object) (eps : Q) (s : state) : Prop :=
  trace_tells data s ∧ well_labelled (trace s) ∧ well_cached data eps (trace s).

(** ** Runs on the sample inputs *)

(** A point is a core point when its neighborhood has at least [minPts]
    members (glossary of the spec). *)
Definition core (md : list point) (eps : Q) (minPts : Z) (i : nat) : Prop :=
  (minPts ≤ Z.of_nat (length (within md eps i)))%Z.

(** [b] is density-reachable from the core point [a]: a chain of core
    points, each within [eps] of the next, leads from [a] to [b]. *)
Inductive reachable (md : list point) (eps : Q) (minPts : Z) (a : nat)
  : nat → Prop :=
| reach_seed : core md eps minPts a → reachable md eps minPts a a
| reach_next b c :
    reachable md eps minPts a b → core md eps minPts b →
    c ∈ within md eps b → reachable md eps minPts a c.

(** ** The noise labels of a run *)

(** All data of an input share one dimension set. *)
Definition well_formed (data : list object) : Prop :=
  ∀ a b, a ∈ data → b ∈ data → same_dims a b.

(** All data of an input have one shape. *)
Definition regular (data : list object) : Prop :=
  ∀ a b, a ∈ data → b ∈ data → same_shape a b.

(** The points labelled noise are the same in [s] and [s']. *)
Definition same_noise (s s' : state) : Prop :=
  ∀ p r, metadata s !! p = Some r →
    ∃ r', metadata s' !! p = Some r' ∧ (cluster r' = Noise ↔ cluster r = Noise).

(** The number of points labelled noise. *)
Definition noise_count (md : list point) : nat :=
  length (List.filter (λ r, bool_decide (cluster r = Noise)) md).

(** ** The writes of one expansion *)

(** One write of a call of [expandCluster] for the cluster [cl], nested
    calls and queries included. *)
Inductive estep (eps : Q) (cl : nat) : relation state :=
| estep_compute s p t rp rt :
    metadata s !! p = Some rp →
    metadata s !! t = Some rt →
    t ≠ p →
    neighbors rt !! p = None →
    let b := lt_eps (distance (obj rp) (obj rt)) eps in
    estep eps cl s (put p (with_neighbor t b rp) [ECache p t b; EDist p t] s)
| estep_visit s p r :
    metadata s !! p = Some r →
    estep eps cl s (put p (with_visited true r) [EVisit p] s)
| estep_assign s p r :
    metadata s !! p = Some r →
    falsy (cluster r) = true →
    estep eps cl s
      (put p (with_cluster (Cluster cl) r) [ELabel p (cluster r) (Cluster cl)] s)
| estep_expand s neigh :
    estep eps cl s
      (State (metadata s) (cluster_var s) (EExpand cl neigh :: trace s)).

(** From [s] to [s'] the table keeps its length and its data, no flag is
    reset, and a label either stays or goes from falsy to [cl]. *)
Definition grows (cl : nat) (s s' : state) : Prop :=
  cluster_var s' = cluster_var s ∧
  length (metadata s') = length (metadata s) ∧
  ∀ p r, metadata s !! p = Some r →
    ∃ r', metadata s' !! p = Some r' ∧
          obj r' = obj r ∧
          (visited r = true → visited r' = true) ∧
          (cluster r' = cluster r ∨
           (falsy (cluster r) = true ∧ cluster r' = Cluster cl)).

(** The point at [p] is visited and its label is assigned or is [cl]. *)
Definition settled (cl : nat) (s : state) (p : nat) : Prop :=
  ∃ r, metadata s !! p = Some r ∧ visited r = true ∧
       (falsy (cluster r) = false ∨ cluster r = Cluster cl).

(** The positions for which the callback of the scan was entered, newest
    first, each with the object it was entered for. *)
Definition scans (tr : list event) : list (nat * nat) :=
  omap (λ e, match e with EScan pt i _ => Some (pt, i) | _ => None end) tr.

(** ** The state of the scan *)

(** [s2] is [s] with the flag of the point at [k] set: the state in which
    the scan has entered its callback for [k] and has queried the
    neighborhood. *)
Definition entered_frame (k : nat) (s s2 : state) : Prop :=
  cluster_var s2 = cluster_var s ∧
  length (metadata s2) = length (metadata s) ∧
  ∀ p rp, metadata s !! p = Some rp →
    ∃ rp2, metadata s2 !! p = Some rp2 ∧
           cluster rp2 = cluster rp ∧ obj rp2 = obj rp ∧
           visited rp2 = (if decide (p = k) then true else visited rp).

(** After [k] rounds of the scan: every label is noise, unassigned or an
    identifier between 1 and the counter, and the first [k] points are
    visited and labelled. *)
Definition labelled_upto (k : nat) (s : state) : Prop :=
  ∀ i r, metadata s !! i = Some r →
    (∀ c, cluster r = Cluster c → 1 ≤ c ≤ cluster_var s) ∧
    (i < k → visited r = true ∧ falsy (cluster r) = false).

(** ** Counting the computations of a distance *)

(** How often [distance(p.obj, t.obj)] is computed in a trace. *)
Definition dists (tr : list event) (p t : nat) : nat :=
  count_occ event_eq_dec tr (EDist p t).

(** 1 while the point at [p] is not visited, 0 afterwards. *)
Definition unseen (s : state) (p : nat) : nat :=
  match metadata s !! p with
  | Some r => if visited r then 0 else 1
  | None => 0
  end.

(** From [s] to [s'] the table keeps its length, and what is computed for
    a point is paid for by its flag. *)
Definition pays (s s' : state) : Prop :=
  length (metadata s') = length (metadata s) ∧
  ∀ p t, dists (trace s') p t + unseen s' p ≤ dists (trace s) p t + unseen s p.

(** ** Writes of labels *)

(** A write of a label replaces a falsy label, or writes the noise
    marker. *)
Definition fair_write (e : event) : Prop :=
  match e with
  | ELabel _ old new => falsy old = true ∨ new = Noise
  | _ => True
  end.

(** ** The k-means module that follows DBSCAN in dbscan.js *)

Module KMeans.

(** A mean: an object whose values are numbers or [NaN] ([None]). *)
Definition mean : Type := list (string * option Q).

(** A datum that the placement takes as a mean. *)
Definition as_mean (o : object) : mean := map (λ kv, (kv.1, Some kv.2)) o.

(** The walk of a mean: like an array when its [length] is a number. *)
Definition mean_elements (m : mean) : list (string * option (option Q)) :=
  walk (match prop "length" m with Some (Some len) => Some len | _ => None end)
       m.

(** The callback of the [_.reduce] in the module's own [distance], from a
    datum to a mean: [dist + Math.pow(obj2[key] - val, 2)], which is [NaN]
    when [obj2[key]] is [undefined] or [NaN] or [val] is [undefined]. *)
Definition distance_step (obj2 : mean) (dist : option Q)
    (kv : string * option Q) : option Q :=
  match dist, prop kv.1 obj2, kv.2 with
  | Some d, Some (Some w), Some val => Some (d + (w - val) * (w - val))%Q
  | _, _, _ => None
  end.

(** [distance] of the k-means module *)
Definition distance (obj1 : object) (obj2 : mean) : number :=
  match fold_left (distance_step obj2) (elements obj1) (Some 0%Q) with
  | Some q => Sqrt q
  | None => NaN
  end.

(** [computed < result.computed] in [_.min]; the computed value of the
    result starts at [Infinity], which is [None] here.  The numbers are
    roots, and [sqrt a < sqrt b] exactly when [a < b]; a number of the
    model is finite and so below [Infinity] (a sum that overflows the
    doubles is not modelled). *)
Definition below (computed : number) (best : option number) : bool :=
  match computed, best with
  | Sqrt _, None => true
  | Sqrt q, Some (Sqrt q') => Qlt_bool q q'
  | _, _ => false
  end.

(** The loop of [_.min(list, iterator)]: a value replaces the result when
    its computed value is below the one of the result. *)
Fixpoint min_from {A} (iterator : A → number) (l : list A)
    (result : option (A * number)) : option (A * number) :=
  match l with
  | [] => result
  | value :: l' =>
      let computed := iterator value in
      min_from iterator l'
        (if below computed (snd <$> result)
         then Some (value, computed) else result)
  end.

(** [_.min(list, iterator)]; [None] when no computed value is below
    [Infinity], where the library returns a value without properties. *)
Definition min_by {A} (iterator : A → number) (l : list A) : option A :=
  fst <$> min_from iterator l None.

(** The callback of the [_.each] in [assignClusters]; [None] is the
    TypeError of [clusters[meanid].push] when [meanid] is [undefined]. *)
Definition assign (means : list mean) (datum : object) (index : nat)
    (clusters : list (list nat)) : option (list (list nat)) :=
  match min_by (λ mean : mean * nat, distance datum mean.1)
               (zip means (seq 0 (length means))) with
  | Some mean =>
      match clusters !! mean.2 with
      | Some cluster => Some (<[mean.2 := cluster ++ [index]]> clusters)
      | None => None
      end
  | None => None
  end.

Fixpoint assign_from (means : list mean) (data : list object) (index : nat)
    (clusters : list (list nat)) : option (list (list nat)) :=
  match data with
  | [] => Some clusters
  | datum :: data' =>
      match assign means datum index clusters with
      | Some clusters' => assign_from means data' (S index) clusters'
      | None => None
      end
  end.

(** [assignClusters(data, means)] *)
Definition assignClusters (data : list object) (means : list mean)
  : option (list (list nat)) :=
  assign_from means data 0 (replicate (length means) []).

(** [o[key] = v]: an existing key keeps its place, a new key comes last. *)
Fixpoint set_prop {V : Type} (key : string) (v : V) (o : list (string * V))
  : list (string * V) :=
  match o with
  | [] => [(key, v)]
  | (k, w) :: o' =>
      if decide (k = key) then (k, v) :: o' else (k, w) :: set_prop key v o'
  end.

(** [memo[dkey] || 0]: [undefined], [NaN] and 0 give 0. *)
Definition or_zero (v : option (option Q)) : Q :=
  match v with
  | Some (Some q) => q
  | _ => 0%Q
  end.

(** [memo[dkey] = (memo[dkey] || 0) + (dval / len)], which is [NaN] when
    [dval] is [undefined]; the sum and the quotient are exact. *)
Definition add_value (len : nat) (memo : mean) (kv : string * option Q)
  : mean :=
  set_prop kv.1
    (match kv.2 with
     | Some dval =>
         Some (or_zero (prop kv.1 memo) + dval / inject_Z (Z.of_nat len))%Q
     | None => None
     end) memo.

(** The callback of the [_.reduce] in [updateMeans]; [_.each] does nothing
    on [undefined]. *)
Definition add_datum (data : list object) (len : nat) (memo : mean)
    (index : nat) : mean :=
  match data !! index with
  | Some datum => fold_left (add_value len) (elements datum) memo
  | None => memo
  end.

(** The mean that [updateMeans] computes for one cluster. *)
Definition centroid (data : list object) (cluster : list nat) : mean :=
  fold_left (add_datum data (length cluster)) cluster [].

(** [v !== w], for [v] and [w] a number, [NaN] or [undefined]. *)
Definition strict_ne (v w : option (option Q)) : bool :=
  match v, w with
  | None, None => false
  | Some (Some x), Some (Some y) => negb (Qeq_bool x y)
  | _, _ => true
  end.

(** [_.any(mean, function (v, k) { return v !== old[k]; })] *)
Definition differs (m old : mean) : bool :=
  existsb (λ kv, strict_ne kv.2 (prop kv.1 old)) (mean_elements m).

(** The callback of the [_.each] in [updateMeans], on the variables
    [means] and [meansChanged].  The positions come in order, so
    [means[clindex] = mean] appends.  [None] is the TypeError of
    [oldmeans[clindex][k]] when [oldmeans] is too short; [_.any] gets to
    it only when [meansChanged] is still [false] and the walk of the new
    mean is not empty. *)
Definition update (data : list object) (oldmeans : list mean)
    (acc : list mean * bool) (cluster : list nat) (clindex : nat)
  : option (list mean * bool) :=
  let mean := centroid data cluster in
  if acc.2 then Some (acc.1 ++ [mean], true)
  else match mean_elements mean, oldmeans !! clindex with
       | [], _ => Some (acc.1 ++ [mean], false)
       | _, Some old => Some (acc.1 ++ [mean], differs mean old)
       | _, None => None
       end.

Fixpoint update_from (data : list object) (oldmeans : list mean)
    (clusters : list (list nat)) (clindex : nat) (acc : list mean * bool)
  : option (list mean * bool) :=
  match clusters with
  | [] => Some acc
  | cluster :: clusters' =>
      match update data oldmeans acc cluster clindex with
      | Some acc' => update_from data oldmeans clusters' (S clindex) acc'
      | None => None
      end
  end.

(** [updateMeans(data, oldmeans, clusters)]: the new [means] and
    [meansChanged]. *)
Definition updateMeans (data : list object) (oldmeans : list mean)
    (clusters : list (list nat)) : option (list mean * bool) :=
  update_from data oldmeans clusters 0 ([], false).

(** The argument of [init] and [run]. *)
Record input : Type := Input {
  numMeans : option nat;
  kmeanspp : option bool;
  iterationLimit : option Z;
  input_data : list object
}.

(** The variables of the module. *)
Record vars : Type := Vars {
  inputData : input;
  means : list mean;
  data : list object;
  clusters : list (list nat);
  meansChanged : bool;
  round : Z
}.

(** [_.defaults(input, {numMeans: 3, "kmeans++": true, iterationLimit: 100})] *)
Definition defaults (i : input) : input :=
  Input (Some (default 3 (numMeans i)))
        (Some (default true (kmeanspp i)))
        (Some (default 100%Z (iterationLimit i)))
        (input_data i).

(** [step()] *)
Definition step (v : vars) : option vars :=
  match assignClusters (data v) (means v) with
  | Some cl =>
      match updateMeans (data v) (means v) cl with
      | Some (ms, changed) =>
          Some (Vars (inputData v) ms (data v) cl changed (round v + 1)%Z)
      | None => None
      end
  | None => None
  end.

(** [init(input)].  [initMeans] and [initMeanspp] draw from [Math.random];
    the data that they return as means, for the flag, the data and the
    number of means, are the parameter [place] ([None] when they throw). *)
Definition init (place : bool → list object → nat → option (list object))
    (i : input) : option vars :=
  let inputData := defaults i in
  match place (default true (kmeanspp inputData)) (input_data inputData)
              (default 3 (numMeans inputData)) with
  | Some ms =>
      Some (Vars inputData (map as_mean ms) (input_data inputData) []
                 false 0)
  | None => None
  end.

(** [while (meansChanged && round < limit) step();] with a bound on the
    number of rounds. *)
Fixpoint loop (fuel : nat) (limit : Z) (v : vars) : option vars :=
  if meansChanged v && (round v <? limit)%Z
  then match fuel with
       | O => None
       | S fuel' =>
           match step v with
           | Some v' => loop fuel' limit v'
           | None => None
           end
       end
  else Some v.

(** [run(input)]; every round increments [round], so the distance of
    [round] to the limit bounds the rounds. *)
Definition run (place : bool → list object → nat → option (list object))
    (i : input) : option vars :=
  match init place i with
  | Some v =>
      let limit := default 100%Z (iterationLimit (inputData v)) in
      loop (Z.to_nat (limit - round v)) limit v
  | None => None
  end.

(** [converged()] *)
Definition converged (v : vars) : bool := negb (meansChanged v).

(** [x], at position [k] of [l], has the least computed value [sqrt q] and
    is the first to have it; values computed as [NaN] do not count. *)
Definition first_least {A} (f : A → number) (l : list A) (k : nat) (x : A)
    (q : Q) : Prop :=
  l !! k = Some x ∧ f x = Sqrt q ∧
  ∀ j y qy, l !! j = Some y → f y = Sqrt qy →
            (q <= qy)%Q ∧ (j < k → (q < qy)%Q).

(** What [_.min] holds after the values [l]. *)
Definition least_so_far {A} (f : A → number) (l : list A)
    (result : option (A * number)) : Prop :=
  match result with
  | Some (x, c) => ∃ k q, c = Sqrt q ∧ first_least f l k x q
  | None => ∀ y, y ∈ l → f y = NaN
  end.

(** The datum has no number as distance to any of the means. *)
Definition stranded (means : list mean) (datum : object) : Prop :=
  ∀ mean, mean ∈ means → distance datum mean = NaN.

(** The clusters after the data below [n]: one cluster per mean, every
    index below [n] in the cluster of its nearest mean (the first one among
    equals), in ascending order, and nothing else. *)
Definition assigned (data : list object) (means : list mean) (n : nat)
    (cl : list (list nat)) : Prop :=
  length cl = length means ∧
  concat cl ≡ₚ seq 0 n ∧
  Forall (StronglySorted lt) cl ∧
  ∀ i datum, i < n → data !! i = Some datum →
    ∃ c cluster mean q, cl !! c = Some cluster ∧ i ∈ cluster ∧
                        first_least (distance datum) means c mean q.

(** Every value of the walk, or of the mean, is a number. *)
Definition numbers {V : Type} (l : list (string * option V)) : Prop :=
  Forall (λ kv, is_Some kv.2) l.

End KMeans.

(** Sample states of the k-means module: the three points on a line with
    the first and the last as means, and with the first one as both means;
    each followed by its next two rounds. *)
Definition kmeans_start : KMeans.vars :=
  KMeans.Vars (KMeans.Input None None None line3)
              (map KMeans.as_mean [pt1 0; pt1 2]) line3 [] false 0.

Definition kmeans_round1 : KMeans.vars :=
  Eval vm_compute in default kmeans_start (KMeans.step kmeans_start).

Definition kmeans_round2 : KMeans.vars :=
  Eval vm_compute in default kmeans_start (KMeans.step kmeans_round1).

Definition kmeans_twins : KMeans.vars :=
  KMeans.Vars (KMeans.Input None None None line3)
              (map KMeans.as_mean [pt1 0; pt1 0]) line3 [] false 0.

Definition kmeans_twins1 : KMeans.vars :=
  Eval vm_compute in default kmeans_twins (KMeans.step kmeans_twins).

Definition kmeans_twins2 : KMeans.vars :=
  Eval vm_compute in default kmeans_twins (KMeans.step kmeans_twins1).

(** A placement of the initial means that takes the first data. *)
Definition place_first (flag : bool) (data : list object) (numMeans : nat)
  : option (list object) :=
  Some (take numMeans data).

(** * Properties *)

(** ** Reasoning about computations *)

Lemma wp_ret {A} (a : A) (Q : A → state → Prop) s : Q a s → wp (ret a) Q s.
Proof. done. Qed.

Lemma wp_bind {A B} (m : M A) (k : A → M B) (Q : B → state → Prop) s :
  wp m (λ a s', wp (k a) Q s') s → wp (bind m k) Q s.
Proof. unfold wp, bind. by destruct (m s). Qed.

Lemma wp_mono {A} (m : M A) (Q Q' : A → state → Prop) s :
  wp m Q s → (∀ a s', Q a s' → Q' a s') → wp m Q' s.
Proof. unfold wp. destruct (m s); auto. Qed.

Lemma wp_done {A} (m : M A) (Q : A → state → Prop) s :
  wp m Q s → ∃ a s', m s = Done a s' ∧ Q a s'.
Proof. unfold wp. destruct (m s); naive_solver. Qed.

Lemma done_wp {A} (m : M A) (Q : A → state → Prop) s a s' :
  m s = Done a s' → Q a s' → wp m Q s.
Proof. unfold wp. by intros ->. Qed.

Lemma wp_emit e (Q : unit → state → Prop) s :
  Q tt (State (metadata s) (cluster_var s) (e :: trace s)) → wp (emit e) Q s.
Proof. done. Qed.

Lemma wp_deref p r (Q : point → state → Prop) s :
  metadata s !! p = Some r → Q r s → wp (deref p) Q s.
Proof. unfold wp, deref. by intros ->. Qed.

Lemma wp_update p f r (Q : unit → state → Prop) s :
  metadata s !! p = Some r →
  Q tt (State (<[p := f r]> (metadata s)) (cluster_var s) (trace s)) →
  wp (update p f) Q s.
Proof. unfold wp, update. by intros ->. Qed.

(** The loop rule: [I k b s] holds before the callback runs at position
    [k] with the local value [b]. *)
Lemma wp_each_from {A B} (I : nat → B → state → Prop)
    (l : list A) (f : A → nat → B → M B) k b s :
  I k b s →
  (∀ j x b s, l !! j = Some x → I (k + j) b s →
     wp (f x (k + j) b) (I (S (k + j))) s) →
  wp (each_from l k f b) (I (k + length l)) s.
Proof.
  revert k b s. induction l as [|x l IH]; intros k b s HI Hf; simpl.
  - apply wp_ret. by rewrite Nat.add_0_r.
  - apply wp_bind. eapply wp_mono.
    + specialize (Hf 0 x b s). rewrite Nat.add_0_r in Hf. by apply Hf.
    + intros b' s' HI'. replace (k + S (length l)) with (S k + length l) by lia.
      apply IH; [done|]. intros j y b'' s'' Hj HI''.
      specialize (Hf (S j) y b'' s'' Hj).
      rewrite <- Nat.add_succ_comm in Hf. by apply Hf.
Qed.

Lemma wp_each {A B} (I : nat → B → state → Prop)
    (l : list A) (f : A → nat → B → M B) b s :
  I 0 b s →
  (∀ j x b s, l !! j = Some x → I j b s → wp (f x j b) (I (S j)) s) →
  wp (each l f b) (I (length l)) s.
Proof. intros HI Hf. by apply (wp_each_from I l f 0). Qed.

(** ** The writes of a run as a transition system *)

Lemma step_level eps lv lv' s s' :
  lv ≤ lv' → step eps lv s s' → step eps lv' s s'.
Proof.
  intros Hle Hs. destruct Hs; try (econstructor; eauto; lia).
Qed.

Lemma steps_level eps lv lv' s s' :
  lv ≤ lv' → steps eps lv s s' → steps eps lv' s s'.
Proof.
  intros Hle Hs. induction Hs as [|s1 s2 s3 H12 _ IH]; [constructor|].
  eapply rtc_l; [|exact IH]. by eapply step_level.
Qed.

(** An invariant of single steps is an invariant of runs. *)
Lemma steps_invariant eps lv (I : state → Prop) s s' :
  (∀ s1 s2, step eps lv s1 s2 → I s1 → I s2) →
  steps eps lv s s' → I s → I s'.
Proof. intros Hstep Hs. induction Hs; eauto. Qed.

Lemma steps_length eps lv s s' :
  steps eps lv s s' → length (metadata s') = length (metadata s).
Proof.
  intros Hs. induction Hs as [|s1 s2 s3 H12 _ IH]; [done|].
  rewrite IH. destruct H12; simpl; by rewrite ?length_insert.
Qed.

(** ** The neighbor query *)

Lemma row_frame_refl pt i s : row_frame pt i s s.
Proof. repeat split; eauto 10. Qed.

Lemma row_frame_cache pt i t b s0 s rp :
  row_frame pt i s0 s →
  metadata s !! pt = Some rp →
  t ≠ i →
  row_frame pt i s0 (put pt (with_neighbor t b rp) [ECache pt t b; EDist pt t] s).
Proof.
  intros (Hcv & Hlen & Hfr) Hpt Hne. split; [done|]. split.
  { simpl. by rewrite length_insert. }
  intros p r Hp. destruct (Hfr p r Hp) as (r' & Hp' & Hv & Hc & Ho & Hn & Hi).
  simpl. destruct (decide (p = pt)) as [->|Hppt].
  - rewrite list_lookup_insert_eq; [|by eapply lookup_lt_Some].
    assert (r' = rp) as -> by congruence.
    eexists; split; [done|]. simpl. repeat split; try done.
    by rewrite lookup_insert_ne.
  - rewrite list_lookup_insert_ne; [|done]. eauto 10.
Qed.

Lemma filter_seq_S (f : nat → bool) k :
  List.filter f (seq 0 (S k)) =
  List.filter f (seq 0 k) ++ (if f k then [k] else []).
Proof. rewrite seq_S, List.filter_app. simpl. by destruct (f k). Qed.

Lemma lookup_seq_0 n j x : seq 0 n !! j = Some x → x = j ∧ j < n.
Proof. intros H. apply lookup_seq in H. naive_solver. Qed.

Lemma neighborhood_spec pt i eps s :
  pt < length (metadata s) →
  wp (neighborhood pt i eps)
     (λ ng s',
        ng = List.filter (keeps (metadata s) pt i eps)
                         (seq 0 (length (metadata s))) ∧
        row_frame pt i s s' ∧
        (pt = i → steps eps 0 s s'))
     s.
Proof.
  intros Hpt. unfold neighborhood. apply wp_bind. unfold wp at 1, refs.
  set (n := length (metadata s)).
  eapply wp_mono.
  { apply (wp_each (λ k ng s',
      ng = List.filter (keeps (metadata s) pt i eps) (seq 0 k) ∧
      row_frame pt i s s' ∧ (pt = i → steps eps 0 s s'))).
    { split; [done|]. split; [apply row_frame_refl|]. intros _. constructor. }
    intros j x ng s' Hj (-> & Hfr & Hst).
    apply lookup_seq_0 in Hj as [-> Hjn].
    destruct (lookup_lt_is_Some_2 (metadata s) j Hjn) as [rt Hrt].
    destruct (lookup_lt_is_Some_2 (metadata s) pt Hpt) as [rp Hrp].
    pose proof Hfr as (Hcv & Hlen & Hall).
    destruct (Hall j rt Hrt) as (rt' & Hrt' & _ & _ & Hot & _ & Hit).
    destruct (Hall pt rp Hrp) as (rp' & Hrp' & _ & _ & Hop & _ & _).
    assert (keeps (metadata s) pt i eps j =
            match neighbors rt !! i with
            | Some b => b
            | None => (j =? i) || lt_eps (distance (obj rp) (obj rt)) eps
            end) as Hk by (unfold keeps; by rewrite Hrt, Hrp).
    rewrite filter_seq_S, Hk. clear Hk.
    unfold neighborhood_step. apply wp_bind, (wp_deref _ rt'); [done|].
    rewrite Hit. destruct (neighbors rt !! i) as [[]|] eqn:Hc.
    - by apply wp_ret.
    - apply wp_ret. by rewrite app_nil_r.
    - destruct (j =? i) eqn:Hji; simpl; [by apply wp_ret|].
      apply Nat.eqb_neq in Hji.
      apply wp_bind, (wp_deref _ rp'); [done|]. apply wp_bind, wp_emit.
      rewrite Hop, Hot.
      assert (∀ b, b = lt_eps (distance (obj rp) (obj rt)) eps →
         wp (set_neighbor pt j b)
           (λ _ s'', row_frame pt i s s'' ∧ (pt = i → steps eps 0 s s''))
           (State (metadata s') (cluster_var s') (EDist pt j :: trace s')))
        as Hset.
      { intros b Hb. unfold set_neighbor. apply wp_bind.
        eapply wp_update; [done|]. apply wp_emit. simpl. split.
        - by apply (row_frame_cache pt i j b s s' rp').
        - intros ->. eapply rtc_r; [by apply Hst|].
          subst b. rewrite <- Hop, <- Hot.
          apply (step_compute eps 0 s' i j rp' rt'); congruence. }
      destruct (lt_eps (distance (obj rp) (obj rt)) eps) eqn:Hlt.
      + apply wp_bind. eapply wp_mono; [by apply Hset|].
        intros _ s'' [? ?]. by apply wp_ret.
      + apply wp_bind. eapply wp_mono; [by apply Hset|].
        intros _ s'' [? ?]. apply wp_ret. by rewrite app_nil_r. }
  simpl. intros ng s'. by rewrite length_seq.
Qed.

Lemma keeps_lt md pt i eps t : keeps md pt i eps t = true → t < length md.
Proof.
  unfold keeps. destruct (md !! t) eqn:Ht; [|done].
  intros _. by eapply lookup_lt_Some.
Qed.

Lemma filter_Forall {A} (P : A → Prop) (f : A → bool) l :
  Forall P l → Forall P (List.filter f l).
Proof.
  induction 1 as [|x l Hx _ IH]; simpl; [done|].
  destruct (f x); auto.
Qed.

Lemma neighborhood_in_range md pt i eps :
  Forall (λ t, t < length md)
         (List.filter (keeps md pt i eps) (seq 0 (length md))).
Proof.
  apply Forall_forall. intros t Ht.
  apply list_elem_of_In, List.filter_In in Ht as [_ Ht]. by eapply keeps_lt.
Qed.

Lemma uniq_Forall (P : nat → Prop) l : Forall P l → Forall P (uniq l).
Proof.
  induction 1 as [|x l Hx _ IH]; simpl; [done|].
  constructor; [done|]. by apply filter_Forall.
Qed.

Lemma union_Forall (P : nat → Prop) a b :
  Forall P a → Forall P b → Forall P (union a b).
Proof. intros Ha Hb. apply uniq_Forall, Forall_app. done. Qed.

(** ** Termination of the expansion *)

Lemma unvisited_le md : unvisited md ≤ length md.
Proof. apply List.filter_length_le. Qed.

Lemma unvisited_insert_same md p r r' :
  md !! p = Some r → visited r' = visited r →
  unvisited (<[p := r']> md) = unvisited md.
Proof.
  unfold unvisited. revert p. induction md as [|x md IH]; intros [|p]; simpl;
    try done.
  - intros [= ->] Hv. cbn. rewrite Hv. by destruct (visited r).
  - intros Hp Hv. specialize (IH p Hp Hv). cbn. destruct (visited x); simpl; lia.
Qed.

Lemma unvisited_insert_visit md p r :
  md !! p = Some r → visited r = false →
  S (unvisited (<[p := with_visited true r]> md)) = unvisited md.
Proof.
  unfold unvisited. revert p. induction md as [|x md IH]; intros [|p]; simpl;
    try done.
  - intros [= ->] Hv. cbn. by rewrite Hv.
  - intros Hp Hv. specialize (IH p Hp Hv). cbn. destruct (visited x); simpl; lia.
Qed.

Lemma unvisited_ext md md' :
  length md' = length md →
  (∀ p r, md !! p = Some r → ∃ r', md' !! p = Some r' ∧ visited r' = visited r) →
  unvisited md' = unvisited md.
Proof.
  unfold unvisited. revert md'.
  induction md as [|x md IH]; intros [|x' md'] Hlen Hall; simpl in *; try done.
  destruct (Hall 0 x eq_refl) as (r' & [= <-] & Hv). rewrite Hv.
  assert (length (List.filter (λ r, negb (visited r)) md') =
          length (List.filter (λ r, negb (visited r)) md)) as Heq.
  { apply IH; [lia|]. intros p r Hp. by apply (Hall (S p)). }
  destruct (visited x); simpl; lia.
Qed.

Lemma row_frame_unvisited pt i s s' :
  row_frame pt i s s' → unvisited (metadata s') = unvisited (metadata s).
Proof.
  intros (_ & Hlen & Hall). apply unvisited_ext; [done|].
  intros p r Hp. destruct (Hall p r Hp) as (r' & ? & ? & _). eauto.
Qed.

Lemma set_visited_eq p r s :
  metadata s !! p = Some r →
  set_visited p s = Done tt (put p (with_visited true r) [EVisit p] s).
Proof. intros H. unfold set_visited, bind, update. by rewrite H. Qed.

Lemma set_cluster_eq p l r s :
  metadata s !! p = Some r →
  set_cluster p l s =
  Done tt (put p (with_cluster l r) [ELabel p (cluster r) l] s).
Proof. intros H. unfold set_cluster, bind, deref, update. by rewrite !H. Qed.

Lemma put_lookup p r es s :
  p < length (metadata s) → metadata (put p r es s) !! p = Some r.
Proof. intros H. simpl. by apply list_lookup_insert_eq. Qed.

(** One round of the loop of [expandCluster], given that the nested call
    behaves on every state with fewer unvisited points. *)
Lemma expand_step_wp eps minPts cl neigh ni recurse s :
  ni < length (metadata s) →
  Forall (λ j, j < length (metadata s)) neigh →
  (∀ neigh' s',
     Forall (λ j, j < length (metadata s')) neigh' →
     unvisited (metadata s') < unvisited (metadata s) →
     wp (recurse neigh')
        (λ _ s'', steps eps 1 s' s'' ∧
                  unvisited (metadata s'') ≤ unvisited (metadata s')) s') →
  wp (expand_step recurse cl neigh minPts eps ni)
     (λ _ s', steps eps 1 s s' ∧
              unvisited (metadata s') ≤ unvisited (metadata s)) s.
Proof.
  intros Hni Hneigh Hrec.
  destruct (lookup_lt_is_Some_2 _ _ Hni) as [r Hr].
  unfold expand_step. apply wp_bind, (wp_deref _ r); [done|]. apply wp_bind.
  (* the label *)
  set (s1 := if falsy (cluster r)
             then put ni (with_cluster (Cluster cl) r)
                      [ELabel ni (cluster r) (Cluster cl)] s
             else s).
  set (r1 := if falsy (cluster r) then with_cluster (Cluster cl) r else r).
  assert (steps eps 1 s s1 ∧ metadata s1 !! ni = Some r1 ∧
          visited r1 = visited r ∧
          length (metadata s1) = length (metadata s) ∧
          unvisited (metadata s1) = unvisited (metadata s)) as
    (Hs1 & Hr1 & Hv1 & Hl1 & Hu1).
  { subst s1 r1. destruct (falsy (cluster r)) eqn:Hf.
    - split; [apply rtc_once; by constructor|].
      split; [by apply put_lookup|]. split; [done|].
      split; [simpl; by rewrite length_insert|].
      simpl. by eapply unvisited_insert_same.
    - split; [constructor|]. done. }
  apply (done_wp _ _ _ tt s1).
  { subst s1. destruct (falsy (cluster r)); [by apply set_cluster_eq|done]. }
  destruct (visited r) eqn:Hvis; simpl.
  { apply wp_ret. split; [done|lia]. }
  (* the visit *)
  apply wp_bind.
  apply (done_wp _ _ _ tt (put ni (with_visited true r1) [EVisit ni] s1));
    [by apply set_visited_eq|].
  set (s2 := put ni (with_visited true r1) [EVisit ni] s1).
  assert (steps eps 1 s s2) as Hs2.
  { eapply rtc_r; [exact Hs1|]. by constructor. }
  assert (S (unvisited (metadata s2)) = unvisited (metadata s)) as Hu2.
  { rewrite <- Hu1. subst s2. simpl. apply unvisited_insert_visit; congruence. }
  assert (length (metadata s2) = length (metadata s)) as Hl2.
  { subst s2. simpl. by rewrite length_insert. }
  (* the query *)
  apply wp_bind. eapply wp_mono; [apply neighborhood_spec; lia|].
  intros ng s3 (-> & Hfr & Hst). specialize (Hst eq_refl). simpl.
  assert (steps eps 1 s s3) as Hs3.
  { etrans; [exact Hs2|]. eapply steps_level; [|exact Hst]. lia. }
  pose proof (row_frame_unvisited _ _ _ _ Hfr) as Hu3.
  destruct (_ <? _)%Z.
  - eapply wp_mono.
    + apply Hrec; [|lia]. destruct Hfr as (_ & Hl3 & _).
      apply union_Forall.
      * rewrite Hl3, Hl2. done.
      * rewrite Hl3. apply neighborhood_in_range.
    + intros _ s4 [Hs4 Hu4]. split; [by etrans|lia].
  - apply wp_ret. split; [done|lia].
Qed.

Lemma expandCluster_fuel_spec eps minPts cl pt i fuel : ∀ neigh s,
  Forall (λ j, j < length (metadata s)) neigh →
  unvisited (metadata s) < fuel →
  wp (expandCluster_fuel fuel cl pt i neigh minPts eps)
     (λ _ s', steps eps 1 s s' ∧
              unvisited (metadata s') ≤ unvisited (metadata s)) s.
Proof.
  induction fuel as [|fuel IH]; intros neigh s Hneigh Hfuel; [lia|].
  simpl. apply wp_bind, wp_emit.
  set (s0 := State _ _ _).
  assert (steps eps 1 s s0) as Hs0 by (apply rtc_once; by constructor).
  eapply wp_mono.
  { apply (wp_each (λ _ _ s', steps eps 1 s s' ∧
                              unvisited (metadata s') ≤ unvisited (metadata s))).
    { done. }
    intros j ni [] s1 Hj [Hs1 Hu1].
    pose proof (steps_length _ _ _ _ Hs1) as Hl1.
    eapply wp_mono.
    - apply expand_step_wp.
      + rewrite Hl1. by eapply (Forall_lookup_1 _ _ _ _ Hneigh).
      + by rewrite Hl1.
      + intros neigh' s' Hn' Hu'. apply IH; [done|lia].
    - intros _ s2 [Hs2 Hu2]. split; [by etrans|lia]. }
  done.
Qed.

(** The budget that [expandCluster] hands out is never used up. *)
Lemma expandCluster_spec eps minPts cl pt i neigh s :
  Forall (λ j, j < length (metadata s)) neigh →
  wp (expandCluster cl pt i neigh minPts eps)
     (λ _ s', steps eps 1 s s') s.
Proof.
  intros Hneigh. unfold expandCluster. eapply wp_mono.
  - apply expandCluster_fuel_spec; [done|].
    pose proof (unvisited_le (metadata s)). lia.
  - by intros _ s' [? _].
Qed.

Lemma refines_refl {A} (m : M A) : refines m m.
Proof. by intros s a s'. Qed.

Lemma bind_refines {A B} (m m' : M A) (k k' : A → M B) :
  refines m m' → (∀ a, refines (k a) (k' a)) →
  refines (bind m k) (bind m' k').
Proof.
  intros Hm Hk s b s'. unfold bind.
  destruct (m s) as [a s1| |] eqn:Hms; try done.
  rewrite (Hm s a s1 Hms). apply Hk.
Qed.

Lemma each_from_refines {A B} (l : list A) (f f' : A → nat → B → M B) :
  (∀ x k b, refines (f x k b) (f' x k b)) →
  ∀ k b, refines (each_from l k f b) (each_from l k f' b).
Proof.
  intros Hf. induction l as [|x l IH]; intros k b; simpl.
  - apply refines_refl.
  - apply bind_refines; [apply Hf|]. intros b'. apply IH.
Qed.

Lemma expand_step_refines recurse recurse' cl neigh minPts eps ni :
  (∀ neigh', refines (recurse neigh') (recurse' neigh')) →
  refines (expand_step recurse cl neigh minPts eps ni)
          (expand_step recurse' cl neigh minPts eps ni).
Proof.
  intros Hrec. unfold expand_step.
  apply bind_refines; [apply refines_refl|]. intros npt.
  apply bind_refines; [apply refines_refl|]. intros _.
  destruct (negb (visited npt)); [|apply refines_refl].
  apply bind_refines; [apply refines_refl|]. intros _.
  apply bind_refines; [apply refines_refl|]. intros nptNeigh.
  destruct (_ <? _)%Z; [apply Hrec|apply refines_refl].
Qed.

(** A result of the expansion does not depend on the budget. *)
Lemma expandCluster_fuel_mono cl pt i minPts eps fuel fuel' :
  fuel ≤ fuel' →
  ∀ neigh, refines (expandCluster_fuel fuel cl pt i neigh minPts eps)
                   (expandCluster_fuel fuel' cl pt i neigh minPts eps).
Proof.
  revert fuel'. induction fuel as [|fuel IH]; intros fuel' Hle neigh.
  { by intros s a s'. }
  destruct fuel' as [|fuel']; [lia|]. simpl.
  apply bind_refines; [apply refines_refl|]. intros _.
  apply each_from_refines. intros ni _ _.
  apply expand_step_refines. intros neigh'. apply IH. lia.
Qed.

(** ** The scan *)

Lemma scan_step_unfold eps minPoints pt i r s :
  metadata s !! pt = Some r →
  scan_step eps minPoints pt i s =
  match neighborhood pt i eps (entered pt i r s) with
  | Done neigh s2 =>
      if (Z.of_nat (length neigh) <? minPoints)%Z
      then set_cluster pt Noise s2
      else expandCluster (S (cluster_var s2)) pt i neigh minPoints eps
                         (bumped s2)
  | Throw => Throw
  | Diverge => Diverge
  end.
Proof.
  intros Hr. unfold scan_step, bind at 1, deref. rewrite Hr.
  unfold bind at 1, emit. unfold bind at 1.
  erewrite set_visited_eq by exact Hr.
  unfold bind at 1. change (put _ _ _ _) with (entered pt i r s).
  destruct (neighborhood _ _ _ _) as [neigh s2| |]; try done.
  by destruct (_ <? _)%Z.
Qed.

Lemma entered_step eps pt i r s :
  metadata s !! pt = Some r → steps eps 2 s (entered pt i r s).
Proof.
  intros Hr. eapply rtc_l; [by apply (step_scan eps 2 s pt i r)|].
  apply rtc_once.
  exact (step_visit eps 2
           (State (metadata s) (cluster_var s)
                  (EScan pt i (visited r) :: trace s)) pt r
           (le_S _ _ (le_n 1)) Hr).
Qed.

(** What a round of the scan does for the point at position [i]. *)
Lemma scan_step_spec eps minPoints i r s :
  metadata s !! i = Some r →
  ∃ neigh s2 r2,
    neighborhood i i eps (entered i i r s) = Done neigh s2 ∧
    neigh = List.filter (keeps (metadata (entered i i r s)) i i eps)
                        (seq 0 (length (metadata s))) ∧
    row_frame i i (entered i i r s) s2 ∧
    steps eps 0 (entered i i r s) s2 ∧
    metadata s2 !! i = Some r2 ∧
    (((Z.of_nat (length neigh) < minPoints)%Z ∧
      scan_step eps minPoints i i s =
      Done tt (put i (with_cluster Noise r2) [ELabel i (cluster r2) Noise] s2))
     ∨
     ((minPoints ≤ Z.of_nat (length neigh))%Z ∧
      ∃ s', scan_step eps minPoints i i s = Done tt s' ∧
            expandCluster (S (cluster_var s2)) i i neigh minPoints eps
                          (bumped s2) = Done tt s' ∧
            steps eps 1 (bumped s2) s')).
Proof.
  intros Hr. pose proof (lookup_lt_Some _ _ _ Hr) as Hi.
  assert (length (metadata (entered i i r s)) = length (metadata s)) as Hle.
  { simpl. by rewrite length_insert. }
  destruct (wp_done _ _ _
    (neighborhood_spec i i eps (entered i i r s) ltac:(lia)))
    as (neigh & s2 & Hnb & Hng & Hfr & Hst).
  specialize (Hst eq_refl).
  pose proof Hfr as (_ & Hl2 & Hall).
  assert (Forall (λ j, j < length (metadata (bumped s2))) neigh) as Hrange.
  { simpl. rewrite Hl2, Hng. apply neighborhood_in_range. }
  rewrite Hle in Hng.
  destruct (Hall i (with_visited true r)) as (r2 & Hr2 & _).
  { by apply put_lookup. }
  exists neigh, s2, r2. do 5 (split; [done|]).
  rewrite (scan_step_unfold _ _ _ _ r), Hnb by done.
  destruct (Z.ltb_spec (Z.of_nat (length neigh)) minPoints) as [Hlt|Hge].
  - left. split; [done|]. by apply set_cluster_eq.
  - right. split; [done|].
    destruct (wp_done _ _ _
      (expandCluster_spec eps minPoints (S (cluster_var s2)) i i neigh
         (bumped s2) Hrange))
      as ([] & s' & Hex & Hs').
    eauto.
Qed.

Lemma scan_step_steps eps minPoints i s :
  i < length (metadata s) →
  wp (scan_step eps minPoints i i) (λ _ s', steps eps 2 s s') s.
Proof.
  intros Hi. destruct (lookup_lt_is_Some_2 _ _ Hi) as [r Hr].
  destruct (scan_step_spec eps minPoints i r s Hr)
    as (neigh & s2 & r2 & _ & _ & _ & Hst & Hr2 & Hcase).
  assert (steps eps 2 s s2) as Hs2.
  { etrans; [by apply entered_step|]. eapply steps_level; [|exact Hst]. lia. }
  destruct Hcase as [[_ Heq]|(_ & s' & Heq & _ & Hs')];
    eapply done_wp; try exact Heq.
  - eapply rtc_r; [exact Hs2|]. by constructor.
  - etrans; [exact Hs2|]. eapply rtc_l; [by apply (step_next eps 2 s2)|].
    eapply steps_level; [|exact Hs']. lia.
Qed.

Lemma where_unvisited_init data :
  where_unvisited (init data) = Done (seq 0 (length data)) (init data).
Proof.
  unfold where_unvisited. f_equal. simpl. rewrite length_map.
  apply forallb_filter_id, forallb_forall. intros p Hp.
  apply in_seq in Hp. rewrite list_lookup_fmap.
  destruct (lookup_lt_is_Some_2 data p ltac:(lia)) as [o ->]. done.
Qed.

(** [run] returns on every input, and its course is a sequence of steps
    from the initial table. *)
Lemma run_steps data eps minPoints :
  ∃ s, run data eps minPoints = Done (metadata s) s ∧
       steps eps 2 (init data) s.
Proof.
  unfold run, scan, bind at 1. rewrite where_unvisited_init.
  assert (wp (each (seq 0 (length data))
                (λ pt i _, scan_step eps minPoints pt i) tt)
             (λ _ s, steps eps 2 (init data) s) (init data)) as Hwp.
  { eapply wp_mono.
    - apply (wp_each (λ _ _ s, steps eps 2 (init data) s)); [constructor|].
      intros j x [] s Hj Hs. apply lookup_seq_0 in Hj as [-> Hj].
      eapply wp_mono.
      + apply scan_step_steps. rewrite (steps_length _ _ _ _ Hs). simpl.
        by rewrite length_map.
      + intros ? s' Hs'. simpl in Hs'. by etrans.
    - done. }
  apply wp_done in Hwp as ([] & s & Heq & Hs).
  exists s. unfold bind. by rewrite Heq.
Qed.

(** ** The distance between objects of one shape *)

Lemma Qlt_bool_iff a b : Qlt_bool a b = true ↔ (a < b)%Q.
Proof.
  unfold Qlt_bool. rewrite negb_true_iff, <- not_true_iff_false, Qle_bool_iff.
  split; [apply Qnot_le_lt|apply Qlt_not_le].
Qed.

Lemma Qlt_bool_comp a a' b b' :
  (a == a')%Q → (b == b')%Q → Qlt_bool a b = Qlt_bool a' b'.
Proof. intros Ha Hb. unfold Qlt_bool. by rewrite Ha, Hb. Qed.

Lemma prop_elem {V} k (o : list (string * V)) :
  k ∈ keys o → is_Some (prop k o).
Proof.
  induction o as [|[k' v] o IH]; simpl.
  - by intros ?%elem_of_nil.
  - intros [->|Hin]%elem_of_cons; case_decide; try done; eauto.
Qed.

Lemma prop_NoDup {V} k (v : V) o :
  NoDup (keys o) → (k, v) ∈ o → prop k o = Some v.
Proof.
  induction o as [|[k' v'] o IH]; simpl.
  - by intros _ ?%elem_of_nil.
  - intros [Hk' Hnd]%NoDup_cons [[= -> ->]|Hin]%elem_of_cons.
    + by rewrite decide_True.
    + rewrite decide_False; [by apply IH|].
      intros ->. apply Hk'. apply list_elem_of_fmap. by exists (k, v).
Qed.

Lemma prop_None {V} k (o : list (string * V)) :
  prop k o = None ↔ k ∉ keys o.
Proof.
  induction o as [|[k' v] o IH]; simpl.
  - split; [intros _; apply not_elem_of_nil|done].
  - rewrite not_elem_of_cons. case_decide as Hk.
    + split; [done|]. intros [? _]. congruence.
    + rewrite IH. split; [intros ?; split; [congruence|done]|by intros [_ ?]].
Qed.

Lemma elements_plain o : plain o → elements o = walk None o.
Proof. unfold elements, plain. by intros ->. Qed.

Lemma same_shape_plain a b : same_shape a b → plain b.
Proof.
  intros (Hk & _ & Ha). apply prop_None. rewrite <- Hk. by apply prop_None.
Qed.

Lemma same_shape_sym a b : same_shape a b → same_shape b a.
Proof.
  intros H. pose proof (same_shape_plain a b H) as Hb.
  destruct H as (Hk & Hnd & _). split; [done|]. split; [|done].
  by rewrite <- Hk.
Qed.

Lemma fold_distance_some b (a : object) q0 :
  (∀ k, k ∈ keys a → is_Some (prop k b)) →
  ∃ q, fold_left (distance_step b) (walk None a) (Some q0) = Some q ∧
       (q == q0 + Qsum (map (λ kv, (get b kv.1 - kv.2) * (get b kv.1 - kv.2)) a))%Q.
Proof.
  revert q0. induction a as [|[k v] a IH]; intros q0 Hk; simpl.
  - exists q0. split; [done|]. unfold Qsum. simpl. ring.
  - destruct (Hk k) as [w Hw]; [by left|].
    rewrite Hw. fold (walk None a).
    destruct (IH (q0 + (w - v) * (w - v))%Q) as (q & Hq & Heq).
    { intros k' Hk'. apply Hk. by right. }
    exists q. split; [done|].
    assert (get b k = w) as -> by (unfold get; by rewrite Hw).
    rewrite Heq. unfold Qsum. simpl. ring.
Qed.

Lemma Qsum_ext {A} (f g : A → Q) l :
  (∀ x, x ∈ l → (f x == g x)%Q) → (Qsum (map f l) == Qsum (map g l))%Q.
Proof.
  unfold Qsum. induction l as [|x l IH]; intros Hfg; simpl; [reflexivity|].
  rewrite (Hfg x) by left. rewrite IH; [reflexivity|].
  intros y Hy. apply Hfg. by right.
Qed.

(** The sum that [distance] accumulates over the keys of [a], an object
    that is walked by its keys. *)
Lemma distance_sum a b :
  plain a → NoDup (keys a) →
  (∀ k, k ∈ keys a → is_Some (prop k b)) →
  ∃ q, distance a b = Sqrt q ∧
       (q == Qsum (map (λ k, (get b k - get a k) * (get b k - get a k))
                       (keys a)))%Q.
Proof.
  intros Hpl Hnd Hk.
  destruct (fold_distance_some b a 0%Q Hk) as (q & Hq & Heq).
  exists q. unfold distance. rewrite (elements_plain a Hpl), Hq.
  split; [done|]. rewrite Heq.
  rewrite Qplus_0_l. unfold keys. rewrite map_map. apply Qsum_ext.
  intros [k v] Hkv. simpl.
  assert (get a k = v) as -> by (unfold get; by rewrite (prop_NoDup k v a)).
  reflexivity.
Qed.

Lemma same_shape_sums a b :
  same_shape a b →
  ∃ q1 q2, distance a b = Sqrt q1 ∧ distance b a = Sqrt q2 ∧ (q1 == q2)%Q.
Proof.
  intros Hab. pose proof (same_shape_sym a b Hab) as Hba.
  destruct Hab as (Hk & Ha & Hpa). destruct Hba as (_ & Hb & Hpb).
  destruct (distance_sum a b Hpa Ha) as (q1 & H1 & E1).
  { intros k Hin. apply prop_elem. by rewrite <- Hk. }
  destruct (distance_sum b a Hpb Hb) as (q2 & H2 & E2).
  { intros k Hin. apply prop_elem. by rewrite Hk. }
  exists q1, q2. do 2 (split; [done|]). rewrite E1, E2, Hk.
  apply Qsum_ext. intros k _. ring.
Qed.

Lemma lt_eps_sym a b eps :
  same_shape a b → lt_eps (distance a b) eps = lt_eps (distance b a) eps.
Proof.
  intros (q1 & q2 & -> & -> & Hq)%same_shape_sums.
  simpl. f_equal. by apply Qlt_bool_comp.
Qed.

Lemma lt_eps_self a eps :
  same_shape a a → (0 < eps)%Q → lt_eps (distance a a) eps = true.
Proof.
  intros (_ & Ha & Hpa) Heps.
  destruct (distance_sum a a Hpa Ha) as (q & -> & Hq).
  { intros k Hk. by apply prop_elem. }
  simpl. apply andb_true_intro. split; apply Qlt_bool_iff; [done|].
  assert (q == 0)%Q as ->.
  { rewrite Hq. clear. unfold Qsum.
    induction (keys a) as [|k l IH]; simpl; [reflexivity|].
    rewrite IH. ring. }
  apply Qmult_lt_0_compat; done.
Qed.

(** A larger threshold keeps every neighbor. *)
Lemma lt_eps_mono d eps1 eps2 :
  (eps1 <= eps2)%Q → lt_eps d eps1 = true → lt_eps d eps2 = true.
Proof.
  destruct d as [q|]; simpl; [|done].
  intros Hle [H0 Hq]%andb_prop. apply Qlt_bool_iff in H0, Hq.
  apply andb_true_intro.
  assert (0 < eps2)%Q as H2 by (eapply Qlt_le_trans; eauto).
  split; apply Qlt_bool_iff; [done|].
  eapply Qlt_le_trans; [exact Hq|].
  apply Qle_trans with (eps1 * eps2)%Q.
  - apply Qmult_le_l; done.
  - apply Qmult_le_r; done.
Qed.

(** ** What the neighbor query returns *)

Lemma keeps_within md i eps :
  (∀ t rt b, md !! t = Some rt → neighbors rt !! i = Some b →
             b = (t =? i) || near md eps i t) →
  i < length md →
  List.filter (keeps md i i eps) (seq 0 (length md)) = within md eps i.
Proof.
  intros Hcache Hi. apply List.filter_ext_in. intros t Ht.
  apply in_seq in Ht.
  destruct (lookup_lt_is_Some_2 md t ltac:(lia)) as [rt Hrt].
  destruct (lookup_lt_is_Some_2 md i Hi) as [ri Hri].
  unfold keeps. rewrite Hrt, Hri.
  destruct (neighbors rt !! i) as [b|] eqn:Hb.
  - by eapply Hcache.
  - unfold near. by rewrite Hri, Hrt.
Qed.

Lemma StronglySorted_filter {A} (R : relation A) (f : A → bool) l :
  StronglySorted R l → StronglySorted R (List.filter f l).
Proof.
  induction 1 as [|x l Hl IH Hx]; simpl; [constructor|].
  destruct (f x); [|done]. constructor; [done|]. by apply filter_Forall.
Qed.

Lemma StronglySorted_seq k n : StronglySorted lt (seq k n).
Proof.
  revert k. induction n as [|n IH]; intros k; simpl; constructor; [done|].
  apply Forall_forall. intros x Hx%list_elem_of_In%in_seq. lia.
Qed.

Lemma within_elem md eps i j :
  j ∈ within md eps i ↔ j < length md ∧ (j = i ∨ near md eps i j = true).
Proof.
  unfold within. rewrite list_elem_of_In, List.filter_In, in_seq.
  rewrite orb_true_iff, Nat.eqb_eq. intuition lia.
Qed.

(** C10: a neighbor query for a point of the table returns, and it leaves
    the visited flag, the cluster label and the datum of every point as
    they were, as well as the neighbor cache of every point other than the
    target. *)
Theorem neighborhood_writes_own_cache (s : state) (pt i : nat) (eps : Q) :
  pt < length (metadata s) →
  ∃ neigh s', neighborhood pt i eps s = Done neigh s' ∧ untouched pt s s'.
Proof.
  intros Hpt.
  destruct (wp_done _ _ _ (neighborhood_spec pt i eps s Hpt))
    as (neigh & s' & Heq & _ & (_ & Hlen & Hall) & _).
  exists neigh, s'. split; [done|]. split; [done|].
  intros p r Hp. destruct (Hall p r Hp) as (r' & ? & ? & ? & ? & ? & _).
  eauto 10.
Qed.

Lemma neighborhood_writes_own_cache_witness :
  0 < length (metadata (init line3)) ∧
  ∃ neigh s', neighborhood 0 0 (3 # 2) (init line3) = Done neigh s' ∧
              untouched 0 (init line3) s'.
Proof.
  split; [simpl; lia|].
  apply (neighborhood_writes_own_cache (init line3) 0 0 (3 # 2)).
  simpl; lia.
Defined.

(** X26: on a table whose objects have one shape (the same keys in the
    same order, none of them [length]) and whose cached entries agree with
    the strict test against a positive [eps], the query for a point returns
    the positions whose distance to the point is less than [eps] and the
    position of the point itself, each once, in ascending order. *)
Theorem neighborhood_exact (s : state) (i : nat) (ri : point) (eps : Q) :
  metadata s !! i = Some ri →
  (0 < eps)%Q →
  regular_table (metadata s) →
  cache_agrees eps (metadata s) →
  ∃ neigh s',
    neighborhood i i eps s = Done neigh s' ∧
    (∀ j, j ∈ neigh ↔
          ∃ rj, metadata s !! j = Some rj ∧
                (j = i ∨ lt_eps (distance (obj ri) (obj rj)) eps = true)) ∧
    NoDup neigh ∧
    StronglySorted lt neigh.
Proof.
  intros Hri Heps Hdims Hcache.
  pose proof (lookup_lt_Some _ _ _ Hri) as Hi.
  destruct (wp_done _ _ _ (neighborhood_spec i i eps s Hi))
    as (neigh & s' & Heq & Hneigh & _).
  exists neigh, s'. split; [done|]. rewrite Hneigh. clear Heq Hneigh.
  rewrite keeps_within; [|
    intros t rt b Hrt Hb; unfold near; rewrite Hri, Hrt;
    rewrite (Hcache t i rt ri b Hrt Hri Hb);
    rewrite (lt_eps_sym _ _ eps (Hdims t i rt ri Hrt Hri));
    destruct (Nat.eqb_spec t i) as [->|]; [|done];
    assert (rt = ri) as -> by congruence;
    apply lt_eps_self; [apply (Hdims i i ri ri Hri Hri)|done] | done].
  split; [|split].
  - intros j. rewrite within_elem. unfold near. rewrite Hri. split.
    + intros [Hj Hor].
      destruct (lookup_lt_is_Some_2 _ _ Hj) as [rj Hrj].
      exists rj. by rewrite Hrj in Hor.
    + intros (rj & Hrj & Hor). rewrite Hrj.
      split; [by eapply lookup_lt_Some|done].
  - apply NoDup_ListNoDup. unfold within.
    apply List.NoDup_filter, NoDup_ListNoDup, NoDup_seq.
  - apply StronglySorted_filter, StronglySorted_seq.
Qed.

Lemma regular_table_line3 : regular_table (metadata (init line3)).
Proof.
  intros p q rp rq Hp Hq.
  assert (∀ p r, metadata (init line3) !! p = Some r →
                 ∃ x, obj r = pt1 x) as Hobj.
  { intros [|[|[|n]]] r; simpl; intros [= <-]; eauto. }
  destruct (Hobj p rp Hp) as [x ->]. destruct (Hobj q rq Hq) as [y ->].
  split; [done|]. split; [apply NoDup_singleton|done].
Qed.

Lemma cache_agrees_init eps data : cache_agrees eps (metadata (init data)).
Proof.
  intros p t rp rt b Hp _ Hb. simpl in Hp. rewrite list_lookup_fmap in Hp.
  destruct (data !! p); simplify_eq/=.
Qed.

Lemma neighborhood_exact_witness :
  ∃ neigh s',
    neighborhood 1 1 (3 # 2) (init line3) = Done neigh s' ∧
    (∀ j, j ∈ neigh ↔
          ∃ rj, metadata (init line3) !! j = Some rj ∧
                (j = 1 ∨ lt_eps (distance (obj (fresh (pt1 1))) (obj rj))
                                (3 # 2) = true)) ∧
    NoDup neigh ∧
    StronglySorted lt neigh.
Proof.
  apply (neighborhood_exact (init line3) 1 (fresh (pt1 1)) (3 # 2)).
  - reflexivity.
  - reflexivity.
  - apply regular_table_line3.
  - apply cache_agrees_init.
Defined.

(** ** The two density tests *)

Lemma claimed_lookup cl ni r s :
  metadata s !! ni = Some r →
  metadata (claimed cl ni r s) !! ni = Some (stamped cl r).
Proof.
  intros Hr. unfold claimed, stamped. destruct (falsy (cluster r)); [|done].
  apply put_lookup. by eapply lookup_lt_Some.
Qed.

Lemma expand_step_unfold recurse cl neigh minPts eps ni r s :
  metadata s !! ni = Some r →
  expand_step recurse cl neigh minPts eps ni s =
  if visited r then Done tt (claimed cl ni r s)
  else match neighborhood ni ni eps (reached cl ni r s) with
       | Done nptNeigh s2 =>
           if (minPts <? Z.of_nat (length nptNeigh))%Z
           then recurse (union neigh nptNeigh) s2
           else Done tt s2
       | Throw => Throw
       | Diverge => Diverge
       end.
Proof.
  intros Hr. unfold expand_step, bind at 1, deref. rewrite Hr.
  unfold bind at 1.
  assert ((if falsy (cluster r) then set_cluster ni (Cluster cl) else ret tt) s
          = Done tt (claimed cl ni r s)) as ->.
  { unfold claimed. destruct (falsy (cluster r)); [|done].
    by apply set_cluster_eq. }
  destruct (visited r); simpl; [done|].
  unfold bind at 1.
  rewrite (set_visited_eq ni (stamped cl r)) by by apply claimed_lookup.
  fold (reached cl ni r s). unfold bind.
  destruct (neighborhood _ _ _ _) as [nptNeigh s2| |]; try done.
  by destruct (_ <? _)%Z.
Qed.

(** C7: the scan starts a cluster at a point exactly when the size of its
    neighborhood is at least [minPts], and labels it noise otherwise; the
    expansion goes on through a neighbor that it visits exactly when the
    size of that neighbor's neighborhood is greater than [minPts]. *)
Theorem thresholds_differ_by_one (eps : Q) (minPts : Z)
    (s : state) (i : nat) (r : point)
    (recurse : list nat → M unit) (cl : nat) (frontier : list nat)
    (t : state) (ni : nat) (npt : point) :
  metadata s !! i = Some r →
  metadata t !! ni = Some npt →
  visited npt = false →
  (∃ neigh s2 r2,
     neighborhood i i eps (entered i i r s) = Done neigh s2 ∧
     metadata s2 !! i = Some r2 ∧
     ((minPts ≤ Z.of_nat (length neigh))%Z →
      scan_step eps minPts i i s =
      expandCluster (S (cluster_var s)) i i neigh minPts eps (bumped s2)) ∧
     ((Z.of_nat (length neigh) < minPts)%Z →
      scan_step eps minPts i i s =
      Done tt (put i (with_cluster Noise r2) [ELabel i (cluster r2) Noise] s2)))
  ∧
  (∃ nptNeigh t2,
     neighborhood ni ni eps (reached cl ni npt t) = Done nptNeigh t2 ∧
     ((minPts < Z.of_nat (length nptNeigh))%Z →
      expand_step recurse cl frontier minPts eps ni t =
      recurse (union frontier nptNeigh) t2) ∧
     ((Z.of_nat (length nptNeigh) ≤ minPts)%Z →
      expand_step recurse cl frontier minPts eps ni t = Done tt t2)).
Proof.
  intros Hr Hnpt Hvis. split.
  - destruct (scan_step_spec eps minPts i r s Hr)
      as (neigh & s2 & r2 & Hnb & _ & (Hcv & _) & _ & Hr2 & _).
    exists neigh, s2, r2. do 2 (split; [done|]).
    rewrite (scan_step_unfold _ _ _ _ r), Hnb by done.
    simpl in Hcv. rewrite <- Hcv.
    split; intros Hcmp.
    + by rewrite (proj2 (Z.ltb_ge _ _) Hcmp).
    + rewrite (proj2 (Z.ltb_lt _ _) Hcmp). by apply set_cluster_eq.
  - pose proof (lookup_lt_Some _ _ _ Hnpt) as Hni.
    assert (ni < length (metadata (reached cl ni npt t))) as Hni'.
    { unfold reached, claimed. destruct (falsy _); simpl;
        by rewrite ?length_insert. }
    destruct (wp_done _ _ _
      (neighborhood_spec ni ni eps (reached cl ni npt t) Hni'))
      as (nptNeigh & t2 & Hnb & _).
    exists nptNeigh, t2. split; [done|].
    rewrite (expand_step_unfold _ _ _ _ _ _ npt), Hvis, Hnb by done.
    split; intros Hcmp.
    + by rewrite (proj2 (Z.ltb_lt _ _) Hcmp).
    + by rewrite (proj2 (Z.ltb_ge _ _) Hcmp).
Qed.

Lemma thresholds_differ_by_one_witness :
  (metadata (init line3) !! 1 = Some (fresh (pt1 1)) ∧
   visited (fresh (pt1 1)) = false) ∧
  (∃ neigh s2 r2,
     neighborhood 1 1 (3 # 2) (entered 1 1 (fresh (pt1 1)) (init line3)) =
     Done neigh s2 ∧
     metadata s2 !! 1 = Some r2 ∧
     ((2 ≤ Z.of_nat (length neigh))%Z →
      scan_step (3 # 2) 2 1 1 (init line3) =
      expandCluster (S (cluster_var (init line3))) 1 1 neigh 2 (3 # 2)
                    (bumped s2)) ∧
     ((Z.of_nat (length neigh) < 2)%Z →
      scan_step (3 # 2) 2 1 1 (init line3) =
      Done tt (put 1 (with_cluster Noise r2) [ELabel 1 (cluster r2) Noise] s2)))
  ∧
  (∃ nptNeigh t2,
     neighborhood 1 1 (3 # 2) (reached 1 1 (fresh (pt1 1)) (init line3)) =
     Done nptNeigh t2 ∧
     ((2 < Z.of_nat (length nptNeigh))%Z →
      expand_step (λ _, ret tt) 1 [0; 1] 2 (3 # 2) 1 (init line3) =
      ret tt t2) ∧
     ((Z.of_nat (length nptNeigh) ≤ 2)%Z →
      expand_step (λ _, ret tt) 1 [0; 1] 2 (3 # 2) 1 (init line3) =
      Done tt t2)).
Proof.
  split; [split; reflexivity|].
  apply (thresholds_differ_by_one (3 # 2) 2 (init line3) 1 (fresh (pt1 1))
           (λ _, ret tt) 1 [0; 1] (init line3) 1 (fresh (pt1 1)));
    reflexivity.
Defined.

(** ** Reading a trace *)

Lemma put_lookup_ne p q r es s :
  q ≠ p → metadata (put p r es s) !! q = metadata s !! q.
Proof. intros H. simpl. by apply list_lookup_insert_ne. Qed.

Lemma map_obj_insert md p r r' :
  md !! p = Some r → obj r' = obj r → map obj (<[p := r']> md) = map obj md.
Proof.
  intros Hp Ho. change (obj <$> <[p := r']> md = obj <$> md).
  rewrite list_fmap_insert, Ho. apply list_insert_id.
  by rewrite list_lookup_fmap, Hp.
Qed.

Lemma traced_init data eps : traced data eps (init data).
Proof.
  split; [|done]. split.
  - simpl. rewrite map_map. simpl. apply map_id.
  - simpl. intros p r Hp. rewrite list_lookup_fmap in Hp.
    destruct (data !! p); simplify_eq/=. done.
Qed.

Lemma traced_step data eps lv s s' :
  step eps lv s s' → traced data eps s → traced data eps s'.
Proof.
  intros Hstep ((Hobj & Htell) & Hlab & Hcache).
  destruct Hstep as [lv s p t rp rt Hp Ht Hne Hnone b|lv s p r _ Hp
    |lv s p r cl _ Hp Hf|lv s cl neigh _|lv s pt i r _ Hp|lv s p r _ Hp|lv s _].
  - (* a distance is computed and cached *)
    pose proof (lookup_lt_Some _ _ _ Hp) as Hlt.
    split; [split|split].
    + simpl. by rewrite (map_obj_insert _ _ rp).
    + intros q r Hq. destruct (decide (q = p)) as [->|Hqp].
      * rewrite put_lookup in Hq by done. simplify_eq/=.
        destruct (Htell p rp Hp) as [Hc Hn]. split; [done|].
        intros u. case_decide as Hd.
        -- destruct Hd as [_ ->]. by rewrite lookup_insert_eq.
        -- rewrite lookup_insert_ne by (intros ->; by apply Hd). apply Hn.
      * rewrite put_lookup_ne in Hq by done.
        destruct (Htell q r Hq) as [Hc Hn]. split; [done|].
        intros u. simpl. rewrite decide_False by (intros [? _]; congruence).
        apply Hn.
    + done.
    + simpl. repeat split; try done.
      * subst b. unfold test.
        assert (data !! p = Some (obj rp)) as ->.
        { by rewrite <- Hobj, (list_lookup_fmap obj), Hp. }
        assert (data !! t = Some (obj rt)) as ->.
        { by rewrite <- Hobj, (list_lookup_fmap obj), Ht. }
        done.
      * destruct (Htell t rt Ht) as [_ Hn]. by rewrite <- Hn.
  - (* a flag is set *)
    pose proof (lookup_lt_Some _ _ _ Hp) as Hlt.
    split; [split|done].
    + simpl. by rewrite (map_obj_insert _ _ r).
    + intros q r' Hq. destruct (decide (q = p)) as [->|Hqp].
      * rewrite put_lookup in Hq by done. simplify_eq/=. by apply Htell.
      * rewrite put_lookup_ne in Hq by done. by apply Htell.
  - (* a cluster identifier is written over a falsy label *)
    pose proof (lookup_lt_Some _ _ _ Hp) as Hlt.
    destruct (Htell p r Hp) as [Hc Hn].
    split; [split|split].
    + simpl. by rewrite (map_obj_insert _ _ r).
    + intros q r' Hq. simpl. destruct (decide (q = p)) as [->|Hqp].
      * rewrite put_lookup in Hq by done. simplify_eq/=.
        by rewrite decide_True.
      * rewrite put_lookup_ne in Hq by done.
        rewrite decide_False by done. by apply Htell.
    + simpl. repeat split; try done. intros Hnoise.
      rewrite Hnoise in Hf. done.
    + done.
  - (* a call of the expansion is recorded *)
    done.
  - (* the entry of the scan is recorded *)
    done.
  - (* the noise label is written *)
    pose proof (lookup_lt_Some _ _ _ Hp) as Hlt.
    destruct (Htell p r Hp) as [Hc Hn].
    split; [split|split].
    + simpl. by rewrite (map_obj_insert _ _ r).
    + intros q r' Hq. simpl. destruct (decide (q = p)) as [->|Hqp].
      * rewrite put_lookup in Hq by done. simplify_eq/=.
        by rewrite decide_True.
      * rewrite put_lookup_ne in Hq by done.
        rewrite decide_False by done. by apply Htell.
    + simpl. done.
    + done.
  - (* the counter is incremented *)
    done.
Qed.

Lemma run_traced data eps minPoints :
  ∃ s, run data eps minPoints = Done (metadata s) s ∧ traced data eps s.
Proof.
  destruct (run_steps data eps minPoints) as (s & Hrun & Hsteps).
  exists s. split; [done|].
  eapply (steps_invariant eps 2 (traced data eps)); [|exact Hsteps|].
  - intros s1 s2. apply traced_step.
  - apply traced_init.
Qed.

Lemma noise_kept later earlier p :
  well_labelled (later ++ earlier) →
  label_now earlier p = Noise → label_now (later ++ earlier) p = Noise.
Proof.
  intros Hwl Hnoise. induction later as [|e later IH]; [done|].
  destruct Hwl as [He Hwl]. specialize (IH Hwl).
  destruct e; simpl; try done.
  case_decide as Hq; [|done]. subst. destruct He as [-> He]. by apply He.
Qed.

Lemma well_labelled_suffix later earlier :
  well_labelled (later ++ earlier) → well_labelled earlier.
Proof. induction later as [|e later IH]; [done|]. intros [_ ?]. auto. Qed.

(** C8: every run returns, its trace tells the labels of the returned
    table, no write replaces the noise marker by anything else, and a
    point whose label is the noise marker at some moment of the run has
    that label at every later moment. *)
Theorem noise_is_final (data : list object) (eps : Q) (minPoints : Z) :
  ∃ s, run data eps minPoints = Done (metadata s) s ∧
       (∀ p r, metadata s !! p = Some r → cluster r = label_now (trace s) p) ∧
       (∀ later earlier p old new,
          trace s = later ++ ELabel p old new :: earlier →
          old = label_now earlier p ∧ (old = Noise → new = Noise)) ∧
       ∀ rest later earlier p,
         trace s = rest ++ later ++ earlier →
         label_now earlier p = Noise →
         label_now (later ++ earlier) p = Noise.
Proof.
  destruct (run_traced data eps minPoints)
    as (s & Hrun & (_ & Htell) & Hlab & _).
  exists s. split; [done|]. split; [|split].
  - intros p r Hp. by apply Htell.
  - intros later earlier p old new Htr. rewrite Htr in Hlab.
    apply well_labelled_suffix in Hlab. by destruct Hlab as [? _].
  - intros rest later earlier p Htr. apply noise_kept.
    rewrite Htr in Hlab. by eapply well_labelled_suffix.
Qed.

Lemma well_cached_split data eps n : ∀ later earlier p t,
  length later ≤ n →
  well_cached data eps (later ++ EDist p t :: earlier) →
  ∃ later', later = later' ++ [ECache p t (test data eps p t)] ∧
            p ≠ t ∧ cached_now earlier t p = None.
Proof.
  induction n as [|n IH]; intros later earlier p t Hlen Hwc.
  { destruct later; [done|simpl in Hlen; lia]. }
  destruct later as [|e later]; [done|].
  destruct e as [pt i b|q|q u|q u b|q old new|c|c neigh]; simpl in Hwc;
    [| |done| | | |];
    try (destruct (IH later earlier p t) as (later' & -> & ?);
         [simpl in Hlen; lia|done|];
         by match goal with
            | |- ∃ l, ?e :: _ = _ ∧ _ => exists (e :: later')
            end).
  destruct later as [|e later]; simpl in Hwc.
  - destruct Hwc as (-> & -> & ? & -> & ? & _). by exists [].
  - destruct e as [| |q' u'| | | |]; try done.
    destruct Hwc as (_ & _ & _ & _ & _ & Hwc).
    destruct (IH later earlier p t) as (later' & -> & ?);
      [simpl in Hlen; lia|done|].
    by exists (ECache q u b :: EDist q' u' :: later').
Qed.

(** C2, as the code has it: whenever a run computes the distance between
    a queried point [p] and a point [t], the cache of [t] has no entry for
    [p] at that moment, the next thing that happens is the write of the
    outcome of the strict test into the cache of [p], and the cache of [t]
    still has no entry for [p] after it. *)
Theorem distance_fills_own_cache (data : list object) (eps : Q)
    (minPoints : Z) :
  ∃ s, run data eps minPoints = Done (metadata s) s ∧
       (∀ p r t, metadata s !! p = Some r →
                 neighbors r !! t = cached_now (trace s) p t) ∧
       ∀ later earlier p t,
         trace s = later ++ EDist p t :: earlier →
         cached_now earlier t p = None ∧
         (∃ later', later = later' ++ [ECache p t (test data eps p t)]) ∧
         cached_now (ECache p t (test data eps p t) :: EDist p t :: earlier)
                    t p = None.
Proof.
  destruct (run_traced data eps minPoints)
    as (s & Hrun & (_ & Htell) & _ & Hcache).
  exists s. split; [done|]. split.
  - intros p r t Hp. by apply Htell.
  - intros later earlier p t Htr. rewrite Htr in Hcache.
    destruct (well_cached_split data eps (length later) later earlier p t)
      as (later' & -> & Hne & Hnone); [done|done|].
    split; [done|]. split; [by exists later'|].
    simpl. rewrite decide_False; [done|]. intros [? ?]. congruence.
Qed.

(** C2 fails as stated, on three points in a line with [eps = 1.5] and
    [minPoints = 2]: the distance between points 1 and 2 is computed
    twice, and the cache of point 2 never gets an entry for point 1. *)
Lemma pair_computed_twice :
  ∃ s, run line3 (3 # 2) 2 = Done (metadata s) s ∧
       count_occ event_eq_dec (trace s) (EDist 1 2) = 2 ∧
       ∃ r2, metadata s !! 2 = Some r2 ∧ neighbors r2 !! 1 = None.
Proof.
  destruct (run_steps line3 (3 # 2) 2) as (s & Hrun & _).
  exists s. split; [done|].
  vm_compute in Hrun. injection Hrun as _ <-.
  split; [by vm_compute|]. eexists. split; [reflexivity|]. by vm_compute.
Qed.

(** ** Runs on the sample inputs *)

(** C3 fails on the code: [_.where(metadata, {visited: false})] is
    evaluated once, before the loop, when no point is visited yet, so the
    scan enters its callback for every point.  On three points in a line
    with [eps = 1.5] and [minPoints = 2], points 1 and 2 are visited by the
    expansion from point 0 and are processed by the scan again. *)
Theorem scan_processes_visited_points :
  history (run line3 (3 # 2) 2) =
  Some [EScan 0 0 false; EVisit 0; EDist 0 1; ECache 0 1 true;
        EDist 0 2; ECache 0 2 false; ENewCluster 1;
        EExpand 1 [0; 1]; ELabel 0 Unassigned (Cluster 1);
        ELabel 1 Unassigned (Cluster 1); EVisit 1;
        EDist 1 2; ECache 1 2 true; EExpand 1 [0; 1; 2];
        ELabel 2 Unassigned (Cluster 1); EVisit 2;
        EScan 1 1 true; EVisit 1; EDist 1 2; ECache 1 2 true;
        ENewCluster 2; EExpand 2 [0; 1; 2];
        EScan 2 2 true; EVisit 2; ENewCluster 3; EExpand 3 [1; 2]].
Proof. by vm_compute. Qed.

(** C5 fails on the code: on two pairs of points far apart, with
    [eps = 1.5] and [minPoints = 2], the identifiers in use are 1 and 3;
    2 and 4 are allotted when the scan comes to the second point of each
    pair, which is labelled already. *)
Theorem cluster_identifiers_have_gaps :
  result_labels (run two_pairs (3 # 2) 2) =
  Some [Cluster 1; Cluster 1; Cluster 3; Cluster 3].
Proof. by vm_compute. Qed.

(** C6 fails on the code: on three points in a line with [eps = 1.5] and
    [minPoints = 3], point 2 is labelled 1 by the expansion from point 1,
    and the scan, when it comes to point 2, writes the noise marker over
    the 1. *)
Theorem cluster_label_overwritten_by_noise :
  history (run line3 (3 # 2) 3) =
  Some [EScan 0 0 false; EVisit 0; EDist 0 1; ECache 0 1 true;
        EDist 0 2; ECache 0 2 false; ELabel 0 Unassigned Noise;
        EScan 1 1 false; EVisit 1; EDist 1 2; ECache 1 2 true;
        ENewCluster 1; EExpand 1 [0; 1; 2];
        ELabel 1 Unassigned (Cluster 1); ELabel 2 Unassigned (Cluster 1);
        EVisit 2;
        EScan 2 2 true; EVisit 2; ELabel 2 (Cluster 1) Noise].
Proof. by vm_compute. Qed.

(** C1 fails on the code: on three points in a line with [eps = 1.5] and
    [minPts = 3], point 1 is a core point and points 0 and 2 are
    density-reachable from it; the expansion is called for it with
    cluster 1 and the frontier [0; 1; 2], and the run ends with points 0
    and 2 labelled noise. *)
Theorem reachable_points_left_as_noise :
  reachable (map fresh line3) (3 # 2) 3 1 0 ∧
  reachable (map fresh line3) (3 # 2) 3 1 2 ∧
  (∃ before after,
     history (run line3 (3 # 2) 3) =
     Some (before ++ EExpand 1 (within (map fresh line3) (3 # 2) 1) :: after)) ∧
  result_labels (run line3 (3 # 2) 3) = Some [Noise; Cluster 1; Noise].
Proof.
  assert (core (map fresh line3) (3 # 2) 3 1) as Hcore by (by vm_compute).
  split; [|split; [|split]].
  - apply (reach_next _ _ _ _ 1); [by constructor|done|].
    apply within_elem. split; [simpl; lia|right; by vm_compute].
  - apply (reach_next _ _ _ _ 1); [by constructor|done|].
    apply within_elem. split; [simpl; lia|right; by vm_compute].
  - exists [EScan 0 0 false; EVisit 0; EDist 0 1; ECache 0 1 true;
            EDist 0 2; ECache 0 2 false; ELabel 0 Unassigned Noise;
            EScan 1 1 false; EVisit 1; EDist 1 2; ECache 1 2 true;
            ENewCluster 1],
           [ELabel 1 Unassigned (Cluster 1); ELabel 2 Unassigned (Cluster 1);
            EVisit 2; EScan 2 2 true; EVisit 2; ELabel 2 (Cluster 1) Noise].
    by vm_compute.
  - by vm_compute.
Qed.

(** ** The noise labels of a run *)

Lemma well_cached_entry data eps n : ∀ tr p t b,
  length tr ≤ n →
  well_cached data eps tr →
  cached_now tr p t = Some b →
  p ≠ t ∧ b = test data eps p t.
Proof.
  induction n as [|n IH]; intros tr p t b Hlen Hwc Hb.
  { destruct tr; [done|simpl in Hlen; lia]. }
  destruct tr as [|e tr]; [done|].
  destruct e as [pt i w|q|q u|q u b0|q old new|c|c neigh]; simpl in Hwc, Hb;
    [| |done| | | |];
    try (apply (IH tr p t b); [simpl in Hlen; lia|done|done]).
  destruct tr as [|e tr]; [done|].
  destruct e as [| |q' u'| | | |]; try done.
  destruct Hwc as (_ & _ & Hne & Hb0 & _ & Hwc).
  case_decide as Hd.
  - destruct Hd as [-> ->]. by simplify_eq.
  - simpl in Hb. apply (IH tr p t b); [simpl in Hlen; lia|done|done].
Qed.

Lemma traced_entry data eps s p t rp b :
  traced data eps s →
  metadata s !! p = Some rp → neighbors rp !! t = Some b →
  p ≠ t ∧ b = test data eps p t.
Proof.
  intros ((_ & Htell) & _ & Hwc) Hp Hb.
  destruct (Htell p rp Hp) as [_ Hn]. rewrite Hn in Hb.
  by eapply well_cached_entry.
Qed.

Lemma near_test md eps i j : near md eps i j = test (map obj md) eps i j.
Proof.
  unfold near, test. change (map obj md) with (obj <$> md).
  rewrite !list_lookup_fmap. by destruct (md !! i), (md !! j).
Qed.

Lemma within_obj md md' eps i :
  map obj md = map obj md' → within md eps i = within md' eps i.
Proof.
  intros Hobj. unfold within.
  assert (length md = length md') as ->.
  { by rewrite <- (length_map obj md), Hobj, length_map. }
  apply List.filter_ext. intros j. by rewrite !near_test, Hobj.
Qed.

Lemma test_sym data eps i j :
  regular data → test data eps i j = test data eps j i.
Proof.
  intros Hwf. unfold test.
  destruct (data !! i) as [a|] eqn:Hi, (data !! j) as [b|] eqn:Hj; try done.
  apply lt_eps_sym, Hwf; by eapply list_elem_of_lookup_2.
Qed.

(** In a run on data of one shape, a query for the point at [i] returns the
    neighborhood of [i]. *)
Lemma traced_keeps data eps s i :
  regular data → traced data eps s → i < length (metadata s) →
  List.filter (keeps (metadata s) i i eps) (seq 0 (length (metadata s))) =
  within (map fresh data) eps i.
Proof.
  intros Hwf Htr Hi. pose proof Htr as ((Hobj & _) & _).
  rewrite keeps_within; [|
    intros t rt b Ht Hb;
    destruct (traced_entry data eps s t i rt b Htr Ht Hb) as [Hne ->];
    rewrite near_test, Hobj, (test_sym data eps i t Hwf);
    by rewrite (proj2 (Nat.eqb_neq t i) Hne) | done].
  apply within_obj. rewrite Hobj, map_map. simpl. by rewrite map_id.
Qed.

Lemma same_noise_refl s : same_noise s s.
Proof. intros p r Hp. eauto. Qed.

Lemma same_noise_trans s1 s2 s3 :
  same_noise s1 s2 → same_noise s2 s3 → same_noise s1 s3.
Proof.
  intros H12 H23 p r Hp. destruct (H12 p r Hp) as (r2 & Hp2 & Hi2).
  destruct (H23 p r2 Hp2) as (r3 & Hp3 & Hi3). exists r3. split; [done|].
  by rewrite Hi3.
Qed.

Lemma same_noise_put p r r' es s :
  metadata s !! p = Some r →
  (cluster r' = Noise ↔ cluster r = Noise) →
  same_noise s (put p r' es s).
Proof.
  intros Hp Hiff q rq Hq. destruct (decide (q = p)) as [->|Hne].
  - rewrite put_lookup by by eapply lookup_lt_Some. simplify_eq. eauto.
  - rewrite put_lookup_ne by done. eauto.
Qed.

(** The expansion and the queries neither give nor take a noise label. *)
Lemma step_same_noise eps lv s s' :
  lv ≤ 1 → step eps lv s s' → same_noise s s'.
Proof.
  intros Hle Hstep.
  destruct Hstep as [lv s p t rp rt Hp Ht Hne Hnone b|lv s p r _ Hp
    |lv s p r cl _ Hp Hf|lv s cl neigh _|lv s pt i r Hlv Hp|lv s p r Hlv Hp
    |lv s Hlv]; try lia.
  - by apply (same_noise_put p rp).
  - by apply (same_noise_put p r).
  - apply (same_noise_put p r); [done|]. simpl. split; [done|].
    intros Hnoise. by rewrite Hnoise in Hf.
  - intros q rq Hq. simpl. eauto.
Qed.

Lemma steps_same_noise eps s s' : steps eps 1 s s' → same_noise s s'.
Proof.
  intros Hs. induction Hs as [|s1 s2 s3 H12 _ IH]; [apply same_noise_refl|].
  eapply same_noise_trans; [|exact IH]. by eapply step_same_noise.
Qed.

Lemma row_frame_same_noise pt i s s' : row_frame pt i s s' → same_noise s s'.
Proof.
  intros (_ & _ & Hall) p r Hp.
  destruct (Hall p r Hp) as (r' & Hp' & _ & Hc & _). exists r'.
  by rewrite Hc.
Qed.

Lemma traced_steps data eps lv s s' :
  steps eps lv s s' → traced data eps s → traced data eps s'.
Proof.
  intros Hs. apply (steps_invariant eps lv (traced data eps)); [|done].
  intros s1 s2. apply traced_step.
Qed.

(** A round of the scan at position [k] labels [k] noise exactly when its
    neighborhood has fewer than [minPoints] members, and changes no other
    noise label. *)
Lemma scan_step_noise data eps minPoints k r s :
  regular data → traced data eps s → metadata s !! k = Some r →
  ∃ s', scan_step eps minPoints k k s = Done tt s' ∧
        steps eps 2 s s' ∧
        ∀ p rp, metadata s !! p = Some rp →
          ∃ rp', metadata s' !! p = Some rp' ∧
            (cluster rp' = Noise ↔
             (p = k ∧
              (Z.of_nat (length (within (map fresh data) eps k)) < minPoints)%Z)
             ∨ cluster rp = Noise).
Proof.
  intros Hwf Htr Hr. pose proof (lookup_lt_Some _ _ _ Hr) as Hk.
  destruct (scan_step_spec eps minPoints k r s Hr)
    as (neigh & s2 & r2 & _ & Hng & Hfr & Hst & Hr2 & Hcase).
  pose proof (entered_step eps k k r s Hr) as Hent.
  assert (length (metadata (entered k k r s)) = length (metadata s)) as Hle.
  { simpl. by rewrite length_insert. }
  rewrite <- Hle in Hng.
  rewrite (traced_keeps data eps) in Hng;
    [|done|by eapply traced_steps|lia].
  assert (steps eps 2 s s2) as Hs2.
  { etrans; [exact Hent|]. eapply steps_level; [|exact Hst]. lia. }
  assert (same_noise s s2) as Hsn.
  { eapply same_noise_trans; [|by eapply row_frame_same_noise].
    by apply (same_noise_put k r). }
  subst neigh.
  destruct Hcase as [[Hlt Heq]|(Hge & s' & Heq & _ & Hs')].
  - eexists. split; [exact Heq|]. split.
    { eapply rtc_r; [exact Hs2|]. by constructor. }
    intros p rp Hp. destruct (Hsn p rp Hp) as (rp' & Hp' & Hiff).
    destruct (decide (p = k)) as [->|Hne].
    + rewrite put_lookup by by eapply lookup_lt_Some.
      eexists. split; [done|]. simpl. split; [|done]. intros _. by left.
    + rewrite put_lookup_ne by done. exists rp'. split; [done|].
      rewrite Hiff. split; [by right|]. intros [[? _]|?]; done.
  - exists s'. split; [done|]. split.
    { etrans; [exact Hs2|]. eapply rtc_l; [by apply (step_next eps 2 s2)|].
      eapply steps_level; [|exact Hs']. lia. }
    intros p rp Hp. destruct (Hsn p rp Hp) as (rp' & Hp' & Hiff).
    destruct (steps_same_noise _ _ _ Hs' p rp' Hp') as (rp'' & Hp'' & Hiff').
    exists rp''. split; [done|]. rewrite Hiff', Hiff. split; [auto|].
    intros [[_ Hlt]|?]; [lia|done].
Qed.

(** In the table that a run on data of one shape returns, a point is
    labelled noise exactly when its neighborhood has fewer than
    [minPoints] members. *)
Lemma run_noise data eps minPoints :
  regular data →
  ∃ s, run data eps minPoints = Done (metadata s) s ∧
       length (metadata s) = length data ∧
       ∀ i r, metadata s !! i = Some r →
         (cluster r = Noise ↔
          (Z.of_nat (length (within (map fresh data) eps i)) < minPoints)%Z).
Proof.
  intros Hwf. unfold run, scan, bind at 1. rewrite where_unvisited_init.
  assert (wp (each (seq 0 (length data))
                (λ pt i _, scan_step eps minPoints pt i) tt)
             (λ _ s, steps eps 2 (init data) s ∧
                ∀ i r, metadata s !! i = Some r →
                  (cluster r = Noise ↔
                   i < length data ∧
                   (Z.of_nat (length (within (map fresh data) eps i))
                    < minPoints)%Z))
             (init data)) as Hwp.
  { eapply wp_mono.
    - apply (wp_each (λ k _ s, steps eps 2 (init data) s ∧
                ∀ i r, metadata s !! i = Some r →
                  (cluster r = Noise ↔
                   i < k ∧
                   (Z.of_nat (length (within (map fresh data) eps i))
                    < minPoints)%Z))).
      + split; [constructor|]. intros i r Hi. simpl in Hi.
        rewrite list_lookup_fmap in Hi. destruct (data !! i); simplify_eq/=.
        split; [done|lia].
      + intros j x [] s Hj [Hs Hlab]. apply lookup_seq_0 in Hj as [-> Hj].
        assert (j < length (metadata s)) as Hj'.
        { rewrite (steps_length _ _ _ _ Hs). simpl. by rewrite length_map. }
        destruct (lookup_lt_is_Some_2 _ _ Hj') as [r Hr].
        destruct (scan_step_noise data eps minPoints j r s Hwf)
          as (s' & Heq & Hs' & Hlab'); [|done|].
        { eapply traced_steps; [exact Hs|apply traced_init]. }
        eapply done_wp; [exact Heq|]. split; [by etrans|].
        intros i ri' Hi'.
        assert (i < length (metadata s)) as Hi.
        { rewrite <- (steps_length _ _ _ _ Hs'). by eapply lookup_lt_Some. }
        destruct (lookup_lt_is_Some_2 _ _ Hi) as [ri Hri].
        destruct (Hlab' i ri Hri) as (ri'' & Hi'' & Hiff).
        assert (ri'' = ri') as -> by congruence.
        rewrite Hiff, (Hlab i ri Hri). split.
        * intros [[-> Hlt]|[Hlt ?]]; split; try done; lia.
        * intros [Hlt ?]. destruct (decide (i = j)) as [->|]; [by left|].
          right. split; [lia|done].
    - intros [] s. simpl. rewrite length_seq. done. }
  apply wp_done in Hwp as ([] & s & Heq & Hs & Hlab).
  exists s. unfold bind. rewrite Heq. split; [done|].
  assert (length (metadata s) = length data) as Hlen.
  { rewrite (steps_length _ _ _ _ Hs). simpl. by rewrite length_map. }
  split; [done|]. intros i r Hi. rewrite (Hlab i r Hi).
  pose proof (lookup_lt_Some _ _ _ Hi). intuition lia.
Qed.

Lemma noise_count_le md1 md2 :
  length md1 = length md2 →
  (∀ i r1 r2, md1 !! i = Some r1 → md2 !! i = Some r2 →
              cluster r2 = Noise → cluster r1 = Noise) →
  noise_count md2 ≤ noise_count md1.
Proof.
  unfold noise_count. revert md2.
  induction md1 as [|r1 md1 IH]; intros [|r2 md2] Hlen Hall; simpl in *;
    try done.
  specialize (IH md2 ltac:(lia) (λ i, Hall (S i))).
  pose proof (Hall 0 r1 r2 eq_refl eq_refl) as H0.
  destruct (bool_decide_reflect (cluster r2 = Noise)) as [H2|H2]; simpl;
    [|destruct (bool_decide (cluster r1 = Noise)); simpl; lia].
  rewrite (bool_decide_eq_true_2 _ (H0 H2)). simpl. lia.
Qed.

Lemma filter_length_mono {A} (f g : A → bool) l :
  (∀ x, f x = true → g x = true) →
  length (List.filter f l) ≤ length (List.filter g l).
Proof.
  intros Hfg. induction l as [|x l IH]; simpl; [done|].
  destruct (f x) eqn:Hf.
  - rewrite (Hfg x Hf). simpl. lia.
  - destruct (g x); simpl; lia.
Qed.

Lemma within_mono md eps1 eps2 i :
  (eps1 <= eps2)%Q → length (within md eps1 i) ≤ length (within md eps2 i).
Proof.
  intros Hle. apply filter_length_mono. intros j.
  rewrite !orb_true_iff. intros [?|Hnear]; [by left|right].
  unfold near in *. destruct (md !! i), (md !! j); try done.
  by eapply lt_eps_mono.
Qed.

(** X27: on data of one shape (the same keys in the same order, none of
    them [length]), a run with a larger [eps] and the same [minPoints]
    labels no more points noise than a run with the smaller [eps]; both
    runs return. *)
Theorem noise_decreases_with_eps (data : list object) (eps1 eps2 : Q)
    (minPoints : Z) :
  regular data →
  (eps1 <= eps2)%Q →
  ∃ s1 s2,
    run data eps1 minPoints = Done (metadata s1) s1 ∧
    run data eps2 minPoints = Done (metadata s2) s2 ∧
    noise_count (metadata s2) ≤ noise_count (metadata s1).
Proof.
  intros Hwf Hle.
  destruct (run_noise data eps1 minPoints Hwf) as (s1 & Hrun1 & Hlen1 & Hn1).
  destruct (run_noise data eps2 minPoints Hwf) as (s2 & Hrun2 & Hlen2 & Hn2).
  exists s1, s2. do 2 (split; [done|]).
  apply noise_count_le; [congruence|].
  intros i r1 r2 Hi1 Hi2. rewrite (Hn1 i r1 Hi1), (Hn2 i r2 Hi2).
  pose proof (within_mono (map fresh data) eps1 eps2 i Hle). lia.
Qed.

Lemma regular_line3 : regular line3.
Proof.
  assert (∀ a, a ∈ line3 → keys a = ["x"%string]) as Hkeys.
  { intros a Ha. unfold line3 in Ha.
    repeat (apply elem_of_cons in Ha as [->|Ha]; [done|]).
    by apply elem_of_nil in Ha. }
  intros a b Ha Hb. split; [|split].
  - by rewrite (Hkeys a Ha), (Hkeys b Hb).
  - rewrite (Hkeys a Ha). apply NoDup_singleton.
  - apply prop_None. rewrite (Hkeys a Ha).
    by intros ?%list_elem_of_singleton.
Qed.

Lemma noise_decreases_with_eps_witness :
  (regular line3 ∧ (1 <= 3 # 2)%Q) ∧
  ∃ s1 s2,
    run line3 1 2 = Done (metadata s1) s1 ∧
    run line3 (3 # 2) 2 = Done (metadata s2) s2 ∧
    noise_count (metadata s2) ≤ noise_count (metadata s1).
Proof.
  split.
  - split; [apply regular_line3|]. unfold Qle. simpl. lia.
  - apply (noise_decreases_with_eps line3 1 (3 # 2) 2).
    + apply regular_line3.
    + unfold Qle. simpl. lia.
Defined.

(** ** Objects with a property [length] *)

Lemma well_formed_array_likes : well_formed array_likes.
Proof.
  assert (∀ a, a ∈ array_likes → keys a = ["0"%string; "length"%string])
    as Hkeys.
  { intros a Ha. unfold array_likes in Ha.
    repeat (apply elem_of_cons in Ha as [->|Ha]; [done|]).
    by apply elem_of_nil in Ha. }
  intros a b Ha Hb. unfold same_dims. rewrite (Hkeys a Ha), (Hkeys b Hb).
  assert (NoDup ["0"%string; "length"%string]) as Hnd.
  { apply NoDup_cons. split; [|apply NoDup_singleton].
    intros [?|?%elem_of_nil]%elem_of_cons; done. }
  done.
Qed.

Lemma traced_shares_dimensions data eps s :
  well_formed data → traced data eps s → shares_dimensions (metadata s).
Proof.
  intros Hwf ((Hobj & _) & _) p q rp rq Hp Hq.
  apply Hwf; rewrite <- Hobj; apply list_elem_of_fmap;
    eexists; (split; [reflexivity|]); by eapply list_elem_of_lookup_2.
Qed.

Lemma traced_cache_agrees data eps s :
  traced data eps s → cache_agrees eps (metadata s).
Proof.
  intros Htr p t rp rt b Hp Ht Hb.
  destruct (traced_entry data eps s p t rp b Htr Hp Hb) as [_ ->].
  destruct Htr as ((Hobj & _) & _). unfold test.
  rewrite <- Hobj, !list_lookup_fmap, Hp, Ht. done.
Qed.

(** C4 fails on the code: the four objects of [array_likes] share one
    dimension set, the keys [0] and [length].  In the table that the run
    with [eps = 2.5] and [minPoints = 2] has built when the scan has done
    point 0, every cached entry agrees with the strict test, and the
    distance from point 1 to point 2 is 1.5; yet the query for point 1
    returns point 1 alone.  It takes the entry [false] that point 2 holds
    for point 1: [distance] walks an object with a [length] by index, and
    from point 2, whose [length] is 2, it is [NaN]. *)
Theorem neighborhood_misses_near_point :
  ∃ s, scan_step (5 # 2) 2 0 0 (init array_likes) = Done tt s ∧
       shares_dimensions (metadata s) ∧
       cache_agrees (5 # 2) (metadata s) ∧
       near (metadata s) (5 # 2) 1 2 = true ∧
       wp (neighborhood 1 1 (5 # 2)) (λ neigh _, neigh = [1]) s.
Proof.
  pose proof (scan_step_steps (5 # 2) 2 0 (init array_likes)) as Hwp.
  unfold wp in Hwp.
  destruct (scan_step (5 # 2) 2 0 0 (init array_likes)) as [[] s| |] eqn:Heq;
    try (exfalso; apply Hwp; simpl; lia).
  exists s. split; [done|].
  assert (traced array_likes (5 # 2) s) as Htr.
  { eapply traced_steps; [apply Hwp; simpl; lia|apply traced_init]. }
  split; [by eapply traced_shares_dimensions, Htr;
          apply well_formed_array_likes|].
  split; [by eapply traced_cache_agrees|].
  clear Hwp Htr. vm_compute in Heq. injection Heq as <-.
  split; [by vm_compute|]. unfold wp. by vm_compute.
Qed.

(** C9 fails on the code: the four objects of [array_likes] share one
    dimension set, and with [minPoints = 2] the run labels no point noise
    for [eps = 2] and one point for [eps = 2.5].  The distance between
    points 1 and 2 is 1.5 from point 1 and [NaN] from point 2, and the
    larger [eps] makes the run ask point 2 first. *)
Theorem noise_grows_on_array_likes :
  well_formed array_likes ∧
  result_labels (run array_likes 2 2) =
    Some [Cluster 1; Cluster 2; Cluster 2; Cluster 1] ∧
  result_labels (run array_likes (5 # 2) 2) =
    Some [Cluster 1; Noise; Cluster 1; Cluster 1].
Proof.
  split; [apply well_formed_array_likes|]. split; by vm_compute.
Qed.

(** The shared dimension set cannot be dropped.  Between objects with
    different keys the distance is a number in one direction and [NaN] in
    the other, and which direction a run caches depends on [eps]: with
    [minPoints = 3] no point of [mixed_shapes] is noise for [eps = 1.5] and
    two are for [eps = 4]. *)
Lemma noise_grows_on_mixed_shapes :
  result_labels (run mixed_shapes (3 # 2) 3) =
  Some [Cluster 1; Cluster 1; Cluster 1; Cluster 4; Cluster 4; Cluster 4] ∧
  result_labels (run mixed_shapes 4 3) =
  Some [Cluster 1; Cluster 1; Cluster 1; Noise; Noise; Cluster 1].
Proof. split; by vm_compute. Qed.

(** ** More on the distance *)

Lemma Qsquare_nonneg x : (0 <= x * x)%Q.
Proof.
  unfold Qle, Qmult. simpl. rewrite Z.mul_1_r. apply Z.square_nonneg.
Qed.

Lemma Qplus_nonneg a b : (0 <= a)%Q → (0 <= b)%Q → (0 <= a + b)%Q.
Proof.
  intros Ha Hb. apply (Qle_trans _ (0 + 0)%Q); [done|].
  by apply Qplus_le_compat.
Qed.

Lemma fold_distance_none b es : fold_left (distance_step b) es None = None.
Proof. induction es as [|kv es IH]; [done|]. simpl. exact IH. Qed.

Lemma fold_distance_cases b es : ∀ q0,
  (0 <= q0)%Q →
  match fold_left (distance_step b) es (Some q0) with
  | Some q => (0 <= q)%Q ∧ ∀ k v, (k, v) ∈ es → is_Some v ∧ k ∈ keys b
  | None => ∃ k v, (k, v) ∈ es ∧ (v = None ∨ k ∉ keys b)
  end.
Proof.
  induction es as [|[k v] es IH]; intros q0 Hq0; simpl.
  - split; [done|]. by intros k v ?%elem_of_nil.
  - destruct (prop k b) as [w|] eqn:Hw; [destruct v as [val|]|].
    + assert (0 <= q0 + (w - val) * (w - val))%Q as Hq1.
      { apply Qplus_nonneg; [done|apply Qsquare_nonneg]. }
      specialize (IH _ Hq1).
      destruct (fold_left _ _ _) as [q|].
      * destruct IH as [Hq Hk]. split; [done|].
        intros k' v' [[= -> ->]|Hin]%elem_of_cons; [|by apply Hk].
        split; [done|].
        destruct (decide (k ∈ keys b)) as [|Hn]; [done|].
        apply prop_None in Hn. congruence.
      * destruct IH as (k' & v' & Hin & Hn). exists k', v'.
        split; [by right|done].
    + rewrite fold_distance_none. exists k, None. split; [by left|by left].
    + rewrite fold_distance_none. exists k, v. split; [by left|].
      right. by apply prop_None.
Qed.

(** X1: the distance is a number, the root of a non-negative square sum,
    exactly when every element of the walk of the first object (each of its
    keys or, when it has a [length], each index below the length) has a
    value in the first object and in the second; otherwise it is [NaN].
    Keys of the second object that the walk does not reach are not looked
    at. *)
Theorem distance_number_or_nan (obj1 obj2 : object) :
  match distance obj1 obj2 with
  | Sqrt q =>
      (0 <= q)%Q ∧
      ∀ k v, (k, v) ∈ elements obj1 → is_Some v ∧ k ∈ keys obj2
  | NaN => ∃ k v, (k, v) ∈ elements obj1 ∧ (v = None ∨ k ∉ keys obj2)
  end.
Proof.
  unfold distance.
  pose proof (fold_distance_cases obj2 (elements obj1) 0%Q (Qle_refl 0)) as H.
  by destruct (fold_left _ _ _).
Qed.

(** X2: between two objects of one shape (the same keys in the same
    order, none of them [length]) the distance is the same number in both
    directions. *)
Theorem distance_symmetric (a b : object) :
  same_shape a b →
  ∃ q1 q2, distance a b = Sqrt q1 ∧ distance b a = Sqrt q2 ∧ (q1 == q2)%Q.
Proof. apply same_shape_sums. Qed.

Lemma same_shape_pt2 x y x' y' : same_shape (pt2 x y) (pt2 x' y').
Proof.
  split; [done|]. split; [|done].
  apply NoDup_cons. split; [|apply NoDup_singleton].
  intros [?|?%elem_of_nil]%elem_of_cons; done.
Qed.

Lemma distance_symmetric_witness :
  same_shape (pt2 0 0) (pt2 3 4) ∧
  ∃ q1 q2, distance (pt2 0 0) (pt2 3 4) = Sqrt q1 ∧
           distance (pt2 3 4) (pt2 0 0) = Sqrt q2 ∧ (q1 == q2)%Q.
Proof.
  split; [apply same_shape_pt2|].
  apply (distance_symmetric (pt2 0 0) (pt2 3 4)), same_shape_pt2.
Defined.

Lemma Qsum_nonneg l : Forall (λ x, 0 <= x)%Q l → (0 <= Qsum l)%Q.
Proof.
  unfold Qsum. induction 1 as [|x l Hx _ IH]; simpl; [apply Qle_refl|].
  by apply Qplus_nonneg.
Qed.

Lemma Qsum_zero l :
  Forall (λ x, 0 <= x)%Q l → (Qsum l == 0)%Q ↔ Forall (λ x, x == 0)%Q l.
Proof.
  induction 1 as [|x l Hx Hl IH]; [done|].
  change (Qsum (x :: l)) with (x + Qsum l)%Q.
  pose proof (Qsum_nonneg l Hl) as Hs. split.
  - intros Hz. assert (x == 0 ∧ Qsum l == 0)%Q as [Hx0 Hl0].
    { split; apply Qle_antisym; try done.
      - apply (Qle_trans _ (x + Qsum l)%Q); [|rewrite Hz; apply Qle_refl].
        apply (Qle_trans _ (x + 0)%Q); [rewrite Qplus_0_r; apply Qle_refl|].
        by apply Qplus_le_compat; [apply Qle_refl|].
      - apply (Qle_trans _ (x + Qsum l)%Q); [|rewrite Hz; apply Qle_refl].
        apply (Qle_trans _ (0 + Qsum l)%Q); [rewrite Qplus_0_l; apply Qle_refl|].
        by apply Qplus_le_compat; [|apply Qle_refl]. }
    constructor; [done|]. by apply IH.
  - intros [Hx0 Hl0]%Forall_cons. apply IH in Hl0. rewrite Hx0, Hl0. ring.
Qed.

(** X3: between two objects of one shape that have the same value at
    every key the distance is zero. *)
Theorem distance_zero_when_equal (a b : object) :
  same_shape a b →
  (∀ k, k ∈ keys a → (get a k == get b k)%Q) →
  ∃ q, distance a b = Sqrt q ∧ (q == 0)%Q.
Proof.
  intros (Hk & Ha & Hpa) Heq.
  destruct (distance_sum a b Hpa Ha) as (q & Hq & Eq).
  { intros k Hin. apply prop_elem. by rewrite <- Hk. }
  exists q. split; [done|]. rewrite Eq. apply Qsum_zero.
  - apply Forall_fmap, Forall_forall. intros k _. apply Qsquare_nonneg.
  - apply Forall_fmap, Forall_forall. intros k Hin. simpl.
    rewrite (Heq k Hin). ring.
Qed.

Lemma distance_zero_when_equal_witness :
  same_shape (pt2 1 2) (pt2 1 2) ∧
  (∀ k, k ∈ keys (pt2 1 2) → (get (pt2 1 2) k == get (pt2 1 2) k)%Q) ∧
  ∃ q, distance (pt2 1 2) (pt2 1 2) = Sqrt q ∧ (q == 0)%Q.
Proof.
  split; [apply same_shape_pt2|]. split; [reflexivity|].
  apply (distance_zero_when_equal (pt2 1 2) (pt2 1 2));
    [apply same_shape_pt2|reflexivity].
Defined.

(** ** What an expansion writes *)

Lemma estep_step eps cl s s' : estep eps cl s s' → step eps 1 s s'.
Proof. intros H. destruct H; econstructor; eauto. Qed.

Lemma esteps_steps eps cl s s' :
  rtc (estep eps cl) s s' → steps eps 1 s s'.
Proof.
  induction 1 as [|s1 s2 s3 H12 _ IH]; [constructor|].
  eapply rtc_l; [by eapply estep_step|done].
Qed.

Lemma step_estep eps cl lv s s' :
  lv = 0 → step eps lv s s' → estep eps cl s s'.
Proof. intros Hlv H. destruct H; try lia. by constructor. Qed.

Lemma steps_esteps eps cl s s' :
  steps eps 0 s s' → rtc (estep eps cl) s s'.
Proof.
  induction 1 as [|s1 s2 s3 H12 _ IH]; [constructor|].
  eapply rtc_l; [by eapply step_estep|done].
Qed.

Lemma grows_refl cl s : grows cl s s.
Proof. repeat split. intros p r Hp. exists r. eauto. Qed.

Lemma grows_trans cl s1 s2 s3 : grows cl s1 s2 → grows cl s2 s3 → grows cl s1 s3.
Proof.
  intros (Hc1 & Hl1 & H1) (Hc2 & Hl2 & H2).
  split; [congruence|]. split; [congruence|]. intros p r Hp.
  destruct (H1 p r Hp) as (r2 & Hp2 & Ho2 & Hv2 & Hlab2).
  destruct (H2 p r2 Hp2) as (r3 & Hp3 & Ho3 & Hv3 & Hlab3).
  exists r3. split; [done|]. split; [congruence|]. split; [auto|].
  destruct Hlab2 as [E2|[F2 E2]], Hlab3 as [E3|[F3 E3]].
  - left. congruence.
  - right. split; congruence.
  - right. split; congruence.
  - right. split; congruence.
Qed.

Lemma grows_put cl p r r' es s :
  metadata s !! p = Some r →
  obj r' = obj r →
  (visited r = true → visited r' = true) →
  (cluster r' = cluster r ∨ (falsy (cluster r) = true ∧ cluster r' = Cluster cl)) →
  grows cl s (put p r' es s).
Proof.
  intros Hp Ho Hv Hc. split; [done|]. split; [simpl; by rewrite length_insert|].
  intros q rq Hq. destruct (decide (q = p)) as [->|Hne].
  - rewrite put_lookup by by eapply lookup_lt_Some. simplify_eq. eauto.
  - rewrite put_lookup_ne by done. exists rq. eauto.
Qed.

Lemma estep_grows eps cl s s' : estep eps cl s s' → grows cl s s'.
Proof.
  intros H. destruct H as [s p t rp rt Hp Ht Hne Hnone b|s p r Hp
    |s p r Hp Hf|s neigh].
  - apply (grows_put cl p rp); auto.
  - apply (grows_put cl p r); auto.
  - apply (grows_put cl p r); auto.
  - repeat split. intros p r Hp. exists r. eauto.
Qed.

Lemma esteps_grows eps cl s s' : rtc (estep eps cl) s s' → grows cl s s'.
Proof.
  induction 1 as [|s1 s2 s3 H12 _ IH]; [apply grows_refl|].
  eapply grows_trans; [by eapply estep_grows|done].
Qed.

Lemma settled_grows cl s s' p : grows cl s s' → settled cl s p → settled cl s' p.
Proof.
  intros (_ & _ & Hall) (r & Hp & Hv & Hc).
  destruct (Hall p r Hp) as (r' & Hp' & _ & Hv' & Hc').
  exists r'. split; [done|]. split; [auto|].
  destruct Hc' as [E|[F E]]; [|by right].
  rewrite E. done.
Qed.

Lemma stamped_label cl r :
  falsy (cluster (stamped cl r)) = false ∨ cluster (stamped cl r) = Cluster cl.
Proof. unfold stamped. destruct (falsy (cluster r)) eqn:E; auto. Qed.

Lemma claimed_esteps eps cl ni r s :
  metadata s !! ni = Some r → rtc (estep eps cl) s (claimed cl ni r s).
Proof.
  intros Hr. unfold claimed. destruct (falsy (cluster r)) eqn:E.
  - apply rtc_once. by constructor.
  - constructor.
Qed.

Lemma expand_step_grow eps minPts cl neigh ni recurse s :
  ni < length (metadata s) →
  Forall (λ j, j < length (metadata s)) neigh →
  (∀ neigh' s',
     Forall (λ j, j < length (metadata s')) neigh' →
     unvisited (metadata s') < unvisited (metadata s) →
     wp (recurse neigh')
        (λ _ s'', rtc (estep eps cl) s' s'' ∧
                  unvisited (metadata s'') ≤ unvisited (metadata s')) s') →
  wp (expand_step recurse cl neigh minPts eps ni)
     (λ _ s', rtc (estep eps cl) s s' ∧
              unvisited (metadata s') ≤ unvisited (metadata s) ∧
              settled cl s' ni) s.
Proof.
  intros Hni Hneigh Hrec.
  destruct (lookup_lt_is_Some_2 _ _ Hni) as [r Hr].
  unfold wp. rewrite (expand_step_unfold _ _ _ _ _ _ r) by done.
  pose proof (claimed_esteps eps cl ni r s Hr) as Hs1.
  pose proof (claimed_lookup cl ni r s Hr) as Hr1.
  pose proof (esteps_grows _ _ _ _ Hs1) as (_ & Hl1 & _).
  assert (visited (stamped cl r) = visited r) as Hv1.
  { unfold stamped. by destruct (falsy (cluster r)). }
  assert (unvisited (metadata (claimed cl ni r s)) = unvisited (metadata s))
    as Hu1.
  { unfold claimed. destruct (falsy (cluster r)); [|done]. simpl.
    by eapply unvisited_insert_same. }
  destruct (visited r) eqn:Hvis.
  { split; [done|]. split; [lia|].
    exists (stamped cl r). split; [done|]. split; [congruence|].
    apply stamped_label. }
  assert (rtc (estep eps cl) s (reached cl ni r s)) as Hs2.
  { eapply rtc_r; [exact Hs1|]. by constructor. }
  assert (S (unvisited (metadata (reached cl ni r s))) = unvisited (metadata s))
    as Hu2.
  { rewrite <- Hu1. unfold reached. simpl.
    apply unvisited_insert_visit; congruence. }
  assert (length (metadata (reached cl ni r s)) = length (metadata s)) as Hl2.
  { unfold reached. simpl. by rewrite length_insert. }
  assert (settled cl (reached cl ni r s) ni) as Hset.
  { exists (with_visited true (stamped cl r)). split.
    - apply put_lookup. lia.
    - split; [done|]. apply stamped_label. }
  destruct (wp_done _ _ _
    (neighborhood_spec ni ni eps (reached cl ni r s) ltac:(lia)))
    as (ng & s3 & Hnb & Hng & Hfr & Hst).
  rewrite Hnb. specialize (Hst eq_refl).
  apply (steps_esteps eps cl) in Hst.
  pose proof (row_frame_unvisited _ _ _ _ Hfr) as Hu3.
  assert (rtc (estep eps cl) s s3) as Hs3 by by etrans.
  destruct (_ <? _)%Z.
  - assert (Forall (λ j, j < length (metadata s3)) (union neigh ng)) as Hrange.
    { destruct Hfr as (_ & Hl3 & _). apply union_Forall.
      - by rewrite Hl3, Hl2.
      - rewrite Hl3, Hng. apply neighborhood_in_range. }
    destruct (wp_done _ _ _ (Hrec _ s3 Hrange ltac:(lia)))
      as ([] & s4 & Hrun & Hs4 & Hu4).
    rewrite Hrun. split; [by etrans|]. split; [lia|].
    eapply settled_grows; [|exact Hset].
    eapply esteps_grows. by etrans.
  - split; [done|]. split; [lia|].
    eapply settled_grows; [|exact Hset]. by eapply esteps_grows.
Qed.

Lemma expandCluster_fuel_grow eps minPts cl pt i fuel : ∀ neigh s,
  Forall (λ j, j < length (metadata s)) neigh →
  unvisited (metadata s) < fuel →
  wp (expandCluster_fuel fuel cl pt i neigh minPts eps)
     (λ _ s', rtc (estep eps cl) s s' ∧
              unvisited (metadata s') ≤ unvisited (metadata s) ∧
              Forall (settled cl s') neigh) s.
Proof.
  induction fuel as [|fuel IH]; intros neigh s Hneigh Hfuel; [lia|].
  simpl. apply wp_bind, wp_emit.
  set (s0 := State _ _ _).
  assert (rtc (estep eps cl) s s0) as Hs0 by (apply rtc_once; constructor).
  eapply wp_mono.
  { apply (wp_each (λ j _ s',
      rtc (estep eps cl) s s' ∧
      unvisited (metadata s') ≤ unvisited (metadata s) ∧
      ∀ j' ni, j' < j → neigh !! j' = Some ni → settled cl s' ni)).
    { split; [done|]. split; [done|]. intros j' ni Hj'. lia. }
    intros j ni [] s1 Hj (Hs1 & Hu1 & Hdone).
    pose proof (esteps_grows _ _ _ _ Hs1) as (_ & Hl1 & _).
    eapply wp_mono.
    - apply (expand_step_grow eps minPts cl neigh ni).
      + rewrite Hl1. by eapply (Forall_lookup_1 _ _ _ _ Hneigh).
      + by rewrite Hl1.
      + intros neigh' s' Hn' Hu'. eapply wp_mono.
        * apply IH; [done|lia].
        * intros ? s'' (? & ? & _). done.
    - intros ? s2 (Hs2 & Hu2 & Hset). split; [by etrans|]. split; [lia|].
      intros j' ni' Hj' Hni'. destruct (decide (j' = j)) as [->|Hne].
      + by simplify_eq.
      + eapply settled_grows; [by eapply esteps_grows|].
        apply (Hdone j'); [lia|done]. }
  intros ? s' (Hs' & Hu' & Hdone). split; [done|]. split; [done|].
  apply Forall_lookup. intros j ni Hj. apply (Hdone j); [|done].
  by eapply lookup_lt_Some.
Qed.

(** X4: a call of [expandCluster] whose frontier holds table positions
    returns.  It leaves the data, the length of the table and the cluster
    counter as they are, resets no visited flag and changes no label that
    is assigned already (noise included); a label that it does change
    becomes [cl].  Every frontier point ends visited, with the label [cl]
    if its label was falsy and with its old label otherwise. *)
Theorem expandCluster_labels_frontier (s : state) (cl pt i : nat)
    (neigh : list nat) (minPts : Z) (eps : Q) :
  Forall (λ j, j < length (metadata s)) neigh →
  ∃ s', expandCluster cl pt i neigh minPts eps s = Done tt s' ∧
        grows cl s s' ∧
        ∀ ni r, ni ∈ neigh → metadata s !! ni = Some r →
          ∃ r', metadata s' !! ni = Some r' ∧ visited r' = true ∧
                cluster r' = cluster (stamped cl r).
Proof.
  intros Hneigh.
  destruct (wp_done _ _ _
    (expandCluster_fuel_grow eps minPts cl pt i (S (length (metadata s)))
       neigh s Hneigh ltac:(pose proof (unvisited_le (metadata s)); lia)))
    as ([] & s' & Hrun & Hs' & _ & Hset).
  exists s'. split; [done|].
  pose proof (esteps_grows _ _ _ _ Hs') as Hgrow. split; [done|].
  intros ni r Hni Hr. rewrite Forall_forall in Hset.
  destruct (Hset ni Hni) as (r' & Hr' & Hv' & Hc').
  destruct Hgrow as (_ & _ & Hall).
  destruct (Hall ni r Hr) as (r'' & Hr'' & _ & _ & Hlab).
  assert (r'' = r') as -> by congruence.
  exists r'. do 2 (split; [done|]). unfold stamped.
  destruct (falsy (cluster r)) eqn:Hf; simpl.
  - destruct Hlab as [E|[_ E]]; [|done].
    destruct Hc' as [Hc'|Hc']; [|done]. congruence.
  - destruct Hlab as [E|[F _]]; [done|congruence].
Qed.

Lemma expandCluster_labels_frontier_witness :
  Forall (λ j, j < length (metadata (init line3))) [0; 1] ∧
  ∃ s', expandCluster 1 0 0 [0; 1] 2 (3 # 2) (init line3) = Done tt s' ∧
        grows 1 (init line3) s' ∧
        ∀ ni r, ni ∈ [0; 1] → metadata (init line3) !! ni = Some r →
          ∃ r', metadata s' !! ni = Some r' ∧ visited r' = true ∧
                cluster r' = cluster (stamped 1 r).
Proof.
  assert (Forall (λ j, j < length (metadata (init line3))) [0; 1]) as H.
  { repeat constructor. }
  split; [exact H|].
  exact (expandCluster_labels_frontier (init line3) 1 0 0 [0; 1] 2 (3 # 2) H).
Defined.

(** ** The rounds of the scan *)

(** The loop of [run] with an invariant: [I k] holds before the round for
    the point at [k]. *)
Lemma scan_loop data eps minPoints (I : nat → state → Prop) :
  I 0 (init data) →
  (∀ k s r s',
     k < length data → steps eps 2 (init data) s →
     metadata s !! k = Some r → I k s →
     scan_step eps minPoints k k s = Done tt s' → I (S k) s') →
  ∃ s, run data eps minPoints = Done (metadata s) s ∧
       steps eps 2 (init data) s ∧ I (length data) s.
Proof.
  intros H0 Hstep. unfold run, scan, bind at 1. rewrite where_unvisited_init.
  assert (wp (each (seq 0 (length data))
                (λ pt i _, scan_step eps minPoints pt i) tt)
             (λ _ s, steps eps 2 (init data) s ∧ I (length data) s)
             (init data)) as Hwp.
  { eapply wp_mono.
    - apply (wp_each (λ k _ s, steps eps 2 (init data) s ∧ I k s)).
      + split; [constructor|done].
      + intros j x [] s Hj [Hs HI]. apply lookup_seq_0 in Hj as [-> Hj].
        assert (j < length (metadata s)) as Hj'.
        { rewrite (steps_length _ _ _ _ Hs). simpl. by rewrite length_map. }
        destruct (lookup_lt_is_Some_2 _ _ Hj') as [r Hr].
        destruct (wp_done _ _ _ (scan_step_steps eps minPoints j s Hj'))
          as ([] & s' & Heq & Hs').
        eapply done_wp; [exact Heq|]. split; [by etrans|]. eauto.
    - intros [] s. simpl. by rewrite length_seq. }
  apply wp_done in Hwp as ([] & s & Heq & Hs & HI).
  exists s. unfold bind. by rewrite Heq.
Qed.

Lemma entered_frame_intro k r s s2 :
  metadata s !! k = Some r →
  row_frame k k (entered k k r s) s2 →
  entered_frame k s s2.
Proof.
  intros Hr (Hcv & Hlen & Hall). pose proof (lookup_lt_Some _ _ _ Hr) as Hk.
  split; [done|]. split; [simpl in Hlen; by rewrite length_insert in Hlen|].
  intros p rp Hp. destruct (decide (p = k)) as [->|Hne].
  - destruct (Hall k (with_visited true r)) as (r2 & ? & ? & ? & ? & _).
    { by apply put_lookup. }
    simplify_eq. eauto.
  - destruct (Hall p rp) as (r2 & ? & ? & ? & ? & _).
    { unfold entered. by rewrite put_lookup_ne. }
    eauto.
Qed.

Lemma traced_no_self data eps s k r :
  traced data eps s → metadata s !! k = Some r → neighbors r !! k = None.
Proof.
  intros Htr Hr. destruct (neighbors r !! k) as [b|] eqn:Hb; [|done].
  by destruct (traced_entry data eps s k k r b Htr Hr Hb).
Qed.

(** One round of the scan, for the point at [k]: the query returns a list
    [ng] that holds [k]; then either [ng] is short and [k] is labelled
    noise, or the counter is incremented and the expansion runs. *)
Lemma scan_step_summary data eps minPoints k r s s' :
  traced data eps s →
  metadata s !! k = Some r →
  scan_step eps minPoints k k s = Done tt s' →
  ∃ ng s2 r2,
    ng = List.filter (keeps (metadata (entered k k r s)) k k eps)
                     (seq 0 (length (metadata s))) ∧
    k ∈ ng ∧
    traced data eps (entered k k r s) ∧
    entered_frame k s s2 ∧
    steps eps 2 s s2 ∧
    metadata s2 !! k = Some r2 ∧
    (((Z.of_nat (length ng) < minPoints)%Z ∧
      s' = put k (with_cluster Noise r2) [ELabel k (cluster r2) Noise] s2)
     ∨
     ((minPoints ≤ Z.of_nat (length ng))%Z ∧
      rtc (estep eps (S (cluster_var s))) (bumped s2) s' ∧
      settled (S (cluster_var s)) s' k)).
Proof.
  intros Htr Hr Hrun. pose proof (lookup_lt_Some _ _ _ Hr) as Hk.
  destruct (scan_step_spec eps minPoints k r s Hr)
    as (ng & s2 & r2 & _ & Hng & Hfr & Hst & Hr2 & Hcase).
  pose proof (entered_step eps k k r s Hr) as Hent.
  pose proof (traced_steps _ _ _ _ _ Hent Htr) as Htr'.
  pose proof (entered_frame_intro _ _ _ _ Hr Hfr) as Hef.
  assert (k ∈ ng) as Hkin.
  { rewrite Hng. apply list_elem_of_In, List.filter_In. split.
    - apply in_seq. lia.
    - assert (metadata (entered k k r s) !! k = Some (with_visited true r))
        as Hek by by apply put_lookup.
      unfold keeps. rewrite Hek. simpl.
      rewrite (traced_no_self data eps s k r Htr Hr).
      by rewrite Nat.eqb_refl. }
  exists ng, s2, r2. do 4 (split; [done|]). split.
  { etrans; [exact Hent|]. eapply steps_level; [|exact Hst]. lia. }
  split; [done|].
  destruct Hcase as [[Hlt Heq]|(Hge & s'' & Heq & Hex & _)].
  - left. split; [done|]. congruence.
  - right. split; [done|]. assert (s'' = s') as -> by congruence.
    destruct Hef as (Hcv & Hlen & _). rewrite Hcv in Hex.
    assert (Forall (λ j, j < length (metadata (bumped s2))) ng) as Hrange.
    { simpl. rewrite Hlen, Hng.
      replace (length (metadata s))
        with (length (metadata (entered k k r s)))
        by (simpl; by rewrite length_insert).
      apply neighborhood_in_range. }
    destruct (wp_done _ _ _
      (expandCluster_fuel_grow eps minPoints (S (cluster_var s)) k k
         (S (length (metadata (bumped s2)))) ng (bumped s2) Hrange
         ltac:(pose proof (unvisited_le (metadata (bumped s2))); lia)))
      as ([] & s'' & Heq' & Hs'' & _ & Hset).
    unfold expandCluster in Hex. assert (s'' = s') as -> by congruence.
    split; [done|]. rewrite Forall_forall in Hset. by apply Hset.
Qed.

Lemma labelled_upto_step data eps minPoints k r s s' :
  traced data eps s →
  metadata s !! k = Some r →
  scan_step eps minPoints k k s = Done tt s' →
  labelled_upto k s → labelled_upto (S k) s'.
Proof.
  intros Htr Hr Hrun Hlab.
  destruct (scan_step_summary data eps minPoints k r s s' Htr Hr Hrun)
    as (ng & s2 & r2 & _ & _ & _ & (Hcv & Hlen & Hall) & _ & Hr2 & Hcase).
  intros i ri' Hi'.
  assert (i < length (metadata s)) as Hi.
  { rewrite <- Hlen. apply lookup_lt_Some in Hi'.
    destruct Hcase as [[_ ->]|(_ & Hs' & _)].
    - simpl in Hi'. by rewrite length_insert in Hi'.
    - apply esteps_grows in Hs' as (_ & Hl & _). by rewrite Hl in Hi'. }
  destruct (lookup_lt_is_Some_2 _ _ Hi) as [ri Hri].
  destruct (Hall i ri Hri) as (ri2 & Hri2 & Hc2 & _ & Hv2).
  destruct (Hlab i ri Hri) as [Hbound Hdone].
  destruct Hcase as [[_ ->]|(_ & Hs' & Hset)].
  - (* the point at [k] is labelled noise *)
    destruct (decide (i = k)) as [->|Hne].
    + rewrite put_lookup in Hi' by by eapply lookup_lt_Some.
      simplify_eq/=. done.
    + rewrite put_lookup_ne in Hi' by done. simplify_eq/=.
      rewrite Hc2, Hv2, Hcv.
      split; [done|]. intros ?. apply Hdone. lia.
  - (* the expansion runs with a new identifier *)
    pose proof (esteps_grows _ _ _ _ Hs') as (Hcv' & _ & Hall').
    destruct (Hall' i ri2 Hri2) as (ri'' & Hri'' & _ & Hv' & Hc').
    assert (ri'' = ri') as -> by congruence.
    simpl in Hcv'. rewrite Hcv', Hcv. split.
    + intros c Hc. destruct Hc' as [E|[_ E]].
      * destruct (Hbound c); [congruence|]. lia.
      * assert (c = S (cluster_var s)) as -> by congruence. lia.
    + intros Hlt. destruct (decide (i = k)) as [->|Hne].
      * destruct Hset as (rk & Hrk & Hvk & Hck).
        assert (rk = ri') as -> by congruence. split; [done|].
        destruct Hck as [?|E]; [done|]. by rewrite E.
      * destruct Hdone as [Hv Hf]; [lia|].
        split; [apply Hv'; congruence|].
        destruct Hc' as [E|[F _]]; congruence.
Qed.

(** X5: [run] returns on every input.  The returned table has the data in
    their order, every point is visited, and every point is labelled:
    with the noise marker or with an identifier between 1 and the final
    value of the counter. *)
Theorem run_labels_every_point (data : list object) (eps : Q)
    (minPoints : Z) :
  ∃ s, run data eps minPoints = Done (metadata s) s ∧
       map obj (metadata s) = data ∧
       ∀ r, r ∈ metadata s →
            visited r = true ∧
            (cluster r = Noise ∨
             ∃ c, cluster r = Cluster c ∧ 1 ≤ c ≤ cluster_var s).
Proof.
  destruct (scan_loop data eps minPoints labelled_upto)
    as (s & Hrun & Hs & Hlab).
  - intros i r Hi. simpl in Hi. rewrite list_lookup_fmap in Hi.
    destruct (data !! i); simplify_eq/=. split; [done|lia].
  - intros k s r s' _ Hs Hr Hlab Hstep.
    eapply labelled_upto_step; try done.
    eapply traced_steps; [exact Hs|apply traced_init].
  - exists s. split; [done|].
    pose proof (traced_steps data _ _ _ _ Hs (traced_init data eps))
      as ((Hobj & _) & _).
    split; [done|]. intros r [i Hi]%list_elem_of_lookup.
    destruct (Hlab i r Hi) as [Hbound Hdone].
    destruct Hdone as [Hv Hf].
    { apply lookup_lt_Some in Hi.
      rewrite (steps_length _ _ _ _ Hs) in Hi. simpl in Hi.
      by rewrite length_map in Hi. }
    split; [done|]. destruct (cluster r) as [| |c] eqn:Hc; [done|by left|].
    right. exists c. split; [done|]. by apply Hbound.
Qed.

(** ** Counting identifiers and noise *)

Lemma noise_count_same md md' :
  length md' = length md →
  (∀ i r r', md !! i = Some r → md' !! i = Some r' →
             (cluster r' = Noise ↔ cluster r = Noise)) →
  noise_count md' = noise_count md.
Proof.
  intros Hlen Hall. apply Nat.le_antisymm.
  - apply noise_count_le; [done|]. intros i r r' Hi Hi' HN.
    by apply (Hall i r r' Hi Hi').
  - apply noise_count_le; [done|]. intros i r' r Hi' Hi HN.
    by apply (Hall i r r' Hi Hi').
Qed.

Lemma noise_count_insert_noise md p r :
  md !! p = Some r → cluster r ≠ Noise →
  noise_count (<[p := with_cluster Noise r]> md) = S (noise_count md).
Proof.
  unfold noise_count. revert p.
  induction md as [|x md IH]; intros [|p] Hp Hr; simplify_eq/=.
  - by rewrite bool_decide_eq_false_2.
  - specialize (IH p Hp Hr).
    destruct (bool_decide (cluster x = Noise)); simpl; by rewrite IH.
Qed.

Lemma same_noise_count s s' :
  length (metadata s') = length (metadata s) →
  same_noise s s' → noise_count (metadata s') = noise_count (metadata s).
Proof.
  intros Hlen Hsn. apply noise_count_same; [done|].
  intros i r r' Hi Hi'. destruct (Hsn i r Hi) as (r'' & Hi'' & Hiff).
  by assert (r'' = r') as -> by congruence.
Qed.

Lemma entered_frame_same_noise k s s2 : entered_frame k s s2 → same_noise s s2.
Proof.
  intros (_ & _ & Hall) p r Hp.
  destruct (Hall p r Hp) as (r2 & Hp2 & Hc & _). exists r2. by rewrite Hc.
Qed.

(** X6: the cluster counter of a run ends at the number of points that
    are not labelled noise: an identifier is allotted for every point
    whose neighborhood is not short, also for a point that an earlier
    expansion has labelled already. *)
Theorem counter_counts_dense_points (data : list object) (eps : Q)
    (minPoints : Z) :
  ∃ s, run data eps minPoints = Done (metadata s) s ∧
       cluster_var s + noise_count (metadata s) = length data.
Proof.
  destruct (scan_loop data eps minPoints
    (λ k s, cluster_var s + noise_count (metadata s) = k ∧
            ∀ i r, metadata s !! i = Some r → k ≤ i → cluster r ≠ Noise))
    as (s & Hrun & _ & Hcount & _).
  - split.
    + simpl. unfold noise_count. induction data as [|o data IH]; [done|].
      simpl in *. done.
    + intros i r Hi _. simpl in Hi. rewrite list_lookup_fmap in Hi.
      destruct (data !! i); simplify_eq/=. done.
  - intros k s r s' _ Hs Hr [Hcount Hrest] Hstep.
    pose proof (traced_steps data _ _ _ _ Hs (traced_init data eps)) as Htr.
    destruct (scan_step_summary data eps minPoints k r s s' Htr Hr Hstep)
      as (ng & s2 & r2 & _ & _ & _ & Hef & _ & Hr2 & Hcase).
    pose proof (entered_frame_same_noise _ _ _ Hef) as Hsn.
    pose proof Hef as (Hcv & Hlen & Hall).
    pose proof (same_noise_count _ _ Hlen Hsn) as Hnc.
    destruct (Hall k r Hr) as (r2' & Hr2' & Hc2 & _).
    assert (r2' = r2) as -> by congruence.
    assert (cluster r2 ≠ Noise) as Hnn by (rewrite Hc2; by eapply Hrest).
    destruct Hcase as [[_ ->]|(_ & Hs' & _)].
    + split.
      * simpl. rewrite (noise_count_insert_noise _ _ r2) by done. lia.
      * intros i ri Hi Hle. rewrite put_lookup_ne in Hi by lia.
        destruct (lookup_lt_is_Some_2 (metadata s) i) as [ri0 Hri0].
        { rewrite <- Hlen. by eapply lookup_lt_Some. }
        destruct (Hall i ri0 Hri0) as (ri2 & Hri2 & Hci & _).
        assert (ri2 = ri) as -> by congruence. rewrite Hci.
        eapply Hrest; [done|lia].
    + pose proof (esteps_grows _ _ _ _ Hs') as (Hcv' & Hlen' & _).
      pose proof (steps_same_noise _ _ _ (esteps_steps _ _ _ _ Hs')) as Hsn'.
      split.
      * rewrite Hcv'. simpl.
        rewrite (same_noise_count (bumped s2) s' Hlen' Hsn'). simpl. lia.
      * intros i ri Hi Hle.
        destruct (lookup_lt_is_Some_2 (metadata s) i) as [ri0 Hri0].
        { rewrite <- Hlen. simpl in Hlen'. rewrite <- Hlen'.
          by eapply lookup_lt_Some. }
        destruct (Hsn i ri0 Hri0) as (ri2 & Hri2 & Hiff).
        destruct (Hsn' i ri2 Hri2) as (ri' & Hri' & Hiff').
        assert (ri' = ri) as -> by congruence.
        rewrite Hiff', Hiff. eapply Hrest; [done|lia].
  - exists s. done.
Qed.

(** X7: with [minPoints] at most 1 no point is labelled noise: a point is
    always a member of its own neighborhood. *)
Theorem no_noise_for_small_minPoints (data : list object) (eps : Q)
    (minPoints : Z) :
  (minPoints ≤ 1)%Z →
  ∃ s, run data eps minPoints = Done (metadata s) s ∧
       ∀ r, r ∈ metadata s → cluster r ≠ Noise.
Proof.
  intros Hmin.
  destruct (scan_loop data eps minPoints
    (λ _ s, ∀ i r, metadata s !! i = Some r → cluster r ≠ Noise))
    as (s & Hrun & _ & Hnone).
  - intros i r Hi. simpl in Hi. rewrite list_lookup_fmap in Hi.
    destruct (data !! i); simplify_eq/=. done.
  - intros k s r s' _ Hs Hr Hnone Hstep.
    pose proof (traced_steps data _ _ _ _ Hs (traced_init data eps)) as Htr.
    destruct (scan_step_summary data eps minPoints k r s s' Htr Hr Hstep)
      as (ng & s2 & r2 & _ & Hk & _ & Hef & _ & Hr2 & Hcase).
    destruct Hcase as [[Hlt _]|(_ & Hs' & _)].
    { destruct ng; [by apply elem_of_nil in Hk|simpl in Hlt; lia]. }
    pose proof Hef as (_ & Hlen & _).
    pose proof (esteps_grows _ _ _ _ Hs') as (_ & Hlen' & _).
    pose proof (entered_frame_same_noise _ _ _ Hef) as Hsn.
    pose proof (steps_same_noise _ _ _ (esteps_steps _ _ _ _ Hs')) as Hsn'.
    intros i ri Hi.
    destruct (lookup_lt_is_Some_2 (metadata s) i) as [ri0 Hri0].
    { rewrite <- Hlen. simpl in Hlen'. rewrite <- Hlen'.
      by eapply lookup_lt_Some. }
    destruct (Hsn i ri0 Hri0) as (ri2 & Hri2 & Hiff).
    destruct (Hsn' i ri2 Hri2) as (ri' & Hri' & Hiff').
    assert (ri' = ri) as -> by congruence.
    rewrite Hiff', Hiff. by eapply Hnone.
  - exists s. split; [done|]. intros r [i Hi]%list_elem_of_lookup.
    by eapply Hnone.
Qed.

Lemma no_noise_for_small_minPoints_witness :
  (1 ≤ 1)%Z ∧
  ∃ s, run line3 (1 # 2) 1 = Done (metadata s) s ∧
       ∀ r, r ∈ metadata s → cluster r ≠ Noise.
Proof.
  split; [lia|]. apply (no_noise_for_small_minPoints line3 (1 # 2) 1). lia.
Defined.

(** ** A threshold that is not positive *)

Lemma lt_eps_nonpos d eps : (eps <= 0)%Q → lt_eps d eps = false.
Proof.
  intros Hle. destruct d as [q|]; [|done]. simpl.
  unfold Qlt_bool at 1. by rewrite (proj2 (Qle_bool_iff eps 0) Hle).
Qed.

Lemma filter_none {A} (f : A → bool) l :
  (∀ x, In x l → f x = false) → List.filter f l = [].
Proof.
  induction l as [|x l IH]; intros Hf; [done|]. simpl.
  rewrite (Hf x) by by left. apply IH. intros y Hy. apply Hf. by right.
Qed.

Lemma filter_eqb_seq k n :
  k < n → List.filter (λ t, t =? k) (seq 0 n) = [k].
Proof.
  induction n as [|n IH]; intros Hk; [lia|].
  rewrite filter_seq_S. destruct (decide (k = n)) as [->|Hne].
  - rewrite Nat.eqb_refl.
    rewrite filter_none; [done|].
    intros t Ht%in_seq. apply Nat.eqb_neq. lia.
  - rewrite IH by lia. by rewrite (proj2 (Nat.eqb_neq n k)) by lia.
Qed.

Lemma keeps_nonpos data eps s k :
  (eps <= 0)%Q → traced data eps s → k < length (metadata s) →
  List.filter (keeps (metadata s) k k eps) (seq 0 (length (metadata s))) = [k].
Proof.
  intros Hle Htr Hk. rewrite <- (filter_eqb_seq k (length (metadata s)) Hk).
  apply List.filter_ext_in. intros t Ht%in_seq.
  destruct (lookup_lt_is_Some_2 (metadata s) t ltac:(lia)) as [rt Hrt].
  destruct (lookup_lt_is_Some_2 (metadata s) k Hk) as [rk Hrk].
  unfold keeps. rewrite Hrt, Hrk.
  destruct (neighbors rt !! k) as [b|] eqn:Hb.
  - destruct (traced_entry data eps s t k rt b Htr Hrt Hb) as [Hne ->].
    unfold test. rewrite (proj2 (Nat.eqb_neq t k) Hne).
    destruct (data !! t), (data !! k); try done. by apply lt_eps_nonpos.
  - by rewrite lt_eps_nonpos, orb_false_r.
Qed.

(** X8: with a threshold [eps] that is not positive no two points are
    neighbors, so with [minPoints] above 1 every point is labelled
    noise. *)
Theorem all_noise_for_nonpositive_eps (data : list object) (eps : Q)
    (minPoints : Z) :
  (eps <= 0)%Q →
  (1 < minPoints)%Z →
  ∃ s, run data eps minPoints = Done (metadata s) s ∧
       ∀ r, r ∈ metadata s → cluster r = Noise.
Proof.
  intros Heps Hmin.
  destruct (scan_loop data eps minPoints
    (λ k s, ∀ i r, metadata s !! i = Some r → i < k → cluster r = Noise))
    as (s & Hrun & Hs & Hall).
  - intros i r _ Hi. lia.
  - intros k s r s' _ Hs Hr Hall Hstep.
    pose proof (traced_steps data _ _ _ _ Hs (traced_init data eps)) as Htr.
    pose proof (lookup_lt_Some _ _ _ Hr) as Hk.
    destruct (scan_step_summary data eps minPoints k r s s' Htr Hr Hstep)
      as (ng & s2 & r2 & Hng & _ & Htr' & (_ & Hlen & Hfr) & _ & Hr2 & Hcase).
    replace (length (metadata s))
      with (length (metadata (entered k k r s))) in Hng
      by (simpl; by rewrite length_insert).
    rewrite (keeps_nonpos data eps) in Hng;
      [|done|done|simpl; by rewrite length_insert].
    subst ng. destruct Hcase as [[_ ->]|(Hge & _)]; [|simpl in Hge; lia].
    intros i ri Hi Hlt. destruct (decide (i = k)) as [->|Hne].
    + rewrite put_lookup in Hi by by eapply lookup_lt_Some. by simplify_eq.
    + rewrite put_lookup_ne in Hi by done.
      destruct (lookup_lt_is_Some_2 (metadata s) i) as [ri0 Hri0].
      { rewrite <- Hlen. by eapply lookup_lt_Some. }
      destruct (Hfr i ri0 Hri0) as (ri2 & Hri2 & Hc & _).
      assert (ri2 = ri) as -> by congruence. rewrite Hc.
      eapply Hall; [done|lia].
  - exists s. split; [done|]. intros r [i Hi]%list_elem_of_lookup.
    eapply Hall; [done|]. apply lookup_lt_Some in Hi.
    rewrite (steps_length _ _ _ _ Hs) in Hi. simpl in Hi.
    by rewrite length_map in Hi.
Qed.

Lemma all_noise_for_nonpositive_eps_witness :
  ((0 <= 0)%Q ∧ (1 < 2)%Z) ∧
  ∃ s, run line3 0 2 = Done (metadata s) s ∧
       ∀ r, r ∈ metadata s → cluster r = Noise.
Proof.
  split; [split; [apply Qle_refl|lia]|].
  apply (all_noise_for_nonpositive_eps line3 0 2); [apply Qle_refl|lia].
Defined.

(** ** The order of the scan *)

Lemma step_scans eps lv s s' :
  lv ≤ 1 → step eps lv s s' → scans (trace s') = scans (trace s).
Proof. intros Hlv H. destruct H; try lia; done. Qed.

Lemma steps_scans eps lv s s' :
  lv ≤ 1 → steps eps lv s s' → scans (trace s') = scans (trace s).
Proof.
  intros Hlv. induction 1 as [|s1 s2 s3 H12 _ IH]; [done|].
  rewrite IH. by eapply step_scans.
Qed.

(** X9: the scan enters its callback once for every point, in table
    order, each time for the point at the position it has reached
    (whether or not the point is visited by then). *)
Theorem scan_enters_every_point_once (data : list object) (eps : Q)
    (minPoints : Z) :
  ∃ s, run data eps minPoints = Done (metadata s) s ∧
       rev (scans (trace s)) = (λ k, (k, k)) <$> seq 0 (length data).
Proof.
  destruct (scan_loop data eps minPoints
    (λ k s, scans (trace s) = rev ((λ k, (k, k)) <$> seq 0 k)))
    as (s & Hrun & _ & Hscans).
  - done.
  - intros k s r s' _ _ Hr Hscans Hstep.
    destruct (scan_step_spec eps minPoints k r s Hr)
      as (ng & s2 & r2 & _ & _ & _ & Hst & _ & Hcase).
    assert (scans (trace s2) = (k, k) :: scans (trace s)) as Hs2.
    { by rewrite (steps_scans _ _ _ _ (Nat.le_0_l 1) Hst). }
    rewrite seq_S, fmap_app, rev_app_distr. simpl. rewrite <- Hscans, <- Hs2.
    destruct Hcase as [[_ Heq]|(_ & s'' & Heq & _ & Hs')].
    + assert (s' = put k (with_cluster Noise r2)
                       [ELabel k (cluster r2) Noise] s2) as ->
        by congruence.
      done.
    + assert (s'' = s') as -> by congruence.
      by rewrite (steps_scans _ _ _ _ (le_n 1) Hs').
  - exists s. split; [done|]. by rewrite Hscans, rev_involutive.
Qed.

(** ** The cache of a run *)

Lemma cached_after_event tr p t b :
  ECache p t b ∈ tr → cached_now tr p t ≠ None.
Proof.
  induction tr as [|e tr IH]; [by intros ?%elem_of_nil|].
  intros [<-|Hin]%elem_of_cons.
  - simpl. by rewrite decide_True.
  - destruct e; simpl; auto. case_decide; [done|auto].
Qed.

Lemma one_way data eps later earlier p t :
  well_cached data eps (later ++ EDist p t :: earlier) →
  EDist t p ∉ earlier.
Proof.
  intros Hwc (mid & old & ->)%list_elem_of_split.
  destruct (well_cached_split data eps (length later) later
              (mid ++ EDist t p :: old) p t) as (_ & _ & _ & Hnone);
    [done|done|].
  apply (cached_after_event (mid ++ EDist t p :: old) t p
           (test data eps t p)); [|done].
  replace (later ++ EDist p t :: mid ++ EDist t p :: old)
    with ((later ++ EDist p t :: mid) ++ EDist t p :: old) in Hwc
    by (by rewrite <- app_assoc).
  destruct (well_cached_split data eps _ (later ++ EDist p t :: mid) old t p
              (le_n _) Hwc) as (later' & Hlater & _).
  destruct mid as [|e mid _] using rev_ind.
  - change (later ++ [EDist p t]) with (later ++ [EDist p t]) in Hlater.
    by apply app_inj_tail in Hlater as [_ ?].
  - rewrite app_comm_cons, app_assoc in Hlater.
    apply app_inj_tail in Hlater as [_ ->].
    rewrite elem_of_app. left. rewrite elem_of_app. right. by left.
Qed.

(** X10: in a run the distance of two points is computed in one direction
    only: if [distance(p, t)] is computed at some time, [distance(t, p)]
    never is. *)
Theorem distance_computed_one_way (data : list object) (eps : Q)
    (minPoints : Z) :
  ∃ s, run data eps minPoints = Done (metadata s) s ∧
       ∀ p t, EDist p t ∈ trace s → EDist t p ∉ trace s.
Proof.
  destruct (run_traced data eps minPoints) as (s & Hrun & _ & _ & Hwc).
  exists s. split; [done|]. intros p t Hpt Htp.
  apply list_elem_of_split in Hpt as (later & earlier & Htr).
  rewrite Htr in Hwc, Htp.
  apply elem_of_app in Htp as [Hin|Hin].
  - apply list_elem_of_split in Hin as (l1 & l2 & ->).
    rewrite <- app_assoc in Hwc. simpl in Hwc.
    apply (one_way data eps l1 (l2 ++ EDist p t :: earlier) t p Hwc).
    rewrite elem_of_app. right. by left.
  - apply elem_of_cons in Hin as [Heq|Hin].
    + destruct (well_cached_split data eps _ later earlier p t (le_n _) Hwc)
        as (_ & _ & Hne & _). congruence.
    + by apply (one_way data eps later earlier p t Hwc).
Qed.

(** X11: in the table that a run returns, a cache entry of a point is an
    entry for another point, and it is the outcome of the strict test
    [distance < eps] for the two data, taken from the owner of the cache
    to the other point. *)
Theorem cache_holds_test_outcomes (data : list object) (eps : Q)
    (minPoints : Z) :
  ∃ s, run data eps minPoints = Done (metadata s) s ∧
       ∀ p t r b, metadata s !! p = Some r → neighbors r !! t = Some b →
                  p ≠ t ∧ b = test data eps p t.
Proof.
  destruct (run_traced data eps minPoints) as (s & Hrun & Htr).
  exists s. split; [done|]. intros p t r b. by apply traced_entry.
Qed.

(** X12: on data of one shape (the same keys in the same order, none of
    them [length]), a point is labelled noise in the returned table
    exactly when fewer than [minPoints] points are in its neighborhood (the
    points at a distance below [eps], and the point itself). *)
Theorem noise_iff_sparse (data : list object) (eps : Q) (minPoints : Z) :
  regular data →
  ∃ s, run data eps minPoints = Done (metadata s) s ∧
       ∀ i r, metadata s !! i = Some r →
         (cluster r = Noise ↔
          (Z.of_nat (length (within (map fresh data) eps i)) < minPoints)%Z).
Proof.
  intros Hwf. destruct (run_noise data eps minPoints Hwf) as (s & ? & _ & ?).
  by exists s.
Qed.

Lemma noise_iff_sparse_witness :
  regular line3 ∧
  ∃ s, run line3 (3 # 2) 3 = Done (metadata s) s ∧
       ∀ i r, metadata s !! i = Some r →
         (cluster r = Noise ↔
          (Z.of_nat (length (within (map fresh line3) (3 # 2) i)) < 3)%Z).
Proof.
  split; [apply regular_line3|].
  apply (noise_iff_sparse line3 (3 # 2) 3), regular_line3.
Defined.

(** X13: a neighbor query for a point of the table returns table
    positions in ascending order, each once.  Position [t] is returned
    exactly when the cache of the point at [t] has [true] for [i], or has
    no entry for [i] and [t] is [i] or the distance from the target is
    below [eps]; the target's own cache is not consulted. *)
Theorem neighborhood_reads_other_caches (s : state) (pt i : nat) (eps : Q)
    (rp : point) :
  metadata s !! pt = Some rp →
  ∃ neigh s',
    neighborhood pt i eps s = Done neigh s' ∧
    StronglySorted lt neigh ∧
    ∀ t, t ∈ neigh ↔
         ∃ rt, metadata s !! t = Some rt ∧
               (neighbors rt !! i = Some true ∨
                (neighbors rt !! i = None ∧
                 (t = i ∨ lt_eps (distance (obj rp) (obj rt)) eps = true))).
Proof.
  intros Hrp. pose proof (lookup_lt_Some _ _ _ Hrp) as Hpt.
  destruct (wp_done _ _ _ (neighborhood_spec pt i eps s Hpt))
    as (neigh & s' & Heq & -> & _).
  eexists _, s'. split; [done|]. split.
  { apply StronglySorted_filter, StronglySorted_seq. }
  intros t. rewrite list_elem_of_In, List.filter_In, in_seq. unfold keeps.
  rewrite Hrp. split.
  - intros [Ht Hk]. destruct (metadata s !! t) as [rt|] eqn:Hrt; [|done].
    exists rt. split; [done|].
    destruct (neighbors rt !! i) as [[]|]; [by left|done|right].
    split; [done|]. apply orb_true_iff in Hk as [?%Nat.eqb_eq|?]; auto.
  - intros (rt & Hrt & Hor). rewrite Hrt.
    split; [apply lookup_lt_Some in Hrt; lia|].
    destruct Hor as [->|[-> Hor]]; [done|].
    apply orb_true_iff. destruct Hor as [->|?]; [left|by right].
    apply Nat.eqb_refl.
Qed.

Lemma neighborhood_reads_other_caches_witness :
  metadata (init line3) !! 1 = Some (fresh (pt1 1)) ∧
  ∃ neigh s',
    neighborhood 1 1 (3 # 2) (init line3) = Done neigh s' ∧
    StronglySorted lt neigh ∧
    ∀ t, t ∈ neigh ↔
         ∃ rt, metadata (init line3) !! t = Some rt ∧
               (neighbors rt !! 1 = Some true ∨
                (neighbors rt !! 1 = None ∧
                 (t = 1 ∨ lt_eps (distance (obj (fresh (pt1 1))) (obj rt))
                                 (3 # 2) = true))).
Proof.
  split; [reflexivity|].
  apply (neighborhood_reads_other_caches (init line3) 1 1 (3 # 2)
           (fresh (pt1 1))).
  reflexivity.
Defined.

(** ** How often a distance is computed *)

Lemma dists_cons e tr p t :
  dists (e :: tr) p t =
  (if decide (e = EDist p t) then 1 else 0) + dists tr p t.
Proof.
  unfold dists. simpl. destruct (event_eq_dec e (EDist p t)) as [->|Hne].
  - by rewrite decide_True.
  - by rewrite decide_False.
Qed.

(** A query for the point at [i] computes the distance to any point at
    most once, and no distance from another point. *)
Lemma neighborhood_dists i eps s :
  i < length (metadata s) →
  wp (neighborhood i i eps)
     (λ _ s', row_frame i i s s' ∧
              ∀ p t, dists (trace s') p t ≤
                     dists (trace s) p t + (if decide (p = i) then 1 else 0))
     s.
Proof.
  intros Hi. unfold neighborhood. apply wp_bind. unfold wp at 1, refs.
  eapply wp_mono.
  { apply (wp_each (λ k (_ : list nat) s',
      row_frame i i s s' ∧
      ∀ p t, dists (trace s') p t ≤
             dists (trace s) p t +
             (if decide (p = i ∧ t < k) then 1 else 0))).
    { split; [apply row_frame_refl|]. intros p t. lia. }
    intros j x ng s' Hj (Hfr & Hcount).
    apply lookup_seq_0 in Hj as [-> Hjn].
    destruct (lookup_lt_is_Some_2 (metadata s) j Hjn) as [rt Hrt].
    destruct (lookup_lt_is_Some_2 (metadata s) i Hi) as [rp Hrp].
    pose proof Hfr as (Hcv & Hlen & Hall).
    destruct (Hall j rt Hrt) as (rt' & Hrt' & _ & _ & Hot & _ & Hit).
    destruct (Hall i rp Hrp) as (rp' & Hrp' & _ & _ & Hop & _ & _).
    assert (∀ p t, dists (trace s') p t ≤
                   dists (trace s) p t +
                   (if decide (p = i ∧ t < S j) then 1 else 0)) as Hkeep.
    { intros p t. specialize (Hcount p t).
      destruct (decide (p = i ∧ t < j)) as [[? ?]|?]; [|lia].
      rewrite decide_True by (split; [done|lia]). lia. }
    unfold neighborhood_step. apply wp_bind, (wp_deref _ rt'); [done|].
    destruct (neighbors rt' !! i) as [[]|] eqn:Hc.
    - by apply wp_ret.
    - by apply wp_ret.
    - destruct (j =? i) eqn:Hji; simpl; [by apply wp_ret|].
      apply Nat.eqb_neq in Hji.
      apply wp_bind, (wp_deref _ rp'); [done|]. apply wp_bind, wp_emit.
      assert (∀ b,
         wp (set_neighbor i j b)
           (λ _ s'', row_frame i i s s'' ∧
              ∀ p t, dists (trace s'') p t ≤
                     dists (trace s) p t +
                     (if decide (p = i ∧ t < S j) then 1 else 0))
           (State (metadata s') (cluster_var s') (EDist i j :: trace s')))
        as Hset.
      { intros b. unfold set_neighbor. apply wp_bind.
        eapply wp_update; [done|]. apply wp_emit. simpl. split.
        - by apply (row_frame_cache i i j b s s' rp').
        - intros p t. rewrite !dists_cons. rewrite decide_False by done.
          specialize (Hcount p t).
          destruct (decide (EDist i j = EDist p t)) as [[= <- <-]|Hne].
          + rewrite decide_False in Hcount by lia.
            rewrite decide_True by (split; [done|lia]). lia.
          + specialize (Hkeep p t). simpl. lia. }
      destruct (lt_eps _ _).
      + apply wp_bind. eapply wp_mono; [by apply Hset|].
        intros ? s'' [? ?]. by apply wp_ret.
      + apply wp_bind. eapply wp_mono; [by apply Hset|].
        intros ? s'' [? ?]. by apply wp_ret. }
  simpl. intros ng s' [Hfr Hcount]. split; [done|].
  intros p t. specialize (Hcount p t).
  destruct (decide (p = i ∧ _)) as [[? ?]|?]; [|lia].
  rewrite decide_True by done. lia.
Qed.

Section expansion_by_relation.
Variables (eps : Q) (minPts : Z) (cl : nat).
Variable R : state → state → Prop.
Hypothesis R_refl : ∀ s, R s s.
Hypothesis R_trans : ∀ s1 s2 s3, R s1 s2 → R s2 s3 → R s1 s3.
Hypothesis R_log : ∀ s neigh,
  R s (State (metadata s) (cluster_var s) (EExpand cl neigh :: trace s)).
Hypothesis R_claim : ∀ s ni r,
  metadata s !! ni = Some r → R s (claimed cl ni r s).
Hypothesis R_query : ∀ s ni r ng s3,
  metadata s !! ni = Some r → visited r = false →
  neighborhood ni ni eps (reached cl ni r s) = Done ng s3 →
  R (claimed cl ni r s) s3.

Lemma expand_step_rel neigh ni recurse s :
  ni < length (metadata s) →
  Forall (λ j, j < length (metadata s)) neigh →
  (∀ neigh' s',
     Forall (λ j, j < length (metadata s')) neigh' →
     unvisited (metadata s') < unvisited (metadata s) →
     wp (recurse neigh')
        (λ _ s'', (rtc (estep eps cl) s' s'' ∧
                   unvisited (metadata s'') ≤ unvisited (metadata s')) ∧
                  R s' s'') s') →
  wp (expand_step recurse cl neigh minPts eps ni)
     (λ _ s', (rtc (estep eps cl) s s' ∧
               unvisited (metadata s') ≤ unvisited (metadata s)) ∧
              R s s') s.
Proof using R_refl R_trans R_claim R_query.
  intros Hni Hneigh Hrec.
  destruct (lookup_lt_is_Some_2 _ _ Hni) as [r Hr].
  unfold wp. rewrite (expand_step_unfold _ _ _ _ _ _ r) by done.
  pose proof (claimed_esteps eps cl ni r s Hr) as Hs1.
  pose proof (esteps_grows _ _ _ _ Hs1) as (_ & Hl1 & _).
  assert (visited (stamped cl r) = visited r) as Hv1.
  { unfold stamped. by destruct (falsy (cluster r)). }
  assert (unvisited (metadata (claimed cl ni r s)) = unvisited (metadata s))
    as Hu1.
  { unfold claimed. destruct (falsy (cluster r)); [|done]. simpl.
    by eapply unvisited_insert_same. }
  destruct (visited r) eqn:Hvis.
  { split; [split; [done|lia]|]. by apply R_claim. }
  assert (rtc (estep eps cl) s (reached cl ni r s)) as Hs2.
  { eapply rtc_r; [exact Hs1|]. constructor. by apply claimed_lookup. }
  assert (S (unvisited (metadata (reached cl ni r s)))
          = unvisited (metadata s)) as Hu2.
  { rewrite <- Hu1. unfold reached. simpl.
    apply unvisited_insert_visit; [by apply claimed_lookup|congruence]. }
  assert (length (metadata (reached cl ni r s)) = length (metadata s)) as Hl2.
  { unfold reached. simpl. by rewrite length_insert. }
  destruct (wp_done _ _ _
    (neighborhood_spec ni ni eps (reached cl ni r s) ltac:(lia)))
    as (ng & s3 & Hnb & Hng & Hfr & Hst).
  rewrite Hnb. specialize (Hst eq_refl).
  apply (steps_esteps eps cl) in Hst.
  pose proof (row_frame_unvisited _ _ _ _ Hfr) as Hu3.
  assert (rtc (estep eps cl) s s3) as Hs3 by by etrans.
  assert (R s s3) as HR3.
  { eapply R_trans; [by apply R_claim|]. by eapply R_query. }
  destruct (_ <? _)%Z.
  - assert (Forall (λ j, j < length (metadata s3)) (union neigh ng))
      as Hrange.
    { destruct Hfr as (_ & Hl3 & _). apply union_Forall.
      - by rewrite Hl3, Hl2.
      - rewrite Hl3, Hng. apply neighborhood_in_range. }
    destruct (wp_done _ _ _ (Hrec _ s3 Hrange ltac:(lia)))
      as ([] & s4 & Hrun & [Hs4 Hu4] & HR4).
    rewrite Hrun. split; [split; [by etrans|lia]|]. by eapply R_trans.
  - split; [split; [done|lia]|done].
Qed.

Lemma expandCluster_fuel_rel pt i fuel : ∀ neigh s,
  Forall (λ j, j < length (metadata s)) neigh →
  unvisited (metadata s) < fuel →
  wp (expandCluster_fuel fuel cl pt i neigh minPts eps)
     (λ _ s', (rtc (estep eps cl) s s' ∧
               unvisited (metadata s') ≤ unvisited (metadata s)) ∧
              R s s') s.
Proof using R_refl R_trans R_log R_claim R_query.
  induction fuel as [|fuel IH]; intros neigh s Hneigh Hfuel; [lia|].
  simpl. apply wp_bind, wp_emit.
  set (s0 := State _ _ _).
  assert (rtc (estep eps cl) s s0) as Hs0 by (apply rtc_once; constructor).
  eapply wp_mono.
  { apply (wp_each (λ _ _ s',
      (rtc (estep eps cl) s s' ∧
       unvisited (metadata s') ≤ unvisited (metadata s)) ∧ R s s')).
    { split; [done|]. apply R_log. }
    intros j ni [] s1 Hj [[Hs1 Hu1] HR1].
    pose proof (esteps_grows _ _ _ _ Hs1) as (_ & Hl1 & _).
    eapply wp_mono.
    - apply (expand_step_rel neigh ni).
      + rewrite Hl1. by eapply (Forall_lookup_1 _ _ _ _ Hneigh).
      + by rewrite Hl1.
      + intros neigh' s' Hn' Hu'. apply IH; [done|lia].
    - intros ? s2 [[Hs2 Hu2] HR2].
      split; [split; [by etrans|lia]|]. by eapply R_trans. }
  done.
Qed.
End expansion_by_relation.

Lemma unseen_put_same p q r r' es s :
  metadata s !! p = Some r → visited r' = visited r →
  unseen (put p r' es s) q = unseen s q.
Proof.
  intros Hp Hv. unfold unseen. destruct (decide (q = p)) as [->|Hne].
  - rewrite put_lookup by by eapply lookup_lt_Some. by rewrite Hp, Hv.
  - by rewrite put_lookup_ne.
Qed.

Lemma pays_refl s : pays s s.
Proof. split; [done|]. intros p t. lia. Qed.

Lemma pays_trans s1 s2 s3 : pays s1 s2 → pays s2 s3 → pays s1 s3.
Proof.
  intros [Hl1 H1] [Hl2 H2]. split; [congruence|].
  intros p t. specialize (H1 p t). specialize (H2 p t). lia.
Qed.

Lemma pays_claimed cl ni r s :
  metadata s !! ni = Some r → pays s (claimed cl ni r s).
Proof.
  intros Hr. unfold claimed. destruct (falsy (cluster r)); [|apply pays_refl].
  split; [simpl; by rewrite length_insert|]. intros p t.
  rewrite (unseen_put_same ni p r) by done. simpl.
  rewrite dists_cons, decide_False by done. lia.
Qed.

Lemma row_frame_unseen pt i s s' p :
  row_frame pt i s s' → unseen s' p = unseen s p.
Proof.
  intros (_ & Hlen & Hall). unfold unseen.
  destruct (metadata s !! p) as [r|] eqn:Hp.
  - destruct (Hall p r Hp) as (r' & -> & -> & _). done.
  - apply lookup_ge_None in Hp. rewrite <- Hlen in Hp.
    apply lookup_ge_None in Hp. by rewrite Hp.
Qed.

(** Setting the flag of the point at [ni] and querying its neighborhood
    is paid for by the flag if the point was not visited. *)
Lemma pays_query eps ni r0 es s ng s3 :
  metadata s !! ni = Some r0 →
  (∀ p t, dists (es ++ trace s) p t = dists (trace s) p t) →
  neighborhood ni ni eps (put ni (with_visited true r0) es s) = Done ng s3 →
  length (metadata s3) = length (metadata s) ∧
  ∀ p t, dists (trace s3) p t + unseen s3 p ≤
         dists (trace s) p t + (if decide (p = ni) then 1 else unseen s p).
Proof.
  intros Hr Hes Hnb. pose proof (lookup_lt_Some _ _ _ Hr) as Hni.
  set (s2 := put ni (with_visited true r0) es s) in *.
  assert (length (metadata s2) = length (metadata s)) as Hl2.
  { subst s2. simpl. by rewrite length_insert. }
  destruct (wp_done _ _ _ (neighborhood_dists ni eps s2 ltac:(lia)))
    as (ng' & s3' & Hnb' & Hfr & Hcount).
  assert (s3' = s3) as -> by congruence.
  split; [destruct Hfr as (_ & -> & _); done|].
  intros p t. specialize (Hcount p t).
  rewrite (row_frame_unseen _ _ _ _ p Hfr).
  assert (dists (trace s2) p t = dists (trace s) p t) as Hd by apply Hes.
  rewrite Hd in Hcount.
  destruct (decide (p = ni)) as [->|Hne].
  - assert (unseen s2 ni = 0) as ->; [|lia].
    unfold unseen. subst s2. by rewrite put_lookup.
  - assert (unseen s2 p = unseen s p) as ->; [|lia].
    unfold unseen. subst s2. by rewrite put_lookup_ne.
Qed.

Lemma pays_reached eps cl s ni r ng s3 :
  metadata s !! ni = Some r → visited r = false →
  neighborhood ni ni eps (reached cl ni r s) = Done ng s3 →
  pays (claimed cl ni r s) s3.
Proof.
  intros Hr Hv Hnb. pose proof (claimed_lookup cl ni r s Hr) as Hr1.
  destruct (pays_query eps ni (stamped cl r) [EVisit ni] (claimed cl ni r s)
              ng s3 Hr1) as [Hlen Hcount]; [|exact Hnb|].
  { intros p t. simpl. by rewrite dists_cons, decide_False by done. }
  split; [done|]. intros p t. specialize (Hcount p t).
  destruct (decide (p = ni)) as [->|Hne]; [|done].
  assert (unseen (claimed cl ni r s) ni = 1) as ->; [|done].
  unfold unseen. rewrite Hr1. unfold stamped.
  destruct (falsy (cluster r)); simpl; by rewrite Hv.
Qed.

Lemma pays_log cl s neigh :
  pays s (State (metadata s) (cluster_var s) (EExpand cl neigh :: trace s)).
Proof.
  split; [done|]. intros p t. simpl.
  rewrite dists_cons, decide_False by done. done.
Qed.

Lemma expandCluster_pays eps minPts cl pt i neigh s s' :
  Forall (λ j, j < length (metadata s)) neigh →
  expandCluster cl pt i neigh minPts eps s = Done tt s' →
  pays s s'.
Proof.
  intros Hneigh Hrun.
  destruct (wp_done _ _ _
    (expandCluster_fuel_rel eps minPts cl pays pays_refl pays_trans
       (pays_log cl) (λ s0 ni r, pays_claimed cl ni r s0)
       (pays_reached eps cl)
       pt i (S (length (metadata s))) neigh s Hneigh
       ltac:(pose proof (unvisited_le (metadata s)); lia)))
    as ([] & s'' & Hrun' & _ & Hpays).
  unfold expandCluster in Hrun. by assert (s'' = s') as -> by congruence.
Qed.

(** X14: in a run the distance from a point to another point is computed
    at most twice: once when the point is visited by an expansion and
    once when the scan comes to it. *)
Theorem distance_computed_at_most_twice (data : list object) (eps : Q)
    (minPoints : Z) :
  ∃ s, run data eps minPoints = Done (metadata s) s ∧
       ∀ p t, dists (trace s) p t ≤ 2.
Proof.
  destruct (scan_loop data eps minPoints
    (λ k s, ∀ p t, dists (trace s) p t + unseen s p
                   + (if decide (k ≤ p) then 1 else 0) ≤ 2))
    as (s & Hrun & _ & Hbound).
  - intros p t. simpl. unfold unseen. simpl. rewrite list_lookup_fmap.
    destruct (data !! p); simpl; lia.
  - intros k s r s' _ _ Hr Hinv Hstep.
    destruct (scan_step_spec eps minPoints k r s Hr)
      as (ng & s2 & r2 & Hnb & Hng & Hfr & _ & Hr2 & Hcase).
    destruct (pays_query eps k r [EVisit k; EScan k k (visited r)] s ng s2 Hr)
      as [Hlen Hcount]; [|exact Hnb|].
    { intros p t. simpl. by rewrite !dists_cons, !decide_False by done. }
    assert (∀ p t, dists (trace s2) p t + unseen s2 p
                   + (if decide (S k ≤ p) then 1 else 0) ≤ 2) as H2.
    { intros p t. specialize (Hcount p t). specialize (Hinv p t).
      destruct (decide (p = k)) as [->|Hne].
      - rewrite decide_True in Hinv by done.
        rewrite decide_False by lia. lia.
      - destruct (decide (k ≤ p)), (decide (S k ≤ p)); lia. }
    intros p t. specialize (H2 p t).
    destruct Hcase as [[_ Heq]|(_ & s'' & Heq & Hex & _)].
    + assert (s' = put k (with_cluster Noise r2)
                       [ELabel k (cluster r2) Noise] s2) as ->
        by congruence.
      rewrite (unseen_put_same k p r2) by done. simpl.
      rewrite dists_cons, decide_False by done. lia.
    + assert (s'' = s') as -> by congruence.
      assert (Forall (λ j, j < length (metadata (bumped s2))) ng) as Hrange.
      { simpl. destruct Hfr as (_ & -> & _). rewrite Hng.
        replace (length (metadata s))
          with (length (metadata (entered k k r s)))
          by (simpl; by rewrite length_insert).
        apply neighborhood_in_range. }
      destruct (expandCluster_pays _ _ _ _ _ _ _ _ Hrange Hex) as [_ Hpay].
      specialize (Hpay p t). simpl in Hpay.
      rewrite dists_cons, decide_False in Hpay by done.
      change (unseen (bumped s2) p) with (unseen s2 p) in Hpay. lia.
  - exists s. split; [done|]. intros p t. specialize (Hbound p t). lia.
Qed.

(** ** What replaces a label *)

Lemma fair_write_step eps lv s s' :
  step eps lv s s' → Forall fair_write (trace s) → Forall fair_write (trace s').
Proof.
  intros H Hall. destruct H; simpl; repeat (constructor; simpl; auto).
Qed.

(** X15: in a run a label that is written replaces [false] (or 0), or it
    is the noise marker: no cluster identifier is replaced by another
    cluster identifier, and the label that a write records as replaced is
    the label that the point has at that moment. *)
Theorem identifiers_never_replace_identifiers (data : list object) (eps : Q)
    (minPoints : Z) :
  ∃ s, run data eps minPoints = Done (metadata s) s ∧
       ∀ later earlier p old new,
         trace s = later ++ ELabel p old new :: earlier →
         old = label_now earlier p ∧ (falsy old = true ∨ new = Noise).
Proof.
  destruct (run_steps data eps minPoints) as (s & Hrun & Hs).
  exists s. split; [done|]. intros later earlier p old new Htr.
  pose proof (traced_steps data _ _ _ _ Hs (traced_init data eps))
    as (_ & Hlab & _).
  assert (Forall fair_write (trace s)) as Hfair.
  { eapply (steps_invariant eps 2 (λ s, Forall fair_write (trace s)));
      [|exact Hs|constructor].
    intros s1 s2. apply fair_write_step. }
  rewrite Htr in Hlab, Hfair. split.
  - apply well_labelled_suffix in Hlab. by destruct Hlab as [[? _] _].
  - apply Forall_app in Hfair as [_ Hfair].
    by apply Forall_cons in Hfair as [? _].
Qed.

(** ** k-means: the nearest mean *)

Lemma Qlt_bool_false a b : Qlt_bool a b = false → (b <= a)%Q.
Proof.
  unfold Qlt_bool. rewrite negb_false_iff. apply Qle_bool_iff.
Qed.

Lemma Qlt_bool_true a b : Qlt_bool a b = true → (a < b)%Q.
Proof.
  unfold Qlt_bool. rewrite negb_true_iff. intros H.
  apply Qnot_le_lt. intros Hle. apply Qle_bool_iff in Hle. congruence.
Qed.

Lemma least_so_far_step {A} (f : A → number) l value result :
  KMeans.least_so_far f l result →
  KMeans.least_so_far f (l ++ [value])
    (if KMeans.below (f value) (snd <$> result)
     then Some (value, f value) else result).
Proof.
  intros Hinv. destruct (f value) as [q|] eqn:Hf.
  - destruct result as [[x c]|]; simpl in *.
    + destruct Hinv as (k & q' & -> & Hk & Hx & Hmin). simpl.
      destruct (Qlt_bool q q') eqn:Hlt; simpl.
      * apply Qlt_bool_true in Hlt. exists (length l), q.
        split; [done|]. split; [|split; [done|]].
        { by rewrite lookup_app_r, Nat.sub_diag by lia. }
        intros j y qy Hj Hy.
        destruct (decide (j < length l)) as [Hjl|Hjl].
        -- rewrite lookup_app_l in Hj by done.
           destruct (Hmin j y qy Hj Hy) as [Hle _].
           split; [|intros _]; [apply Qlt_le_weak|];
             eapply Qlt_le_trans; eauto.
        -- apply lookup_lt_Some in Hj as Hb. rewrite length_app in Hb.
           simpl in Hb. assert (j = length l) as -> by lia.
           rewrite lookup_app_r, Nat.sub_diag in Hj by lia.
           simpl in Hj. injection Hj as <-.
           rewrite Hf in Hy. injection Hy as <-.
           split; [apply Qle_refl|lia].
      * apply Qlt_bool_false in Hlt. exists k, q'.
        split; [done|]. apply lookup_lt_Some in Hk as Hkl.
        split; [|split; [done|]].
        { by rewrite lookup_app_l. }
        intros j y qy Hj Hy.
        destruct (decide (j < length l)) as [Hjl|Hjl].
        -- rewrite lookup_app_l in Hj by done. eauto.
        -- apply lookup_lt_Some in Hj as Hb. rewrite length_app in Hb.
           simpl in Hb. assert (j = length l) as -> by lia.
           rewrite lookup_app_r, Nat.sub_diag in Hj by lia.
           simpl in Hj. injection Hj as <-.
           rewrite Hf in Hy. injection Hy as <-.
           split; [done|lia].
    + exists (length l), q. split; [done|]. split; [|split; [done|]].
      { by rewrite lookup_app_r, Nat.sub_diag by lia. }
      intros j y qy Hj Hy.
      destruct (decide (j < length l)) as [Hjl|Hjl].
      * rewrite lookup_app_l in Hj by done.
        apply list_elem_of_lookup_2 in Hj. apply Hinv in Hj. congruence.
      * apply lookup_lt_Some in Hj as Hb. rewrite length_app in Hb.
        simpl in Hb. assert (j = length l) as -> by lia.
        rewrite lookup_app_r, Nat.sub_diag in Hj by lia.
        simpl in Hj. injection Hj as <-.
        rewrite Hf in Hy. injection Hy as <-.
        split; [apply Qle_refl|lia].
  - simpl. destruct result as [[x c]|]; simpl in *.
    + destruct Hinv as (k & q' & -> & Hk & Hx & Hmin).
      exists k, q'. split; [done|]. apply lookup_lt_Some in Hk as Hkl.
      split; [|split; [done|]].
      { by rewrite lookup_app_l. }
      intros j y qy Hj Hy.
      destruct (decide (j < length l)) as [Hjl|Hjl].
      * rewrite lookup_app_l in Hj by done. eauto.
      * apply lookup_lt_Some in Hj as Hb. rewrite length_app in Hb.
        simpl in Hb. assert (j = length l) as -> by lia.
        rewrite lookup_app_r, Nat.sub_diag in Hj by lia.
        simpl in Hj. injection Hj as <-. congruence.
    + intros y [Hy| ->%list_elem_of_singleton]%elem_of_app; auto.
Qed.

Lemma min_from_spec {A} (f : A → number) l : ∀ pre result,
  KMeans.least_so_far f pre result →
  KMeans.least_so_far f (pre ++ l) (KMeans.min_from f l result).
Proof.
  induction l as [|value l IH]; intros pre result Hinv; simpl.
  - by rewrite app_nil_r.
  - replace (pre ++ value :: l) with ((pre ++ [value]) ++ l)
      by (by rewrite <- app_assoc).
    apply IH. by apply least_so_far_step.
Qed.

Lemma min_by_spec {A} (f : A → number) l :
  match KMeans.min_by f l with
  | Some x => ∃ k q, KMeans.first_least f l k x q
  | None => ∀ y, y ∈ l → f y = NaN
  end.
Proof.
  unfold KMeans.min_by.
  pose proof (min_from_spec f l [] None) as H. simpl in H.
  destruct (KMeans.min_from f l None) as [[x c]|]; simpl.
  - destruct H as (k & q & _ & H); [by intros y ?%elem_of_nil|]. eauto.
  - apply H. by intros y ?%elem_of_nil.
Qed.

Lemma lookup_zip_seq {A} (l : list A) k x i :
  zip l (seq 0 (length l)) !! k = Some (x, i) ↔ l !! k = Some x ∧ i = k.
Proof.
  split.
  - intros [Hl Hj]%lookup_zip_Some.
    apply lookup_seq in Hj as [-> _]. done.
  - intros [Hl ->]. apply lookup_zip_Some. split; [done|].
    apply lookup_seq. split; [done|]. by eapply lookup_lt_Some.
Qed.

Lemma first_least_zip {M} (f : M → number) (means : list M) k x q :
  KMeans.first_least (λ mean : M * nat, f mean.1)
    (zip means (seq 0 (length means))) k x q →
  x.2 = k ∧ KMeans.first_least f means k x.1 q.
Proof.
  destruct x as [mean i]. intros (Hk & Hx & Hmin).
  apply lookup_zip_seq in Hk as [Hk ->]. split; [done|].
  split; [done|]. split; [done|]. intros j y qy Hj Hy.
  apply (Hmin j (y, j) qy); [|done]. by apply lookup_zip_seq.
Qed.

Lemma stranded_zip {M} (f : M → number) (means : list M) :
  (∀ y, y ∈ zip means (seq 0 (length means)) → f y.1 = NaN) →
  ∀ mean, mean ∈ means → f mean = NaN.
Proof.
  intros H mean [k Hk]%list_elem_of_lookup.
  apply (H (mean, k)). apply list_elem_of_lookup. exists k.
  by apply lookup_zip_seq.
Qed.

(** The callback of [assignClusters] on a table with one cluster per mean:
    it fails exactly on a stranded datum, and otherwise appends the index
    to the cluster of the nearest mean. *)
Lemma assign_spec means datum index clusters :
  length clusters = length means →
  match KMeans.assign means datum index clusters with
  | Some clusters' =>
      ∃ c cluster mean q,
        KMeans.first_least (KMeans.distance datum) means c mean q ∧
        clusters !! c = Some cluster ∧
        clusters' = <[c := cluster ++ [index]]> clusters
  | None => KMeans.stranded means datum
  end.
Proof.
  intros Hlen. unfold KMeans.assign.
  pose proof (min_by_spec
                (λ mean : KMeans.mean * nat, KMeans.distance datum mean.1)
                (zip means (seq 0 (length means)))) as H.
  destruct (KMeans.min_by _ _) as [x|].
  - destruct H as (k & q & H). apply first_least_zip in H as [Hx H].
    rewrite Hx. destruct H as (Hk & Hq & Hmin).
    destruct (clusters !! k) as [cluster|] eqn:Hc.
    + exists k, cluster, x.1, q. done.
    + apply lookup_ge_None in Hc. apply lookup_lt_Some in Hk. lia.
  - exact (stranded_zip (KMeans.distance datum) means H).
Qed.

Lemma first_least_not_stranded means datum c mean q :
  KMeans.first_least (KMeans.distance datum) means c mean q →
  ¬ KMeans.stranded means datum.
Proof.
  intros (Hc & Hq & _) H. apply list_elem_of_lookup_2 in Hc.
  apply H in Hc. congruence.
Qed.

Lemma concat_insert_snoc (cl : list (list nat)) c cluster n :
  cl !! c = Some cluster →
  concat (<[c := cluster ++ [n]]> cl) ≡ₚ concat cl ++ [n].
Proof.
  revert c. induction cl as [|x cl IH]; intros [|c] Hc; simplify_eq/=.
  - rewrite <- !app_assoc. apply Permutation_app_head.
    apply Permutation_app_comm.
  - rewrite IH by done. by rewrite app_assoc.
Qed.

Lemma StronglySorted_snoc (l : list nat) n :
  StronglySorted lt l → Forall (λ i, i < n) l →
  StronglySorted lt (l ++ [n]).
Proof.
  induction 1 as [|x l Hl IH Hx]; intros Hn; simpl.
  - repeat constructor.
  - apply Forall_cons in Hn as [Hxn Hn]. constructor; [by apply IH|].
    apply Forall_app. split; [done|]. by constructor.
Qed.

Lemma assigned_step data means n cl datum cl' :
  data !! n = Some datum →
  KMeans.assigned data means n cl →
  KMeans.assign means datum n cl = Some cl' →
  KMeans.assigned data means (S n) cl'.
Proof.
  intros Hd (Hlen & Hperm & Hsort & Hnear) Hcl.
  pose proof (assign_spec means datum n cl Hlen) as H.
  rewrite Hcl in H. destruct H as (c & cluster & mean & q & Hfl & Hc & ->).
  split; [by rewrite length_insert|]. split; [|split].
  - rewrite concat_insert_snoc by done. rewrite Hperm.
    by rewrite seq_S.
  - apply Forall_insert; [done|].
    apply StronglySorted_snoc.
    + by eapply Forall_lookup_1 in Hsort.
    + apply Forall_forall. intros i Hi.
      assert (i ∈ seq 0 n) as Hin.
      { rewrite <- Hperm. apply list_elem_of_In, in_concat.
        exists cluster. split; apply list_elem_of_In; [|done].
        by eapply list_elem_of_lookup_2. }
      apply elem_of_seq in Hin. lia.
  - intros i d Hi Hdi. destruct (decide (i = n)) as [->|Hne].
    + assert (d = datum) as -> by congruence.
      exists c, (cluster ++ [n]), mean, q. split; [|split; [|done]].
      * apply list_lookup_insert_eq. by eapply lookup_lt_Some.
      * apply elem_of_app. right. by apply list_elem_of_singleton.
    + destruct (Hnear i d ltac:(lia) Hdi)
        as (c' & cluster' & mean' & q' & Hc' & Hin & Hfl').
      destruct (decide (c' = c)) as [->|Hcc].
      * exists c, (cluster ++ [n]), mean', q'. split; [|split; [|done]].
        -- apply list_lookup_insert_eq. by eapply lookup_lt_Some.
        -- apply elem_of_app. left. congruence.
      * exists c', cluster', mean', q'. split; [|done].
        by rewrite list_lookup_insert_ne.
Qed.

Lemma assign_from_assigned full means : ∀ rest n cl cl',
  n ≤ length full → drop n full = rest →
  KMeans.assigned full means n cl →
  KMeans.assign_from means rest n cl = Some cl' →
  KMeans.assigned full means (length full) cl'.
Proof.
  induction rest as [|datum rest IH]; intros n cl cl' Hn Hdrop Hinv Hcl;
    simpl in Hcl.
  - injection Hcl as <-. apply drop_nil_inv in Hdrop.
    assert (n = length full) as -> by lia. done.
  - destruct (KMeans.assign means datum n cl) as [cl1|] eqn:H1; [|done].
    assert (full !! n = Some datum) as Hd.
    { rewrite <- (Nat.add_0_r n), <- lookup_drop, Hdrop. done. }
    apply (IH (S n) cl1 cl'); [|
      |by eapply assigned_step|done].
    + by apply lookup_lt_Some in Hd.
    + erewrite drop_S in Hdrop by done. by injection Hdrop.
Qed.

Lemma assigned_empty data means :
  KMeans.assigned data means 0 (replicate (length means) []).
Proof.
  split; [by rewrite length_replicate|]. split; [|split].
  - induction (length means) as [|n IH]; simpl; done.
  - apply Forall_replicate. constructor.
  - intros i datum Hi. lia.
Qed.

Lemma assignClusters_assigned data means cl :
  KMeans.assignClusters data means = Some cl →
  KMeans.assigned data means (length data) cl.
Proof.
  intros H.
  apply (assign_from_assigned data means data 0
           (replicate (length means) []) cl); [lia|done| |done].
  apply assigned_empty.
Qed.

Lemma assign_length means datum index cl cl' :
  length cl = length means →
  KMeans.assign means datum index cl = Some cl' →
  length cl' = length means.
Proof.
  intros Hlen H. pose proof (assign_spec means datum index cl Hlen) as Hs.
  rewrite H in Hs. destruct Hs as (c & cluster & mean & q & _ & _ & ->).
  by rewrite length_insert.
Qed.

Lemma assign_from_fails means : ∀ rest n cl,
  length cl = length means →
  KMeans.assign_from means rest n cl = None ↔
  ∃ datum, datum ∈ rest ∧ KMeans.stranded means datum.
Proof.
  induction rest as [|datum rest IH]; intros n cl Hlen; simpl.
  - split; [done|]. by intros (d & ?%elem_of_nil & _).
  - pose proof (assign_spec means datum n cl Hlen) as Hs.
    destruct (KMeans.assign means datum n cl) as [cl1|] eqn:H1.
    + rewrite (IH (S n) cl1) by (by eapply assign_length).
      destruct Hs as (c & cluster & mean & q & Hfl & _).
      apply first_least_not_stranded in Hfl.
      split; intros (d & Hd & Hst); exists d.
      * split; [by apply elem_of_cons; right|done].
      * apply elem_of_cons in Hd as [->|Hd]; done.
    + split; [|done]. intros _. exists datum.
      split; [by apply elem_of_cons; left|done].
Qed.

(** X16: when [assignClusters] returns, there is one cluster per mean, the
    clusters together hold every index of the data exactly once, and every
    cluster lists its indices in ascending order. *)
Theorem assignClusters_partitions_indices (data : list object)
    (means : list KMeans.mean) (cl : list (list nat)) :
  KMeans.assignClusters data means = Some cl →
  length cl = length means ∧
  concat cl ≡ₚ seq 0 (length data) ∧
  Forall (StronglySorted lt) cl.
Proof.
  intros (Hlen & Hperm & Hsort & _)%assignClusters_assigned. done.
Qed.

Lemma assignClusters_partitions_indices_witness :
  KMeans.assignClusters line3 (map KMeans.as_mean [pt1 0; pt1 2]) =
    Some [[0; 1]; [2]] ∧
  (length [[0; 1]; [2]] = length (map KMeans.as_mean [pt1 0; pt1 2]) ∧
   concat [[0; 1]; [2]] ≡ₚ seq 0 (length line3) ∧
   Forall (StronglySorted lt) [[0; 1]; [2]]).
Proof.
  split; [reflexivity|].
  apply (assignClusters_partitions_indices line3
           (map KMeans.as_mean [pt1 0; pt1 2])).
  reflexivity.
Defined.

(** X17: when [assignClusters] returns, every datum is in the cluster of a
    mean at the least distance from it, and of the first such mean: no
    mean is nearer, and every mean of a lower position is farther.  A
    mean whose distance is [NaN] is out of the comparison. *)
Theorem assignClusters_picks_nearest_mean (data : list object)
    (means : list KMeans.mean) (cl : list (list nat)) (i : nat)
    (datum : object) :
  KMeans.assignClusters data means = Some cl →
  data !! i = Some datum →
  ∃ c cluster mean q,
    cl !! c = Some cluster ∧ i ∈ cluster ∧
    means !! c = Some mean ∧ KMeans.distance datum mean = Sqrt q ∧
    ∀ j m qj, means !! j = Some m → KMeans.distance datum m = Sqrt qj →
              (q <= qj)%Q ∧ (j < c → (q < qj)%Q).
Proof.
  intros (_ & _ & _ & Hnear)%assignClusters_assigned Hd.
  destruct (Hnear i datum) as (c & cluster & mean & q & Hc & Hi & Hfl);
    [by eapply lookup_lt_Some|done|].
  exists c, cluster, mean, q. destruct Hfl as (? & ? & ?). done.
Qed.

Lemma assignClusters_picks_nearest_mean_witness :
  KMeans.assignClusters line3 (map KMeans.as_mean [pt1 0; pt1 2]) =
    Some [[0; 1]; [2]] ∧
  line3 !! 1 = Some (pt1 1) ∧
  ∃ c cluster mean q,
    [[0; 1]; [2]] !! c = Some cluster ∧ 1 ∈ cluster ∧
    map KMeans.as_mean [pt1 0; pt1 2] !! c = Some mean ∧
    KMeans.distance (pt1 1) mean = Sqrt q ∧
    ∀ j m qj, map KMeans.as_mean [pt1 0; pt1 2] !! j = Some m →
              KMeans.distance (pt1 1) m = Sqrt qj →
              (q <= qj)%Q ∧ (j < c → (q < qj)%Q).
Proof.
  split; [reflexivity|]. split; [reflexivity|].
  apply (assignClusters_picks_nearest_mean line3
           (map KMeans.as_mean [pt1 0; pt1 2]));
    reflexivity.
Defined.

(** X18: [assignClusters] ends in a TypeError when some datum has no
    number as distance to any mean: each of these distances is [NaN], or
    there is no mean at all. *)
Theorem assignClusters_fails_on_stranded (data : list object)
    (means : list KMeans.mean) (datum : object) :
  datum ∈ data →
  (∀ mean, mean ∈ means → KMeans.distance datum mean = NaN) →
  KMeans.assignClusters data means = None.
Proof.
  intros Hd Hst. unfold KMeans.assignClusters. apply assign_from_fails.
  - by rewrite length_replicate.
  - by exists datum.
Qed.

Lemma assignClusters_fails_on_stranded_witness :
  pt2 1 1 ∈ [pt1 0; pt2 1 1] ∧
  (∀ mean, mean ∈ map KMeans.as_mean [pt1 0; pt1 2] →
           KMeans.distance (pt2 1 1) mean = NaN) ∧
  KMeans.assignClusters [pt1 0; pt2 1 1] (map KMeans.as_mean [pt1 0; pt1 2])
    = None.
Proof.
  assert (∀ mean, mean ∈ map KMeans.as_mean [pt1 0; pt1 2] →
                  KMeans.distance (pt2 1 1) mean = NaN) as Hst.
  { intros mean Hin. simpl in Hin.
    repeat (apply elem_of_cons in Hin as [->|Hin]; [reflexivity|]).
    by apply elem_of_nil in Hin. }
  assert (pt2 1 1 ∈ [pt1 0; pt2 1 1]) as Hin.
  { apply elem_of_cons. right. apply elem_of_cons. by left. }
  split; [exact Hin|]. split; [exact Hst|].
  exact (assignClusters_fails_on_stranded [pt1 0; pt2 1 1]
           (map KMeans.as_mean [pt1 0; pt1 2]) (pt2 1 1) Hin Hst).
Defined.

(** ** k-means: the new means *)

Lemma keys_set_prop {V} k (v : V) o :
  keys (KMeans.set_prop k v o) =
  if decide (k ∈ keys o) then keys o else keys o ++ [k].
Proof.
  unfold keys. induction o as [|[k0 w] o IH].
  - simpl. destruct (decide (k ∈ [])) as [Hin|_]; [|done].
    by apply elem_of_nil in Hin.
  - cbn [KMeans.set_prop map fst].
    destruct (decide (k ∈ k0 :: map fst o)) as [Hin|Hnin];
      destruct (decide (k0 = k)) as [->|Hne]; simpl.
    + done.
    + rewrite IH. apply elem_of_cons in Hin as [->|Hin]; [done|].
      by destruct (decide (k ∈ map fst o)).
    + exfalso. apply Hnin. by apply elem_of_cons; left.
    + rewrite IH. destruct (decide (k ∈ map fst o)) as [Hin|_]; [|done].
      exfalso. apply Hnin. by apply elem_of_cons; right.
Qed.

Lemma set_prop_NoDup {V} k (v : V) o :
  NoDup (keys o) → NoDup (keys (KMeans.set_prop k v o)).
Proof.
  intros Hnd. rewrite keys_set_prop.
  destruct (decide (k ∈ keys o)) as [Hin|Hnin]; [done|].
  apply NoDup_app. split; [done|]. split; [|apply NoDup_singleton].
  intros x Hx ->%list_elem_of_singleton. done.
Qed.

Lemma set_prop_elem {V} k (v : V) o k' :
  k' ∈ keys (KMeans.set_prop k v o) ↔ k' = k ∨ k' ∈ keys o.
Proof.
  rewrite keys_set_prop. destruct (decide (k ∈ keys o)) as [Hin|Hnin].
  - split; [by right|]. by intros [->|?].
  - rewrite elem_of_app, list_elem_of_singleton. tauto.
Qed.

Lemma set_prop_entries {V} k (v : V) o kv :
  kv ∈ KMeans.set_prop k v o → kv = (k, v) ∨ kv ∈ o.
Proof.
  induction o as [|[k0 w] o IH]; simpl.
  - intros ->%list_elem_of_singleton. by left.
  - destruct (decide (k0 = k)) as [->|Hne].
    + intros [->|Hin]%elem_of_cons; [by left|].
      right. by apply elem_of_cons; right.
    + intros [->|Hin]%elem_of_cons.
      * right. by apply elem_of_cons; left.
      * destruct (IH Hin) as [->|Ho]; [by left|].
        right. by apply elem_of_cons; right.
Qed.

Lemma add_values_NoDup len es : ∀ memo,
  NoDup (keys memo) →
  NoDup (keys (fold_left (KMeans.add_value len) es memo)).
Proof.
  induction es as [|[k v] es IH]; intros memo Hnd; simpl; [done|].
  apply IH. by apply set_prop_NoDup.
Qed.

Lemma add_values_elem len es k : ∀ memo,
  k ∈ keys (fold_left (KMeans.add_value len) es memo) ↔
  k ∈ keys memo ∨ k ∈ keys es.
Proof.
  induction es as [|[k0 v] es IH]; intros memo; simpl.
  - split; [by left|]. by intros [?|?%elem_of_nil].
  - rewrite IH. unfold KMeans.add_value. simpl.
    rewrite set_prop_elem, elem_of_cons. tauto.
Qed.

Lemma add_data_NoDup data len cluster : ∀ memo,
  NoDup (keys memo) →
  NoDup (keys (fold_left (KMeans.add_datum data len) cluster memo)).
Proof.
  induction cluster as [|i cluster IH]; intros memo Hnd; simpl; [done|].
  apply IH. unfold KMeans.add_datum.
  destruct (data !! i); [by apply add_values_NoDup|done].
Qed.

Lemma centroid_NoDup data cluster :
  NoDup (keys (KMeans.centroid data cluster)).
Proof. apply add_data_NoDup. constructor. Qed.

Lemma add_data_elem data len k cluster : ∀ memo,
  k ∈ keys (fold_left (KMeans.add_datum data len) cluster memo) ↔
  k ∈ keys memo ∨
  ∃ i datum, i ∈ cluster ∧ data !! i = Some datum ∧
             k ∈ keys (elements datum).
Proof.
  induction cluster as [|i cluster IH]; intros memo; simpl.
  - split; [by left|]. by intros [?|(i & d & ?%elem_of_nil & _)].
  - rewrite IH. unfold KMeans.add_datum.
    destruct (data !! i) as [datum|] eqn:Hd.
    + rewrite add_values_elem. split.
      * intros [[?|Hk]|(j & d & Hj & Hdj & Hk)]; [by left| |].
        -- right. exists i, datum. split; [by apply elem_of_cons; left|done].
        -- right. exists j, d. split; [by apply elem_of_cons; right|done].
      * intros [?|(j & d & [->|Hj]%elem_of_cons & Hdj & Hk)].
        -- by left; left.
        -- left; right.
           by pose proof (eq_trans (eq_sym Hdj) Hd) as [= ->].
        -- right. by exists j, d.
    + split.
      * intros [?|(j & d & Hj & Hdj & Hk)]; [by left|].
        right. exists j, d. split; [by apply elem_of_cons; right|done].
      * intros [?|(j & d & [->|Hj]%elem_of_cons & Hdj & Hk)].
        -- by left.
        -- by pose proof (eq_trans (eq_sym Hdj) Hd) as [=].
        -- right. by exists j, d.
Qed.

Lemma add_values_numbers len es :
  KMeans.numbers es → ∀ memo,
  KMeans.numbers memo →
  KMeans.numbers (fold_left (KMeans.add_value len) es memo).
Proof.
  induction 1 as [|[k v] es [val Hv] _ IH]; intros memo Hm; simpl; [done|].
  apply IH. unfold KMeans.add_value. simpl in *. subst v.
  apply Forall_forall. intros kv [->|Hin]%set_prop_entries; [by eexists|].
  by eapply Forall_forall in Hm.
Qed.

Lemma centroid_numbers data cluster :
  (∀ i datum, i ∈ cluster → data !! i = Some datum →
              KMeans.numbers (elements datum)) →
  KMeans.numbers (KMeans.centroid data cluster).
Proof.
  unfold KMeans.centroid. generalize (length cluster). intros len.
  assert (KMeans.numbers ([] : KMeans.mean)) as Hm by constructor.
  revert Hm. generalize ([] : KMeans.mean).
  induction cluster as [|i cluster IH]; intros memo Hm Hd; simpl; [done|].
  apply IH.
  - unfold KMeans.add_datum. destruct (data !! i) as [datum|] eqn:Hi; [|done].
    apply add_values_numbers; [|done].
    apply (Hd i datum); [by apply elem_of_cons; left|done].
  - intros j datum Hj. apply Hd. by apply elem_of_cons; right.
Qed.

Lemma kdistance_none obj2 es :
  fold_left (KMeans.distance_step obj2) es None = None.
Proof. induction es as [|kv es IH]; [done|]. simpl. exact IH. Qed.

Lemma kdistance_fold_numbers obj2 es : ∀ q0 q,
  fold_left (KMeans.distance_step obj2) es (Some q0) = Some q →
  KMeans.numbers es.
Proof.
  induction es as [|[k v] es IH]; intros q0 q H; [constructor|].
  simpl in H.
  destruct (prop k obj2) as [[w|]|], v as [val|];
    try (by rewrite kdistance_none in H).
  constructor; [by eexists|]. by eapply IH.
Qed.

(** A datum with a number as distance to some mean has a value at every
    element of its walk. *)
Lemma kdistance_numbers datum m q :
  KMeans.distance datum m = Sqrt q → KMeans.numbers (elements datum).
Proof.
  unfold KMeans.distance.
  destruct (fold_left _ _ _) as [q'|] eqn:H; [|done].
  intros _. by eapply kdistance_fold_numbers.
Qed.

Lemma kdistance_empty datum :
  elements datum ≠ [] → KMeans.distance datum [] = NaN.
Proof.
  unfold KMeans.distance. destruct (elements datum) as [|kv es]; [done|].
  intros _. simpl. by rewrite kdistance_none.
Qed.

Lemma prop_elem_of {V} k (v : V) o : prop k o = Some v → (k, v) ∈ o.
Proof.
  induction o as [|[k0 w] o IH]; simpl; [done|].
  destruct (decide (k0 = k)) as [->|Hne].
  - intros [= ->]. by apply elem_of_cons; left.
  - intros H. apply elem_of_cons. right. by apply IH.
Qed.

(** Each element of a walk holds the value of the object at its key. *)
Lemma walk_value {V} len (o : list (string * V)) k v :
  NoDup (keys o) → (k, v) ∈ walk len o → v = prop k o.
Proof.
  intros Hnd. unfold walk. destruct len as [len|].
  - intros (i & [= -> ->] & _)%list_elem_of_fmap. done.
  - intros ([k' w] & [= -> ->] & Hin)%list_elem_of_fmap. simpl.
    symmetry. by apply prop_NoDup.
Qed.

Lemma differs_self m :
  NoDup (keys m) → KMeans.numbers m → KMeans.differs m m = false.
Proof.
  intros Hnd Hm. unfold KMeans.differs.
  apply not_true_is_false. intros H. apply existsb_exists in H.
  destruct H as ([k v] & Hin & H). apply list_elem_of_In in Hin.
  simpl in H. unfold KMeans.mean_elements in Hin.
  apply walk_value in Hin; [|done]. subst v.
  destruct (prop k m) as [[x|]|] eqn:Hk; simpl in H.
  - apply negb_true_iff in H.
    assert (Qeq_bool x x = true) as Hx by (apply Qeq_bool_iff; reflexivity).
    congruence.
  - apply prop_elem_of in Hk. eapply Forall_forall in Hm; [|exact Hk].
    by destruct Hm.
  - done.
Qed.

Lemma update_spec data old acc cluster clindex old_c :
  old !! clindex = Some old_c →
  KMeans.update data old acc cluster clindex =
  Some (acc.1 ++ [KMeans.centroid data cluster],
        acc.2 || KMeans.differs (KMeans.centroid data cluster) old_c).
Proof.
  intros Ho. unfold KMeans.update. rewrite Ho.
  destruct acc as [ms [|]]; simpl; [done|]. unfold KMeans.differs.
  by destruct (KMeans.mean_elements (KMeans.centroid data cluster)).
Qed.

Lemma update_from_means data old : ∀ cls clindex acc ms changed,
  KMeans.update_from data old cls clindex acc = Some (ms, changed) →
  ms = acc.1 ++ map (KMeans.centroid data) cls.
Proof.
  induction cls as [|cluster cls IH]; intros clindex acc ms changed H;
    simpl in H.
  - injection H as ->. simpl. by rewrite app_nil_r.
  - destruct (KMeans.update data old acc cluster clindex) as [acc'|] eqn:Hu;
      [|done].
    apply IH in H as ->. simpl.
    assert (acc'.1 = acc.1 ++ [KMeans.centroid data cluster]) as ->.
    { unfold KMeans.update in Hu.
      destruct acc as [ms0 [|]]; simpl in *; [by injection Hu as <-|].
      destruct (KMeans.mean_elements (KMeans.centroid data cluster)),
        (old !! clindex); simplify_eq/=; done. }
    by rewrite <- app_assoc.
Qed.

Lemma update_from_spec data old : ∀ cls clindex acc,
  clindex + length cls ≤ length old →
  KMeans.update_from data old cls clindex acc =
  Some (acc.1 ++ map (KMeans.centroid data) cls,
        acc.2 || existsb (λ p, KMeans.differs (KMeans.centroid data p.1) p.2)
                         (zip cls (drop clindex old))).
Proof.
  induction cls as [|cluster cls IH]; intros clindex acc Hlen; simpl.
  - by rewrite app_nil_r, orb_false_r; destruct acc.
  - simpl in Hlen.
    destruct (old !! clindex) as [old_c|] eqn:Ho;
      [|apply lookup_ge_None in Ho; lia].
    rewrite (update_spec _ _ _ _ _ _ Ho), IH by lia. simpl.
    rewrite (drop_S _ _ _ Ho). simpl.
    by rewrite <- app_assoc, orb_assoc.
Qed.

Lemma existsb_zip_map {A B} (f : A * B → bool) (g : A → B) l :
  existsb f (zip l (map g l)) = existsb (λ x, f (x, g x)) l.
Proof. induction l as [|x l IH]; simpl; [done|by rewrite IH]. Qed.

(** X19: when [updateMeans] returns, the mean at the position of a cluster
    has exactly the keys that the walks of the data of the cluster hand
    over (the keys of a datum or, for a datum with a [length], the indices
    below it), each once; the mean of an empty cluster is the empty
    object. *)
Theorem updateMeans_keys_of_cluster (data : list object)
    (oldmeans : list KMeans.mean) (cl : list (list nat))
    (ms : list KMeans.mean) (changed : bool) (c : nat) (cluster : list nat) :
  KMeans.updateMeans data oldmeans cl = Some (ms, changed) →
  cl !! c = Some cluster →
  ∃ mean, ms !! c = Some mean ∧ NoDup (keys mean) ∧
    (cluster = [] → mean = []) ∧
    ∀ k, k ∈ keys mean ↔
         ∃ i datum, i ∈ cluster ∧ data !! i = Some datum ∧
                    k ∈ keys (elements datum).
Proof.
  intros Hu Hc. apply update_from_means in Hu as ->. simpl.
  exists (KMeans.centroid data cluster).
  split; [by rewrite list_lookup_fmap, Hc|].
  split; [apply centroid_NoDup|]. split; [by intros ->|]. intros k.
  unfold KMeans.centroid. rewrite add_data_elem. split; [|by right].
  by intros [?%elem_of_nil|?].
Qed.

Lemma updateMeans_keys_of_cluster_witness :
  KMeans.updateMeans line3 (map KMeans.as_mean [pt1 0; pt1 2])
    [[0; 1]; [2]] =
    Some ([[("x"%string, Some (2 # 4))]; KMeans.as_mean (pt1 2)], true) ∧
  [[0; 1]; [2]] !! 0 = Some [0; 1] ∧
  ∃ mean,
    [[("x"%string, Some (2 # 4))]; KMeans.as_mean (pt1 2)] !! 0 = Some mean ∧
    NoDup (keys mean) ∧
    ([0; 1] = [] → mean = []) ∧
    ∀ k, k ∈ keys mean ↔
         ∃ i datum, i ∈ [0; 1] ∧ line3 !! i = Some datum ∧
                    k ∈ keys (elements datum).
Proof.
  split; [reflexivity|]. split; [reflexivity|].
  apply (updateMeans_keys_of_cluster line3
           (map KMeans.as_mean [pt1 0; pt1 2]) [[0; 1]; [2]]
           [[("x"%string, Some (2 # 4))]; KMeans.as_mean (pt1 2)] true
           0 [0; 1]); reflexivity.
Defined.

(** ** k-means: one round *)

Lemma step_unfold v cl :
  KMeans.assignClusters (KMeans.data v) (KMeans.means v) = Some cl →
  KMeans.step v =
  Some (KMeans.Vars (KMeans.inputData v)
          (map (KMeans.centroid (KMeans.data v)) cl) (KMeans.data v) cl
          (existsb (λ p, KMeans.differs
                           (KMeans.centroid (KMeans.data v) p.1) p.2)
                   (zip cl (KMeans.means v)))
          (KMeans.round v + 1)).
Proof.
  intros Hcl. unfold KMeans.step. rewrite Hcl.
  apply assignClusters_assigned in Hcl as (Hlen & _).
  unfold KMeans.updateMeans. rewrite update_from_spec by (simpl; lia).
  simpl. by rewrite drop_0.
Qed.

Lemma step_inv v v' :
  KMeans.step v = Some v' →
  ∃ cl, KMeans.assignClusters (KMeans.data v) (KMeans.means v) = Some cl ∧
        v' = KMeans.Vars (KMeans.inputData v)
               (map (KMeans.centroid (KMeans.data v)) cl) (KMeans.data v) cl
               (existsb (λ p, KMeans.differs
                                (KMeans.centroid (KMeans.data v) p.1) p.2)
                        (zip cl (KMeans.means v)))
               (KMeans.round v + 1).
Proof.
  intros H.
  destruct (KMeans.assignClusters (KMeans.data v) (KMeans.means v))
    as [cl|] eqn:Hcl.
  - exists cl. split; [done|]. rewrite (step_unfold v cl Hcl) in H.
    by injection H.
  - unfold KMeans.step in H. by rewrite Hcl in H.
Qed.

Lemma concat_disjoint (l : list (list nat)) c c' a b i :
  NoDup (concat l) → l !! c = Some a → l !! c' = Some b →
  i ∈ a → i ∈ b → c = c'.
Proof.
  revert c c'. induction l as [|x l IH]; intros c c' Hnd Ha Hb Hia Hib.
  - done.
  - simpl in Hnd. apply NoDup_app in Hnd as (_ & Hdis & Hnd).
    assert (∀ k y, l !! k = Some y → i ∈ y → i ∈ concat l) as Hin.
    { intros k y Hk Hy. apply list_elem_of_In, in_concat. exists y.
      split; apply list_elem_of_In; [|done].
      by eapply list_elem_of_lookup_2. }
    destruct c as [|c], c' as [|c']; simpl in *.
    + done.
    + injection Ha as ->. exfalso. apply (Hdis i Hia). eauto.
    + injection Hb as ->. exfalso. apply (Hdis i Hib). eauto.
    + f_equal. by apply IH.
Qed.

(** The cluster that holds the index of a datum is the cluster of its
    nearest mean. *)
Lemma assigned_cluster data means cl c cluster i :
  KMeans.assigned data means (length data) cl →
  cl !! c = Some cluster → i ∈ cluster →
  ∃ datum mean q, data !! i = Some datum ∧
                  KMeans.first_least (KMeans.distance datum) means c mean q.
Proof.
  intros (Hlen & Hperm & _ & Hnear) Hc Hi.
  assert (i ∈ seq 0 (length data)) as Hin.
  { rewrite <- Hperm. apply list_elem_of_In, in_concat. exists cluster.
    split; apply list_elem_of_In; [|done].
    by eapply list_elem_of_lookup_2. }
  apply elem_of_seq in Hin as [_ Hin]. simpl in Hin.
  destruct (lookup_lt_is_Some_2 data i Hin) as [datum Hd].
  destruct (Hnear i datum Hin Hd) as (c' & cluster' & mean & q & Hc' & Hi' & H).
  assert (c = c') as <-.
  { apply (concat_disjoint cl c c' cluster cluster' i); try done.
    rewrite Hperm. apply NoDup_seq. }
  by exists datum, mean, q.
Qed.

(** When [assignClusters] returns, every datum has a value at every
    element of its walk. *)
Lemma assigned_numbers data means cl i datum :
  KMeans.assigned data means (length data) cl →
  data !! i = Some datum → KMeans.numbers (elements datum).
Proof.
  intros (_ & _ & _ & Hnear) Hd.
  destruct (Hnear i datum) as (c & cluster & mean & q & _ & _ & _ & Hq & _);
    [by eapply lookup_lt_Some|done|].
  by eapply kdistance_numbers.
Qed.

(** X20: a round ends in a TypeError exactly when its [assignClusters]
    does; [updateMeans] never fails in a round, since it is given one old
    mean per cluster. *)
Theorem step_fails_iff_assignClusters_fails (v : KMeans.vars) :
  KMeans.step v = None ↔
  KMeans.assignClusters (KMeans.data v) (KMeans.means v) = None.
Proof.
  destruct (KMeans.assignClusters (KMeans.data v) (KMeans.means v))
    as [cl|] eqn:Hcl.
  - by rewrite (step_unfold v cl Hcl).
  - unfold KMeans.step. by rewrite Hcl.
Qed.

(** X21: a round keeps the number of means: it leaves one cluster and one
    mean for each mean it started with, also where a cluster came out
    empty.  It keeps the data and adds one to the round. *)
Theorem step_keeps_number_of_means (v v' : KMeans.vars) :
  KMeans.step v = Some v' →
  length (KMeans.means v') = length (KMeans.means v) ∧
  length (KMeans.clusters v') = length (KMeans.means v) ∧
  KMeans.data v' = KMeans.data v ∧
  KMeans.round v' = (KMeans.round v + 1)%Z.
Proof.
  intros (cl & Hcl & ->)%step_inv. simpl.
  apply assignClusters_assigned in Hcl as (Hlen & _).
  by rewrite length_map.
Qed.

(** X22: when a round yields the clusters of the round before it, it
    yields the means of the round before as well, and [converged()] is
    true after it. *)
Theorem step_converges_on_same_clusters (v v1 v2 : KMeans.vars) :
  KMeans.step v = Some v1 →
  KMeans.step v1 = Some v2 →
  KMeans.clusters v2 = KMeans.clusters v1 →
  KMeans.means v2 = KMeans.means v1 ∧ KMeans.converged v2 = true.
Proof.
  intros (cl1 & Has%assignClusters_assigned & ->)%step_inv
         (cl2 & _ & ->)%step_inv. simpl.
  intros ->. split; [done|]. unfold KMeans.converged. simpl.
  rewrite existsb_zip_map. apply negb_true_iff, not_true_is_false.
  intros (cluster & _ & H)%existsb_exists. simpl in H.
  rewrite differs_self in H; [done|apply centroid_NoDup|].
  apply centroid_numbers. intros i datum _ Hd.
  by eapply assigned_numbers.
Qed.

(** X23: a cluster that came out empty stays empty in the next round, when
    every datum has a key and none has a [length]: the mean of an empty
    cluster is the empty object, and the distance of such a datum to it is
    [NaN]. *)
Theorem empty_cluster_stays_empty (v v1 v2 : KMeans.vars) (c : nat) :
  (∀ datum, datum ∈ KMeans.data v → datum ≠ [] ∧ plain datum) →
  KMeans.step v = Some v1 →
  KMeans.clusters v1 !! c = Some [] →
  KMeans.step v1 = Some v2 →
  KMeans.clusters v2 !! c = Some [].
Proof.
  intros Hkeys (cl1 & _ & ->)%step_inv Hc (cl2 & Hcl2 & ->)%step_inv.
  simpl in *. apply assignClusters_assigned in Hcl2 as Has.
  destruct Has as (Hlen & _). rewrite length_map in Hlen.
  destruct (cl2 !! c) as [[|i cluster]|] eqn:Hc2.
  - done.
  - exfalso.
    apply assignClusters_assigned in Hcl2 as Has.
    destruct (assigned_cluster _ _ _ c (i :: cluster) i Has Hc2)
      as (datum & mean & q & Hd & Hm & Hq & _);
      [by apply elem_of_cons; left|].
    rewrite list_lookup_fmap, Hc in Hm. simpl in Hm. injection Hm as <-.
    unfold KMeans.centroid in Hq. simpl in Hq.
    rewrite kdistance_empty in Hq; [done|].
    destruct (Hkeys datum) as [Hne Hpl];
      [by eapply list_elem_of_lookup_2|].
    rewrite (elements_plain datum Hpl). by destruct datum.
  - apply lookup_ge_None in Hc2. apply lookup_lt_Some in Hc. lia.
Qed.

(** X24: of two equal means the later one gets no datum: its cluster is
    empty, since a datum goes to the first of the means at the least
    distance. *)
Theorem later_twin_gets_nothing (data : list object)
    (means : list KMeans.mean) (cl : list (list nat)) (a b : nat)
    (mean : KMeans.mean) :
  KMeans.assignClusters data means = Some cl →
  means !! a = Some mean → means !! b = Some mean → a < b →
  cl !! b = Some [].
Proof.
  intros Has%assignClusters_assigned Ha Hb Hab.
  destruct (cl !! b) as [[|i cluster]|] eqn:Hc.
  - done.
  - exfalso.
    destruct (assigned_cluster _ _ _ b (i :: cluster) i Has Hc)
      as (datum & mean' & q & Hd & Hm & Hq & Hmin);
      [by apply elem_of_cons; left|].
    assert (mean' = mean) as -> by congruence.
    destruct (Hmin a mean q Ha Hq) as [_ Hlt].
    by apply Hlt, Qlt_irrefl in Hab.
  - destruct Has as (Hlen & _). apply lookup_ge_None in Hc.
    apply lookup_lt_Some in Hb. lia.
Qed.

(** ** k-means: the driver *)

(** X25: [run] performs no round.  [init] sets [meansChanged] to [false],
    which is the first thing the loop of [run] tests: [run] does what
    [init] does, and after it the round is 0, there are no clusters, the
    means are the initial ones and [converged()] is true. *)
Theorem run_performs_no_round
    (place : bool → list object → nat → option (list object))
    (i : KMeans.input) :
  KMeans.run place i = KMeans.init place i ∧
  ∀ v, KMeans.run place i = Some v →
       KMeans.round v = 0%Z ∧ KMeans.clusters v = [] ∧
       Some (KMeans.means v) =
         (map KMeans.as_mean <$>
          place (default true (KMeans.kmeanspp i)) (KMeans.input_data i)
                (default 3 (KMeans.numMeans i))) ∧
       KMeans.converged v = true.
Proof.
  unfold KMeans.run, KMeans.init. simpl.
  destruct (place _ _ _) as [ms|]; [|done]. simpl.
  split; [by destruct (Z.to_nat _)|].
  intros v. destruct (Z.to_nat _); simpl; by intros [= <-].
Qed.

Lemma run_performs_no_round_witness :
  KMeans.run place_first (KMeans.Input (Some 2) None None line3) =
    Some (KMeans.Vars (KMeans.Input (Some 2) (Some true) (Some 100%Z) line3)
            (map KMeans.as_mean [pt1 0; pt1 1]) line3 [] false 0) ∧
  KMeans.round (KMeans.Vars
                  (KMeans.Input (Some 2) (Some true) (Some 100%Z) line3)
                  (map KMeans.as_mean [pt1 0; pt1 1]) line3 [] false 0)
    = 0%Z.
Proof.
  split; [reflexivity|].
  apply (run_performs_no_round place_first
           (KMeans.Input (Some 2) None None line3)).
  reflexivity.
Defined.

Lemma step_keeps_number_of_means_witness :
  KMeans.step kmeans_start = Some kmeans_round1 ∧
  length (KMeans.means kmeans_round1) = length (KMeans.means kmeans_start) ∧
  length (KMeans.clusters kmeans_round1) =
    length (KMeans.means kmeans_start) ∧
  KMeans.data kmeans_round1 = KMeans.data kmeans_start ∧
  KMeans.round kmeans_round1 = (KMeans.round kmeans_start + 1)%Z.
Proof.
  split; [reflexivity|].
  apply (step_keeps_number_of_means kmeans_start kmeans_round1).
  reflexivity.
Defined.

Lemma step_converges_on_same_clusters_witness :
  KMeans.step kmeans_start = Some kmeans_round1 ∧
  KMeans.step kmeans_round1 = Some kmeans_round2 ∧
  KMeans.clusters kmeans_round2 = KMeans.clusters kmeans_round1 ∧
  KMeans.means kmeans_round2 = KMeans.means kmeans_round1 ∧
  KMeans.converged kmeans_round2 = true.
Proof.
  split; [reflexivity|]. split; [reflexivity|]. split; [reflexivity|].
  apply (step_converges_on_same_clusters kmeans_start kmeans_round1
           kmeans_round2); reflexivity.
Defined.

Lemma empty_cluster_stays_empty_witness :
  (∀ datum, datum ∈ KMeans.data kmeans_twins → datum ≠ [] ∧ plain datum) ∧
  KMeans.step kmeans_twins = Some kmeans_twins1 ∧
  KMeans.clusters kmeans_twins1 !! 1 = Some [] ∧
  KMeans.step kmeans_twins1 = Some kmeans_twins2 ∧
  KMeans.clusters kmeans_twins2 !! 1 = Some [].
Proof.
  assert (∀ datum, datum ∈ KMeans.data kmeans_twins →
                   datum ≠ [] ∧ plain datum) as Hkeys.
  { intros datum Hin. simpl in Hin. unfold line3 in Hin.
    repeat (apply elem_of_cons in Hin as [->|Hin]; [done|]).
    by apply elem_of_nil in Hin. }
  split; [exact Hkeys|]. split; [reflexivity|]. split; [reflexivity|].
  split; [reflexivity|].
  apply (empty_cluster_stays_empty kmeans_twins kmeans_twins1 kmeans_twins2
           1 Hkeys); reflexivity.
Defined.

Lemma later_twin_gets_nothing_witness :
  KMeans.assignClusters line3 (map KMeans.as_mean [pt1 0; pt1 0]) =
    Some [[0; 1; 2]; []] ∧
  map KMeans.as_mean [pt1 0; pt1 0] !! 0 = Some (KMeans.as_mean (pt1 0)) ∧
  map KMeans.as_mean [pt1 0; pt1 0] !! 1 = Some (KMeans.as_mean (pt1 0)) ∧
  0 < 1 ∧ [[0; 1; 2]; []] !! 1 = Some [].
Proof.
  split; [reflexivity|]. split; [reflexivity|]. split; [reflexivity|].
  split; [lia|].
  apply (later_twin_gets_nothing line3 (map KMeans.as_mean [pt1 0; pt1 0])
           [[0; 1; 2]; []] 0 1 (KMeans.as_mean (pt1 0)));
    [reflexivity..|lia].
Defined.
